(** * HubSpot incremental sync worker (worker.js): model and properties

    A shallow embedding of [src/pro_active_delivery/worker.js].

    - A JavaScript [Date] or a number holding epoch milliseconds is a
      [Time]: [Some t] for the instant [t], [None] for an Invalid Date / NaN.
    - The module-level state of the worker (the [domain] document, the
      [expirationDate] variable, the token held by [hubspotClient]), the wall
      clock, the remote endpoints and the in-memory action queue are the
      fields of one [World] that every operation threads through.
    - A string is its sequence of UTF-8 bytes. A number that [parseInt]
      returns is the integer a double holds, with [2 ^ 1024], which no finite
      double equals, standing for [Infinity].
    - A plain object used as a map is a [gmap] of its own properties, read
      through [objGet], which falls through to [Object.prototype] as the
      bracket read of the code does.
    - Every awaited remote call is fallible and is answered by the next entry
      of a script held in the world; a script that has run out answers with a
      failure. A world so describes a remote over a finite stretch of calls.
    - [try]/[catch] is an exception monad over the world; the unbounded
      [while (hasMore)] loop takes fuel. *)

From Stdlib Require Import ZArith Lia Ascii.
From stdpp Require Import base option list strings gmap.

Local Open Scope Z_scope.

(** ** JavaScript values *)

(** Epoch milliseconds; [None] is NaN (the value of an Invalid Date). *)
Definition Time : Type := option Z.

(** [a > b] on dates or numbers: false as soon as one side is NaN. *)
Definition gtTime (a b : Time) : bool :=
  match a, b with
  | Some x, Some y => y <? x
  | _, _ => false
  end.

(** [d - ms] for a date [d]: NaN stays NaN. *)
Definition minusMs (d : Time) (ms : Z) : Time :=
  match d with
  | Some x => Some (x - ms)
  | None => None
  end.

(** The values stored in the property objects the worker builds. *)
Inductive JsVal : Type :=
| JUndefined
| JNull
| JStr (s : string)
| JNum (n : Z)
| JMember (name : string).   (* the member of [Object.prototype] of that name *)

(** A property of a remote record: a string, or [None] for null. *)
Definition ofProp (p : option string) : JsVal :=
  match p with
  | Some s => JStr s
  | None => JNull
  end.

(** [!s] is false exactly for a non-empty string. *)
Definition truthyStr (p : option string) : bool :=
  match p with
  | Some EmptyString => false
  | Some _ => true
  | None => false
  end.

(** [s || ''] *)
Definition orEmpty (p : option string) : string :=
  if truthyStr p then default "" p else "".

Definition byteAt (s : string) (i : nat) : nat :=
  match String.get i s with
  | Some c => nat_of_ascii c
  | None => 256%nat
  end.

(** The number of bytes of the white space character or line terminator a
    string starts with; 0 when it starts with none. These are U+0009 to
    U+000D, U+0020, U+00A0, U+1680, U+2000 to U+200A, U+2028, U+2029, U+202F,
    U+205F, U+3000 and U+FEFF. *)
Definition spaceWidth (s : string) : nat :=
  let b0 := byteAt s 0 in
  let b1 := byteAt s 1 in
  let b2 := byteAt s 2 in
  (if (b0 =? 32) || ((9 <=? b0) && (b0 <=? 13)) then 1
   else if (b0 =? 194) && (b1 =? 160) then 2
   else if (b0 =? 225) && (b1 =? 154) && (b2 =? 128) then 3
   else if (b0 =? 226) && (b1 =? 128)
           && (((128 <=? b2) && (b2 <=? 138)) || (b2 =? 168) || (b2 =? 169) || (b2 =? 175))
        then 3
   else if (b0 =? 226) && (b1 =? 129) && (b2 =? 159) then 3
   else if (b0 =? 227) && (b1 =? 128) && (b2 =? 128) then 3
   else if (b0 =? 239) && (b1 =? 187) && (b2 =? 191) then 3
   else 0)%nat.

Fixpoint dropBytes (n : nat) (s : string) : string :=
  match n, s with
  | S n', String _ s' => dropBytes n' s'
  | _, _ => s
  end.

Fixpoint dropSpacesFuel (fuel : nat) (s : string) : string :=
  match fuel with
  | O => s
  | S fuel' =>
      match spaceWidth s with
      | O => s
      | n => dropSpacesFuel fuel' (dropBytes n s)
      end
  end.

(** The string without its leading white space. *)
Definition dropSpaces (s : string) : string := dropSpacesFuel (String.length s) s.

Definition allSpace (s : string) : bool :=
  match dropSpaces s with
  | EmptyString => true
  | _ => false
  end.

Fixpoint trimEnd (s : string) : string :=
  match s with
  | EmptyString => EmptyString
  | String c s' => if allSpace s then EmptyString else String c (trimEnd s')
  end.

(** [String.prototype.trim] *)
Definition trim (s : string) : string := trimEnd (dropSpaces s).

(** The value of a character as a digit in [radix], if it is one. *)
Definition digitOf (radix : Z) (c : ascii) : option Z :=
  let n := Z.of_nat (nat_of_ascii c) in
  let d := if (48 <=? n) && (n <=? 57) then n - 48
           else if (97 <=? n) && (n <=? 122) then n - 87
           else if (65 <=? n) && (n <=? 90) then n - 55
           else 36 in
  if d <? radix then Some d else None.

Fixpoint digitsValue (radix acc : Z) (s : string) : Z :=
  match s with
  | String c s' =>
      match digitOf radix c with
      | Some d => digitsValue radix (acc * radix + d) s'
      | None => acc
      end
  | EmptyString => acc
  end.

Definition startsWithDigit (radix : Z) (s : string) : bool :=
  match s with
  | String c _ => bool_decide (is_Some (digitOf radix c))
  | EmptyString => false
  end.

(** The double nearest to an integer, ties to the even significand. Above
    the largest finite double the result is [2 ^ 1024], standing for
    [Infinity]. *)
Definition toDouble (n : Z) : Z :=
  let m := Z.abs n in
  if m <? 2 ^ 53 then n
  else
    let e := Z.log2 m - 52 in
    let q := m / 2 ^ e in
    let r := m mod 2 ^ e in
    let half := 2 ^ (e - 1) in
    let q' := if (half <? r) || ((r =? half) && Z.odd q) then q + 1 else q in
    Z.sgn n * Z.min (q' * 2 ^ e) (2 ^ 1024).

(** [parseInt(x)], called without a radix ([None] is NaN): leading white
    space, an optional sign, an optional [0x] or [0X] that makes the radix
    16, then the longest run of digits of the radix; the result is a double.
    [parseInt(undefined)] and [parseInt(null)] are NaN. *)
Definition parseInt (p : option string) : option Z :=
  match p with
  | None => None
  | Some s =>
      let (negative, unsigned) :=
        match dropSpaces s with
        | String "-"%char r => (true, r)
        | String "+"%char r => (false, r)
        | r => (false, r)
        end in
      let (radix, digits) :=
        match unsigned with
        | String "0"%char (String "x"%char r) => (16, r)
        | String "0"%char (String "X"%char r) => (16, r)
        | r => (10, r)
        end in
      if startsWithDigit radix digits
      then let v := digitsValue radix 0 digits in
           Some (toDouble (if negative then - v else v))
      else None
  end.

(** [!n] for a number: NaN and 0 are falsy. *)
Definition truthyNum (n : option Z) : bool :=
  match n with
  | Some x => negb (x =? 0)
  | None => false
  end.

(** ** Plain objects used as maps *)

(** The property names every plain object inherits from [Object.prototype]. *)
Definition prototypeMembers : list string :=
  ["constructor"; "__defineGetter__"; "__defineSetter__"; "hasOwnProperty";
   "__lookupGetter__"; "__lookupSetter__"; "isPrototypeOf"; "propertyIsEnumerable";
   "toString"; "valueOf"; "__proto__"; "toLocaleString"].

Definition inherited (key : string) : bool :=
  existsb (String.eqb key) prototypeMembers.

(** What [o[key]] reads from a plain object: an own property, or the member
    of [Object.prototype] of that name (a function, or [Object.prototype]
    itself: truthy, and neither a string nor an array), or undefined. *)
Inductive Lookup (V : Type) : Type :=
| Own (v : V)
| Member (name : string)
| Absent.

Arguments Own {V} v.
Arguments Member {V} name.
Arguments Absent {V}.

Definition objGet {V : Type} (o : gmap string V) (key : string) : Lookup V :=
  match o !! key with
  | Some v => Own v
  | None => if inherited key then Member key else Absent
  end.

(** ** Remote records *)

Inductive EntityKind : Type := Companies | Contacts | Meetings.

#[global] Instance EntityKind_eq_dec : EqDecision EntityKind.
Proof. solve_decision. Defined.

(** The [properties] object of a search result. The three searches ask for
    different properties; a property that was not asked for, or is null, is
    [None]. The two date properties of a meeting are kept as the instant
    [new Date] reads from them. *)
Module Props.
Record props : Type := mkProps {
  name : option string;
  domain : option string;
  country : option string;
  industry : option string;
  description : option string;
  annualrevenue : option string;
  numberofemployees : option string;
  hs_lead_status : option string;
  firstname : option string;
  lastname : option string;
  jobtitle : option string;
  email : option string;
  hubspotscore : option string;
  hs_analytics_source : option string;
  hs_latest_source : option string;
  hs_meeting_title : option string;
  hs_meeting_start_time : option string;
  hs_meeting_end_time : option string;
  hs_createdate : Time;
  hs_lastmodifieddate : Time
}.

Definition empty : props :=
  mkProps None None None None None None None None None None
     None None None None None None None None None None.
End Props.

(** One element of [searchResult.results]. [createdAt] and [updatedAt] are
    kept as the instant [new Date] reads from them. *)
Module RemoteRecord.
Record record : Type := mkRecord {
  id : string;
  properties : option Props.props;
  createdAt : Time;
  updatedAt : Time
}.
End RemoteRecord.

(** ** Output actions *)

Record CompanyProperties : Type := {
  company_id : string;
  company_domain : option string;
  company_industry : option string
}.

(** What a contact or meeting action carries as [identity]: an email, or,
    when the email was read from a map under a name the map only inherits,
    that member of [Object.prototype]. *)
Inductive Identity : Type :=
| Email (s : string)
| Inherited (name : string).

(** An object pushed on the queue. Company actions carry
    [companyProperties]; contact and meeting actions carry [identity] and
    [userProperties]. *)
Record Action : Type := {
  actionName : string;
  actionDate : Time;
  includeInAnalytics : Z;
  identity : option Identity;
  userProperties : option (list (string * JsVal));
  companyProperties : option CompanyProperties
}.

(** Modelled from the spec: [filterNullValuesFromObject] of [./utils], which
    is not among the sources. The spec has it remove the keys whose value is
    null from a properties map. *)
Definition filterNullValuesFromObject (o : list (string * JsVal)) : list (string * JsVal) :=
  List.filter (fun kv => match kv.2 with JNull => false | _ => true end) o.

(** ** The account document *)

Record LastPulledDates : Type := {
  companies : Time;
  contacts : Time;
  meetings : Time
}.

(** One element of [domain.integrations.hubspot.accounts]. A watermark that
    is missing from the document reads as an Invalid Date. *)
Record Account : Type := {
  hubId : string;
  accessToken : string;
  refreshToken : string;
  lastPulledDates : LastPulledDates
}.

Record Domain : Type := {
  apiKey : string;
  accounts : list Account
}.

Definition getWatermark (k : EntityKind) (d : LastPulledDates) : Time :=
  match k with
  | Companies => companies d
  | Contacts => contacts d
  | Meetings => meetings d
  end.

Definition setWatermark (k : EntityKind) (t : Time) (d : LastPulledDates) : LastPulledDates :=
  match k with
  | Companies => {| companies := t; contacts := contacts d; meetings := meetings d |}
  | Contacts => {| companies := companies d; contacts := t; meetings := meetings d |}
  | Meetings => {| companies := companies d; contacts := contacts d; meetings := t |}
  end.

(** [accounts.find((acc) => acc.hubId === hubId)]: the first match. *)
Fixpoint findAccount (hub : string) (l : list Account) : option Account :=
  match l with
  | [] => None
  | a :: l' => if String.eqb (hubId a) hub then Some a else findAccount hub l'
  end.

(** A write through the reference [find] returned: the first match changes. *)
Fixpoint updateAccount (hub : string) (f : Account -> Account) (l : list Account) : list Account :=
  match l with
  | [] => []
  | a :: l' => if String.eqb (hubId a) hub then f a :: l' else a :: updateAccount hub f l'
  end.

Definition withAccessToken (tok : string) (a : Account) : Account :=
  {| hubId := hubId a; accessToken := tok; refreshToken := refreshToken a;
     lastPulledDates := lastPulledDates a |}.

Definition withWatermark (k : EntityKind) (t : Time) (a : Account) : Account :=
  {| hubId := hubId a; accessToken := accessToken a; refreshToken := refreshToken a;
     lastPulledDates := setWatermark k t (lastPulledDates a) |}.

(** ** The remote endpoints *)

Record Filter : Type := {
  propertyName : string;
  operator : string;
  value : Time   (* sent as the decimal string of the number *)
}.

Record SearchObject : Type := {
  filterGroups : list (list Filter);   (* [{}] is a group without filters *)
  sortProperty : string;               (* sorts: ASCENDING on this property *)
  searchProperties : list string;
  limit : Z;
  after : option Z                     (* [None]: undefined *)
}.

(** What [doSearch] resolves to: [results] may be missing, and
    [paging.next.after] is a string when there is a next page. *)
Record SearchResult : Type := {
  results : option (list RemoteRecord.record);
  nextAfter : option string
}.

(** One call of [doSearch]: it rejects, or resolves to a result that may
    depend on the request. *)
Inductive SearchOutcome : Type :=
| SearchFails
| SearchOk (respond : SearchObject -> SearchResult).

(** One element of the [results] of a batch association read. *)
Record Association : Type := {
  assocFrom : option string;            (* from.id *)
  assocTo : option (list string)        (* to[i].id *)
}.

(** One batch association read through [apiRequest]: the request rejects, or
    it yields a response whose [json()] rejects, or a body whose [results]
    may be missing. *)
Inductive AssocOutcome : Type :=
| RequestThrows
| JsonThrows
| AssocBody (res : option (list Association)).

(** One element of the [results] of [contacts.batchApi.read]; the inner
    option is the [email] property. *)
Record BatchContact : Type := {
  batchId : string;
  batchProperties : option (option string)
}.

Inductive BatchOutcome : Type :=
| BatchThrows
| BatchBody (res : option (list BatchContact)).

Record TokenBody : Type := {
  newAccessToken : string;
  expiresIn : Z
}.

(** ** The world *)

Record World : Type := mkWorld {
  domain : Domain                      (* the [domain] document *);
  clock : Z                            (* what [new Date()] reads, in epoch ms *);
  latency : Z                          (* how long one remote call takes *);
  expirationDate : Time                (* the module variable; [None] while undefined *);
  clientToken : string                 (* the token set on [hubspotClient] *);
  tokenApi : list (option TokenBody)   (* [oauth.tokensApi.createToken]; [None] rejects *);
  companySearch : list SearchOutcome   (* [crm.companies.searchApi.doSearch] *);
  contactSearch : list SearchOutcome   (* [crm.contacts.searchApi.doSearch] *);
  meetingSearch : list SearchOutcome   (* [crm.meetings.searchApi.doSearch] *);
  contactAssocApi : list AssocOutcome  (* associations CONTACTS/COMPANIES *);
  meetingAssocApi : list AssocOutcome  (* associations MEETINGS/CONTACTS *);
  contactBatchApi : list BatchOutcome  (* [crm.contacts.batchApi.read] *);
  waiting : list Action                (* tasks pushed on [q], not yet given to the worker *);
  actions : list Action                (* the [actions] array of the current account *);
  delivered : list (list Action)       (* the batches handed to [goal], oldest first *)
}.

Definition set_domain (v : Domain) (w : World) : World :=
  {| domain := v; clock := clock w; latency := latency w;
     expirationDate := expirationDate w; clientToken := clientToken w;
     tokenApi := tokenApi w; companySearch := companySearch w;
     contactSearch := contactSearch w; meetingSearch := meetingSearch w;
     contactAssocApi := contactAssocApi w; meetingAssocApi := meetingAssocApi w;
     contactBatchApi := contactBatchApi w; waiting := waiting w; actions := actions w;
     delivered := delivered w |}.

Definition set_clock (v : Z) (w : World) : World :=
  {| domain := domain w; clock := v; latency := latency w;
     expirationDate := expirationDate w; clientToken := clientToken w;
     tokenApi := tokenApi w; companySearch := companySearch w;
     contactSearch := contactSearch w; meetingSearch := meetingSearch w;
     contactAssocApi := contactAssocApi w; meetingAssocApi := meetingAssocApi w;
     contactBatchApi := contactBatchApi w; waiting := waiting w; actions := actions w;
     delivered := delivered w |}.

Definition set_latency (v : Z) (w : World) : World :=
  {| domain := domain w; clock := clock w; latency := v;
     expirationDate := expirationDate w; clientToken := clientToken w;
     tokenApi := tokenApi w; companySearch := companySearch w;
     contactSearch := contactSearch w; meetingSearch := meetingSearch w;
     contactAssocApi := contactAssocApi w; meetingAssocApi := meetingAssocApi w;
     contactBatchApi := contactBatchApi w; waiting := waiting w; actions := actions w;
     delivered := delivered w |}.

Definition set_expirationDate (v : Time) (w : World) : World :=
  {| domain := domain w; clock := clock w; latency := latency w; expirationDate := v;
     clientToken := clientToken w; tokenApi := tokenApi w;
     companySearch := companySearch w; contactSearch := contactSearch w;
     meetingSearch := meetingSearch w; contactAssocApi := contactAssocApi w;
     meetingAssocApi := meetingAssocApi w; contactBatchApi := contactBatchApi w;
     waiting := waiting w; actions := actions w; delivered := delivered w |}.

Definition set_clientToken (v : string) (w : World) : World :=
  {| domain := domain w; clock := clock w; latency := latency w;
     expirationDate := expirationDate w; clientToken := v; tokenApi := tokenApi w;
     companySearch := companySearch w; contactSearch := contactSearch w;
     meetingSearch := meetingSearch w; contactAssocApi := contactAssocApi w;
     meetingAssocApi := meetingAssocApi w; contactBatchApi := contactBatchApi w;
     waiting := waiting w; actions := actions w; delivered := delivered w |}.

Definition set_tokenApi (v : list (option TokenBody)) (w : World) : World :=
  {| domain := domain w; clock := clock w; latency := latency w;
     expirationDate := expirationDate w; clientToken := clientToken w; tokenApi := v;
     companySearch := companySearch w; contactSearch := contactSearch w;
     meetingSearch := meetingSearch w; contactAssocApi := contactAssocApi w;
     meetingAssocApi := meetingAssocApi w; contactBatchApi := contactBatchApi w;
     waiting := waiting w; actions := actions w; delivered := delivered w |}.

Definition set_companySearch (v : list SearchOutcome) (w : World) : World :=
  {| domain := domain w; clock := clock w; latency := latency w;
     expirationDate := expirationDate w; clientToken := clientToken w;
     tokenApi := tokenApi w; companySearch := v; contactSearch := contactSearch w;
     meetingSearch := meetingSearch w; contactAssocApi := contactAssocApi w;
     meetingAssocApi := meetingAssocApi w; contactBatchApi := contactBatchApi w;
     waiting := waiting w; actions := actions w; delivered := delivered w |}.

Definition set_contactSearch (v : list SearchOutcome) (w : World) : World :=
  {| domain := domain w; clock := clock w; latency := latency w;
     expirationDate := expirationDate w; clientToken := clientToken w;
     tokenApi := tokenApi w; companySearch := companySearch w; contactSearch := v;
     meetingSearch := meetingSearch w; contactAssocApi := contactAssocApi w;
     meetingAssocApi := meetingAssocApi w; contactBatchApi := contactBatchApi w;
     waiting := waiting w; actions := actions w; delivered := delivered w |}.

Definition set_meetingSearch (v : list SearchOutcome) (w : World) : World :=
  {| domain := domain w; clock := clock w; latency := latency w;
     expirationDate := expirationDate w; clientToken := clientToken w;
     tokenApi := tokenApi w; companySearch := companySearch w;
     contactSearch := contactSearch w; meetingSearch := v;
     contactAssocApi := contactAssocApi w; meetingAssocApi := meetingAssocApi w;
     contactBatchApi := contactBatchApi w; waiting := waiting w; actions := actions w;
     delivered := delivered w |}.

Definition set_contactAssocApi (v : list AssocOutcome) (w : World) : World :=
  {| domain := domain w; clock := clock w; latency := latency w;
     expirationDate := expirationDate w; clientToken := clientToken w;
     tokenApi := tokenApi w; companySearch := companySearch w;
     contactSearch := contactSearch w; meetingSearch := meetingSearch w;
     contactAssocApi := v; meetingAssocApi := meetingAssocApi w;
     contactBatchApi := contactBatchApi w; waiting := waiting w; actions := actions w;
     delivered := delivered w |}.

Definition set_meetingAssocApi (v : list AssocOutcome) (w : World) : World :=
  {| domain := domain w; clock := clock w; latency := latency w;
     expirationDate := expirationDate w; clientToken := clientToken w;
     tokenApi := tokenApi w; companySearch := companySearch w;
     contactSearch := contactSearch w; meetingSearch := meetingSearch w;
     contactAssocApi := contactAssocApi w; meetingAssocApi := v;
     contactBatchApi := contactBatchApi w; waiting := waiting w; actions := actions w;
     delivered := delivered w |}.

Definition set_contactBatchApi (v : list BatchOutcome) (w : World) : World :=
  {| domain := domain w; clock := clock w; latency := latency w;
     expirationDate := expirationDate w; clientToken := clientToken w;
     tokenApi := tokenApi w; companySearch := companySearch w;
     contactSearch := contactSearch w; meetingSearch := meetingSearch w;
     contactAssocApi := contactAssocApi w; meetingAssocApi := meetingAssocApi w;
     contactBatchApi := v; waiting := waiting w; actions := actions w;
     delivered := delivered w |}.

Definition set_waiting (v : list Action) (w : World) : World :=
  {| domain := domain w; clock := clock w; latency := latency w;
     expirationDate := expirationDate w; clientToken := clientToken w;
     tokenApi := tokenApi w; companySearch := companySearch w;
     contactSearch := contactSearch w; meetingSearch := meetingSearch w;
     contactAssocApi := contactAssocApi w; meetingAssocApi := meetingAssocApi w;
     contactBatchApi := contactBatchApi w; waiting := v; actions := actions w;
     delivered := delivered w |}.

Definition set_actions (v : list Action) (w : World) : World :=
  {| domain := domain w; clock := clock w; latency := latency w;
     expirationDate := expirationDate w; clientToken := clientToken w;
     tokenApi := tokenApi w; companySearch := companySearch w;
     contactSearch := contactSearch w; meetingSearch := meetingSearch w;
     contactAssocApi := contactAssocApi w; meetingAssocApi := meetingAssocApi w;
     contactBatchApi := contactBatchApi w; waiting := waiting w; actions := v;
     delivered := delivered w |}.

Definition set_delivered (v : list (list Action)) (w : World) : World :=
  {| domain := domain w; clock := clock w; latency := latency w;
     expirationDate := expirationDate w; clientToken := clientToken w;
     tokenApi := tokenApi w; companySearch := companySearch w;
     contactSearch := contactSearch w; meetingSearch := meetingSearch w;
     contactAssocApi := contactAssocApi w; meetingAssocApi := meetingAssocApi w;
     contactBatchApi := contactBatchApi w; waiting := waiting w; actions := actions w;
     delivered := v |}.

Definition searchApi (k : EntityKind) (w : World) : list SearchOutcome :=
  match k with
  | Companies => companySearch w
  | Contacts => contactSearch w
  | Meetings => meetingSearch w
  end.

Definition set_searchApi (k : EntityKind) (v : list SearchOutcome) (w : World) : World :=
  match k with
  | Companies => set_companySearch v w
  | Contacts => set_contactSearch v w
  | Meetings => set_meetingSearch v w
  end.

Definition set_accounts (l : list Account) (w : World) : World :=
  set_domain {| apiKey := apiKey (domain w); accounts := l |} w.

(** ** Exceptions over the world *)

Inductive Error : Type :=
| FetchError (k : EntityKind)   (* 'Failed to fetch ... for the 4th time. Aborting.' *)
| TypeError (what : string)     (* a property read on undefined *)
| JsonError.                    (* a rejected [response.json()] *)

Inductive Res (A : Type) : Type :=
| Ok (a : A) (w : World)
| Throw (e : Error) (w : World)
| OutOfFuel.

Arguments Ok {A} a w.
Arguments Throw {A} e w.
Arguments OutOfFuel {A}.

Definition M (A : Type) : Type := World -> Res A.

Definition ret {A : Type} (a : A) : M A := fun w => Ok a w.

Definition throw {A : Type} (e : Error) : M A := fun w => Throw e w.

Definition bind {A B : Type} (m : M A) (f : A -> M B) : M B :=
  fun w =>
    match m w with
    | Ok a w' => f a w'
    | Throw e w' => Throw e w'
    | OutOfFuel => OutOfFuel
    end.

Definition tryCatch {A : Type} (m : M A) (handler : Error -> M A) : M A :=
  fun w =>
    match m w with
    | Throw e w' => handler e w'
    | r => r
    end.

Definition modify (f : World -> World) : M unit := fun w => Ok tt (f w).

Notation "'let*' x ':=' m 'in' f" := (bind m (fun x => f))
  (at level 10, x name, m at level 100, f at level 200).
Notation "m ;; f" := (bind m (fun _ => f))
  (at level 100, f at level 200, right associativity).

(** [l.forEach(f)] for a callback that may throw. *)
Fixpoint forEachM {A : Type} (f : A -> M unit) (l : list A) : M unit :=
  match l with
  | [] => ret tt
  | x :: l' => f x ;; forEachM f l'
  end.

(** ** The action queue (createQueue, drainQueue) *)

(** [actions.push(action)], the first statement of the worker. *)
Definition pushAction (action : Action) (w : World) : World :=
  set_actions (actions w ++ [action]) w.

(** The rest of the worker: past 2000 actions, a copy of [actions] goes to
    [goal] and [actions] is emptied. *)
Definition flushIfOver (w : World) : World :=
  if 2000 <? Z.of_nat (length (actions w))
  then set_actions [] (set_delivered (delivered w ++ [actions w]) w)
  else w.

Definition worker (action : Action) (w : World) : World :=
  flushIfOver (pushAction action w).

(** [q.push(action)]: the task waits until the queue next runs. *)
Definition qPush (action : Action) (w : World) : World :=
  set_waiting (waiting w ++ [action]) w.

(** The queue hands every waiting task to the worker, oldest first. *)
Definition processQueue (w : World) : World :=
  fold_left (fun w' a => worker a w') (waiting w) (set_waiting [] w).

(** An [await] on a remote call: the call takes [latency] and the event loop
    turns, so the queue runs. *)
Definition awaitIO (w : World) : World :=
  processQueue (set_clock (clock w + latency w) w).

(** [await new Promise((resolve) => setTimeout(resolve, ms))] *)
Definition sleep (ms : Z) (w : World) : World :=
  processQueue (set_clock (clock w + ms) w).

(** [const actions = []; const q = createQueue(domain, actions);] *)
Definition createQueue (w : World) : World :=
  set_waiting [] (set_actions [] w).

Definition drainQueue (w : World) : World :=
  let w1 := if 0 <? Z.of_nat (length (waiting w)) then processQueue w else w in
  if 0 <? Z.of_nat (length (actions w1))
  then set_delivered (delivered w1 ++ [actions w1]) w1
  else w1.

(** Every action the queue has accepted and not lost, oldest first. *)
Definition accepted (w : World) : list Action :=
  concat (delivered w) ++ actions w ++ waiting w.

(** ** Credentials (refreshAccessToken) *)

Definition saveDomain (w : World) : World := w.

Definition refreshAccessToken (hub : string) (w : World) : bool * World :=
  match findAccount hub (accounts (domain w)) with
  | None => (false, w)
  | Some account =>
      let w1 := awaitIO w in
      match tokenApi w1 with
      | Some body :: rest =>
          let w2 := set_tokenApi rest w1 in
          let w3 := set_expirationDate (Some (expiresIn body * 1000 + clock w2)) w2 in
          let w4 := set_clientToken (newAccessToken body) w3 in
          if negb (String.eqb (newAccessToken body) (accessToken account))
          then (true, set_accounts
                        (updateAccount hub (withAccessToken (newAccessToken body))
                           (accounts (domain w4))) w4)
          else (true, w4)
      | None :: rest => (false, set_tokenApi rest w1)
      | [] => (false, w1)
      end
  end.

(** ** The paginated search *)

(** The first argument of [generateLastModifiedDateFilter]: the number kept
    in [offsetObject.lastModifiedDate], or the [Date] [lastPulledDate]. *)
Inductive DateArg : Type :=
| ANumber (n : Z)
| ADate (d : Time).

Definition valueOf (a : DateArg) : Time :=
  match a with
  | ANumber n => Some n
  | ADate d => d
  end.

Definition truthyDateArg (a : DateArg) : bool :=
  match a with
  | ANumber n => negb (n =? 0)
  | ADate _ => true
  end.

Definition generateLastModifiedDateFilter
    (date : DateArg) (nowDate : Time) (propertyName : string) : list Filter :=
  if negb (truthyDateArg date) then []
  else [ {| propertyName := propertyName; operator := "GTQ"; value := valueOf date |};
         {| propertyName := propertyName; operator := "LTQ"; value := nowDate |} ].

(** [offsetObject]; a field is [None] while undefined or NaN, which the code
    never tells apart. *)
Record OffsetObject : Type := {
  offAfter : option Z;
  offLastModifiedDate : option Z
}.

(** [offsetObject.lastModifiedDate || lastPulledDate] *)
Definition windowArg (off : OffsetObject) (lastPulledDate : Time) : DateArg :=
  match offLastModifiedDate off with
  | Some n => if truthyNum (Some n) then ANumber n else ADate lastPulledDate
  | None => ADate lastPulledDate
  end.

(** The lower bound of the modified-since window of the next request. *)
Definition windowStart (off : OffsetObject) (lastPulledDate : Time) : Time :=
  valueOf (windowArg off lastPulledDate).

Definition modifiedProperty (k : EntityKind) : string :=
  match k with
  | Companies => "hs_lastmodifieddate"
  | Contacts => "lastmodifieddate"
  | Meetings => "hs_lastmodifieddate"
  end.

Definition requestedProperties (k : EntityKind) : list string :=
  match k with
  | Companies => ["name"; "domain"; "country"; "industry"; "description";
                  "annualrevenue"; "numberofemployees"; "hs_lead_status"]
  | Contacts => ["firstname"; "lastname"; "jobtitle"; "email"; "hubspotscore";
                 "hs_lead_status"; "hs_analytics_source"; "hs_latest_source"]
  | Meetings => ["hs_meeting_title"; "hs_meeting_start_time"; "hs_meeting_end_time";
                 "hs_createdate"; "hs_lastmodifieddate"]
  end.

Definition searchObject (k : EntityKind) (off : OffsetObject) (lastPulledDate now : Time)
    : SearchObject :=
  {| filterGroups :=
       [generateLastModifiedDateFilter (windowArg off lastPulledDate) now (modifiedProperty k)];
     sortProperty := modifiedProperty k;
     searchProperties := requestedProperties k;
     limit := 100;
     after := offAfter off |}.

(** One awaited [doSearch]: [None] when it rejects. *)
Definition doSearch (k : EntityKind) (so : SearchObject) (w : World)
    : option SearchResult * World :=
  let w1 := awaitIO w in
  match searchApi k w1 with
  | SearchOk respond :: rest => (Some (respond so), set_searchApi k rest w1)
  | SearchFails :: rest => (None, set_searchApi k rest w1)
  | [] => (None, w1)
  end.

(** The [catch] block of the retry loop, after [tryCount++]: the token is
    refreshed when it has expired (the comparison is false while
    [expirationDate] is undefined), then the loop backs off. *)
Definition catchFetchError (hub : string) (tryCount : Z) (w : World) : World :=
  let w1 := if gtTime (Some (clock w)) (expirationDate w)
            then (refreshAccessToken hub w).2 else w in
  sleep (5000 * 2 ^ tryCount) w1.

(** The retry loop, [while (tryCount <= 4)]. It runs at most five times from
    [tryCount = 0]; [attempts] bounds the recursion and is 5 at the call. *)
Fixpoint searchWithRetry (attempts : nat) (k : EntityKind) (hub : string)
    (so : SearchObject) (tryCount : Z) (w : World) : option SearchResult * World :=
  match attempts with
  | O => (None, w)
  | S attempts' =>
      if tryCount <=? 4 then
        match doSearch k so w with
        | (Some searchResult, w1) => (Some searchResult, w1)
        | (None, w1) =>
            let tryCount := tryCount + 1 in
            searchWithRetry attempts' k hub so tryCount (catchFetchError hub tryCount w1)
        end
      else (None, w)
  end.

(** ** Transforming a page *)

(** Lines 179-197: one company of the page. [lastPulledDate] is a [Date]
    object, so [!lastPulledDate] is false. *)
Definition companyAction (lastPulledDate : Time) (company : RemoteRecord.record) (p : Props.props)
    : Action :=
  let isCreated :=
    negb true || gtTime (RemoteRecord.createdAt company) lastPulledDate in
  {| actionName := if isCreated then "Company Created" else "Company Updated";
     actionDate :=
       minusMs (if isCreated then RemoteRecord.createdAt company
                else RemoteRecord.updatedAt company) 2000;
     includeInAnalytics := 0;
     identity := None;
     userProperties := None;
     companyProperties :=
       Some {| company_id := RemoteRecord.id company;
               company_domain := Props.domain p;
               company_industry := Props.industry p |} |}.

Definition companyStep (lastPulledDate : Time) (company : RemoteRecord.record) (w : World) : World :=
  match RemoteRecord.properties company with
  | None => w
  | Some p => qPush (companyAction lastPulledDate company p) w
  end.

Definition companiesPage (lastPulledDate : Time) (data : list RemoteRecord.record) : M unit :=
  modify (fun w => fold_left (fun w' c => companyStep lastPulledDate c w') data w).

(** Lines 295-305: the batch association read of the contacts pass. The
    request and [json()] are both inside the [try]. *)
Definition contactAssociations (w : World) : list Association * World :=
  let w1 := awaitIO w in
  match contactAssocApi w1 with
  | RequestThrows :: rest => ([], set_contactAssocApi rest w1)
  | JsonThrows :: rest => ([], awaitIO (set_contactAssocApi rest w1))
  | AssocBody res :: rest => (default [] res, awaitIO (set_contactAssocApi rest w1))
  | [] => ([], w1)
  end.

(** [Object.fromEntries]: a later entry replaces an earlier one. *)
Definition fromEntries {V : Type} (entries : list (string * V)) : gmap string V :=
  foldl (fun m kv => <[kv.1 := kv.2]> m) ∅ entries.

(** Lines 309-317: the entries of [companyAssociations]. Reading [to[0]] of
    an association without [to] throws. The [splice] on
    [contactsToAssociate] changes an array nothing reads afterwards. *)
Fixpoint companyAssociationEntries (l : list Association)
    : Error + list (string * option string) :=
  match l with
  | [] => inr []
  | association :: l' =>
      match assocFrom association with
      | Some fromId =>
          match assocTo association with
          | None => inl (TypeError "association.to[0]")
          | Some toIds =>
              match companyAssociationEntries l' with
              | inl e => inl e
              | inr entries => inr ((fromId, head toIds) :: entries)
              end
          end
      | None => companyAssociationEntries l'
      end
  end.

Definition contactUserProperties (companyId : JsVal) (p : Props.props)
    : list (string * JsVal) :=
  [ ("company_id", companyId);
    ("contact_name",
      JStr (trim (orEmpty (Props.firstname p) +:+ " " +:+ orEmpty (Props.lastname p))));
    ("contact_title", ofProp (Props.jobtitle p));
    ("contact_source", ofProp (Props.hs_analytics_source p));
    ("contact_status", ofProp (Props.hs_lead_status p));
    ("contact_score",
      JNum (let n := parseInt (Props.hubspotscore p) in
            if truthyNum n then default 0 n else 0)) ].

(** Lines 324-342: the action of a contact that has an email. *)
Definition contactAction (lastPulledDate : Time) (companyAssociations : gmap string (option string))
    (contact : RemoteRecord.record) (p : Props.props) : Action :=
  let companyId :=
    match objGet companyAssociations (RemoteRecord.id contact) with
    | Own (Some c) => JStr c
    | Own None => JUndefined
    | Member name => JMember name
    | Absent => JUndefined
    end in
  let isCreated := gtTime (RemoteRecord.createdAt contact) lastPulledDate in
  {| actionName := if isCreated then "Contact Created" else "Contact Updated";
     actionDate := if isCreated then RemoteRecord.createdAt contact
                   else RemoteRecord.updatedAt contact;
     includeInAnalytics := 0;
     identity := Email <$> Props.email p;
     userProperties := Some (filterNullValuesFromObject (contactUserProperties companyId p));
     companyProperties := None |}.

Definition contactStep (lastPulledDate : Time) (companyAssociations : gmap string (option string))
    (contact : RemoteRecord.record) (w : World) : World :=
  match RemoteRecord.properties contact with
  | None => w
  | Some p =>
      if negb (truthyStr (Props.email p)) then w
      else qPush (contactAction lastPulledDate companyAssociations contact p) w
  end.

Definition contactsPage (lastPulledDate : Time) (data : list RemoteRecord.record) : M unit :=
  fun w =>
    let (companyAssociationsResults, w1) := contactAssociations w in
    match companyAssociationEntries companyAssociationsResults with
    | inl e => Throw e w1
    | inr entries =>
        let companyAssociations := fromEntries entries in
        Ok tt (fold_left (fun w' c => contactStep lastPulledDate companyAssociations c w')
                 data w1)
    end.

(** Lines 434-453: the batch association read of the meetings pass. Only
    the request is inside the [try]; [json()] is awaited after it. *)
Definition meetingAssociations (data : list RemoteRecord.record) : M (list Association) :=
  fun w =>
    if 0 <? Z.of_nat (length (map RemoteRecord.id data)) then
      let w1 := awaitIO w in
      match meetingAssocApi w1 with
      | RequestThrows :: rest => Ok [] (set_meetingAssocApi rest w1)
      | JsonThrows :: rest => Throw JsonError (awaitIO (set_meetingAssocApi rest w1))
      | AssocBody res :: rest => Ok (default [] res) (awaitIO (set_meetingAssocApi rest w1))
      | [] => Ok [] w1
      end
    else Ok [] w.

(** Lines 456-465. [meetingToContactsMap[mid]] is read before anything is
    pushed: under a name the map only inherits it is truthy and has no
    [push], so the callback throws. *)
Definition meetingToContacts (l : list Association)
    : Error + gmap string (list string) :=
  foldl (fun acc assoc =>
           match acc with
           | inl e => inl e
           | inr m =>
               match assocFrom assoc, assocTo assoc with
               | Some mid, Some contactIds =>
                   match objGet m mid with
                   | Own ids => inr (<[mid := ids ++ contactIds]> m)
                   | Absent => inr (<[mid := contactIds]> m)
                   | Member _ => inl (TypeError "meetingToContactsMap[mid].push")
                   end
               | _, _ => inr m
               end
           end) (inr ∅) l.

(** Lines 481-483, inside the [try]: reading [c.properties.email] of a
    result without [properties] throws, and the map stays empty. *)
Fixpoint emailEntries (l : list BatchContact) : option (list (string * option string)) :=
  match l with
  | [] => Some []
  | c :: l' =>
      match batchProperties c with
      | None => None
      | Some email =>
          match emailEntries l' with
          | None => None
          | Some entries => Some ((batchId c, email) :: entries)
          end
      end
  end.

(** Lines 468-488 *)
Definition contactEmails (meetingToContactsMap : gmap string (list string)) (w : World)
    : gmap string (option string) * World :=
  let allContactIds := concat (map snd (map_to_list meetingToContactsMap)) in
  let uniqueContactIds := remove_dups allContactIds in
  if 0 <? Z.of_nat (length uniqueContactIds) then
    let w1 := awaitIO w in
    match contactBatchApi w1 with
    | BatchBody (Some res) :: rest =>
        (match emailEntries res with
         | Some entries => fromEntries entries
         | None => ∅
         end, set_contactBatchApi rest w1)
    | BatchBody None :: rest => (∅, set_contactBatchApi rest w1)
    | BatchThrows :: rest => (∅, set_contactBatchApi rest w1)
    | [] => (∅, w1)
    end
  else (∅, w).

Definition meetingUserProperties (p : Props.props) : list (string * JsVal) :=
  [ ("meeting_title", ofProp (Props.hs_meeting_title p));
    ("meeting_start_time", ofProp (Props.hs_meeting_start_time p));
    ("meeting_end_time", ofProp (Props.hs_meeting_end_time p)) ].

(** Lines 510-516: the action of a meeting for one attendee email. *)
Definition meetingAction (lastPulledDate : Time) (p : Props.props) (email : Identity) : Action :=
  let isCreated := gtTime (Props.hs_createdate p) lastPulledDate in
  {| actionName := if isCreated then "Meeting Created" else "Meeting Updated";
     actionDate := if isCreated then Props.hs_createdate p else Props.hs_lastmodifieddate p;
     includeInAnalytics := 0;
     identity := Some email;
     userProperties := Some (filterNullValuesFromObject (meetingUserProperties p));
     companyProperties := None |}.

Definition attendeeStep (lastPulledDate : Time) (contactIdToEmail : gmap string (option string))
    (p : Props.props) (cid : string) (w : World) : World :=
  match objGet contactIdToEmail cid with
  | Own (Some email) =>
      if negb (truthyStr (Some email)) then w
      else qPush (meetingAction lastPulledDate p (Email email)) w
  | Own None => w
  | Member name => qPush (meetingAction lastPulledDate p (Inherited name)) w
  | Absent => w
  end.

(** Lines 491-518: one meeting of the page; [meeting.properties] is read
    without a guard. [meetingToContactsMap[meeting.id] || []] under a name
    the map only inherits is not an array, and its [forEach] call throws. *)
Definition meetingStep (lastPulledDate : Time)
    (meetingToContactsMap : gmap string (list string))
    (contactIdToEmail : gmap string (option string))
    (meeting : RemoteRecord.record) : M unit :=
  match RemoteRecord.properties meeting with
  | None => throw (TypeError "meeting.properties.hs_createdate")
  | Some p =>
      match objGet meetingToContactsMap (RemoteRecord.id meeting) with
      | Member _ => throw (TypeError "contactIds.forEach")
      | Own contactIds =>
          modify (fun w =>
                    fold_left
                      (fun w' cid => attendeeStep lastPulledDate contactIdToEmail p cid w')
                      contactIds w)
      | Absent => ret tt
      end
  end.

Definition meetingsPage (lastPulledDate : Time) (data : list RemoteRecord.record) : M unit :=
  let* meetingContactAssociations := meetingAssociations data in
  match meetingToContacts meetingContactAssociations with
  | inl e => throw e
  | inr meetingToContactsMap =>
      fun w =>
        let (contactIdToEmail, w1) := contactEmails meetingToContactsMap w in
        forEachM (meetingStep lastPulledDate meetingToContactsMap contactIdToEmail) data w1
  end.

Definition processPage (k : EntityKind) : Time -> list RemoteRecord.record -> M unit :=
  match k with
  | Companies => companiesPage
  | Contacts => contactsPage
  | Meetings => meetingsPage
  end.

(** ** One pass (processCompanies, processContacts, processMeetings)

    The three functions share their skeleton line for line; [k] selects what
    differs: the search endpoint and its property names, the transformation
    of a page, the field read at a cursor reset, and the watermark. *)

(** The modified time read at a cursor reset:
    [data[data.length - 1].updatedAt] for companies and contacts,
    [data[data.length - 1].properties.hs_lastmodifieddate] for meetings. *)
Definition lastModifiedOf (k : EntityKind) (data : list RemoteRecord.record) : Error + Time :=
  match last data with
  | None => inl (TypeError "data[data.length - 1]")
  | Some r =>
      match k with
      | Meetings =>
          match RemoteRecord.properties r with
          | None => inl (TypeError "properties.hs_lastmodifieddate")
          | Some p => inr (Props.hs_lastmodifieddate p)
          end
      | _ => inr (RemoteRecord.updatedAt r)
      end
  end.

(** What the end of the loop body decides. *)
Inductive Step : Type :=
| Done                         (* hasMore = false *)
| Again (off : OffsetObject).

(** The last statement of the loop body, on the page [data] and the cursor
    [after] parsed from the response. *)
Definition advance (k : EntityKind) (off : OffsetObject) (data : list RemoteRecord.record)
    (after : option Z) : Error + Step :=
  if negb (truthyNum after) then inr Done
  else if 9900 <=? default 0 after then
    match lastModifiedOf k data with
    | inl e => inl e
    | inr t => inr (Again {| offAfter := Some 0; offLastModifiedDate := t |})
    end
  else inr (Again {| offAfter := after; offLastModifiedDate := offLastModifiedDate off |}).

(** One run of the body of [while (hasMore)]. *)
Definition iteration (k : EntityKind) (hub : string) (lastPulledDate now : Time)
    (off : OffsetObject) : M Step :=
  fun w =>
    match searchWithRetry 5 k hub (searchObject k off lastPulledDate now) 0 w with
    | (None, w1) => Throw (FetchError k) w1
    | (Some searchResult, w1) =>
        let data := default [] (results searchResult) in
        let after := parseInt (nextAfter searchResult) in
        match processPage k lastPulledDate data w1 with
        | Ok _ w2 =>
            match advance k off data after with
            | inl e => Throw e w2
            | inr step => Ok step w2
            end
        | Throw e w2 => Throw e w2
        | OutOfFuel => OutOfFuel
        end
    end.

Fixpoint passLoop (fuel : nat) (k : EntityKind) (hub : string) (lastPulledDate now : Time)
    (off : OffsetObject) : M unit :=
  match fuel with
  | O => fun _ => OutOfFuel
  | S fuel' =>
      let* step := iteration k hub lastPulledDate now off in
      match step with
      | Done => ret tt
      | Again off' => passLoop fuel' k hub lastPulledDate now off'
      end
  end.

Definition emptyOffset : OffsetObject :=
  {| offAfter := None; offLastModifiedDate := None |}.

(** [account.lastPulledDates.<kind> = now] *)
Definition commitWatermark (k : EntityKind) (hub : string) (now : Time) (w : World) : World :=
  set_accounts (updateAccount hub (withWatermark k now) (accounts (domain w))) w.

(** The [try] block of a pass. *)
Definition passBody (fuel : nat) (k : EntityKind) (hub : string) : M bool :=
  fun w =>
    match findAccount hub (accounts (domain w)) with
    | None => Ok false w
    | Some account =>
        let lastPulledDate := getWatermark k (lastPulledDates account) in
        let now := Some (clock w) in
        (passLoop fuel k hub lastPulledDate now emptyOffset ;;
         modify (commitWatermark k hub now) ;;
         modify saveDomain ;;
         ret true) w
    end.

(** A pass: an exception of the [try] block is logged and becomes [false]. *)
Definition processEntity (fuel : nat) (k : EntityKind) (hub : string) : M bool :=
  tryCatch (passBody fuel k hub) (fun _ => ret false).

Definition processCompanies (fuel : nat) (hub : string) : M bool :=
  processEntity fuel Companies hub.

Definition processContacts (fuel : nat) (hub : string) : M bool :=
  processEntity fuel Contacts hub.

Definition processMeetings (fuel : nat) (hub : string) : M bool :=
  processEntity fuel Meetings hub.

(** ** The run (pullDataFromHubspot) *)

(** [try { await step } catch (err) { console.error(...) }] *)
Definition logged {A : Type} (m : M A) : M unit :=
  tryCatch (m ;; ret tt) (fun _ => ret tt).

(** The body of the loop over the accounts. *)
Definition pullAccount (fuel : nat) (hub : string) : M unit :=
  logged (modify (fun w => (refreshAccessToken hub w).2)) ;;
  modify createQueue ;;
  logged (processContacts fuel hub) ;;
  logged (processCompanies fuel hub) ;;
  logged (processMeetings fuel hub) ;;
  logged (modify drainQueue) ;;
  logged (modify saveDomain).

Definition pullDataFromHubspot (fuel : nat) : M unit :=
  fun w => forEachM (pullAccount fuel) (map hubId (accounts (domain w))) w.




(** ** Observations used by the properties *)

(** The committed watermarks: what every account holds in
    [lastPulledDates], by [hubId]. *)
Definition watermarks (w : World) : list (string * LastPulledDates) :=
  map (fun a => (hubId a, lastPulledDates a)) (accounts (domain w)).

(** What happens to the queue while an account is processed: a pass pushes an
    action, or it awaits and the queue runs. *)
Inductive QueueEvent : Type :=
| Push (a : Action)
| Turn.

Definition queueEvent (w : World) (e : QueueEvent) : World :=
  match e with
  | Push a => qPush a w
  | Turn => processQueue w
  end.

Definition runQueue (evs : list QueueEvent) (w : World) : World :=
  fold_left queueEvent evs w.

Definition pushed (evs : list QueueEvent) : list Action :=
  omap (fun e => match e with Push a => Some a | Turn => None end) evs.

(** The offset objects a pass goes through, one per run of the loop body,
    read off the same [iteration] the pass runs. *)
Fixpoint offsets (fuel : nat) (k : EntityKind) (hub : string) (lastPulledDate now : Time)
    (off : OffsetObject) (w : World) : list OffsetObject :=
  match fuel with
  | O => []
  | S fuel' =>
      off ::
      match iteration k hub lastPulledDate now off w with
      | Ok (Again off') w' => offsets fuel' k hub lastPulledDate now off' w'
      | _ => []
      end
  end.

(** A loop body starts right after a cursor reset exactly when its cursor is
    0: a cursor carried over from a response is truthy. *)
Definition afterReset (off : OffsetObject) : bool :=
  match offAfter off with
  | Some 0 => true
  | _ => false
  end.

Definition resets (tr : list OffsetObject) : nat :=
  length (List.filter afterReset tr).

(** All responses of a search script keep their next cursor below 9900. *)
Definition cursorBelow (limit : Z) (o : SearchOutcome) : Prop :=
  match o with
  | SearchFails => True
  | SearchOk respond =>
      forall so, match parseInt (nextAfter (respond so)) with
                 | Some a => a < limit
                 | None => True
                 end
  end.

(** [s'] is the script [s] of first-attempt successes with up to four
    failures put in front of some of its leading successes. *)
Inductive Retried : list SearchOutcome -> list SearchOutcome -> Prop :=
| retried_same s : Retried s s
| retried_ok respond n s s' :
    (n <= 4)%nat ->
    Retried s s' ->
    Retried (SearchOk respond :: s) (replicate n SearchFails ++ SearchOk respond :: s').

(** The next [n] calls of a search script all fail. *)
Definition allFail (n : nat) (s : list SearchOutcome) : Prop :=
  Forall (fun o => o = SearchFails) (take n s).

(** The scripts of the data endpoints. *)
Definition remote (w : World) :=
  (companySearch w, contactSearch w, meetingSearch w,
   contactAssocApi w, meetingAssocApi w, contactBatchApi w).

(** ** The claims' words, to compare the transformation against *)

(** The creation and last-modification instants the passes read from a
    record: the record's own for companies and contacts, the
    [hs_createdate] and [hs_lastmodifieddate] properties for meetings. *)
Definition creationTime (k : EntityKind) (r : RemoteRecord.record) (p : Props.props) : Time :=
  match k with
  | Meetings => Props.hs_createdate p
  | _ => RemoteRecord.createdAt r
  end.

Definition modificationTime (k : EntityKind) (r : RemoteRecord.record) (p : Props.props)
    : Time :=
  match k with
  | Meetings => Props.hs_lastmodifieddate p
  | _ => RemoteRecord.updatedAt r
  end.

Definition createdName (k : EntityKind) : string :=
  match k with
  | Companies => "Company Created"
  | Contacts => "Contact Created"
  | Meetings => "Meeting Created"
  end.

Definition updatedName (k : EntityKind) : string :=
  match k with
  | Companies => "Company Updated"
  | Contacts => "Contact Updated"
  | Meetings => "Meeting Updated"
  end.

(** The offset between a record's instant and the action date. *)
Definition dateOffset (k : EntityKind) : Z :=
  match k with
  | Companies => 2000
  | _ => 0
  end.

(** [a] is an action for the record [r]: created exactly when the creation
    instant is after the watermark, dated by the creation instant when
    created and by the modification instant otherwise, less the offset of
    the kind. *)
Definition actionFor (k : EntityKind) (lastPulledDate : Time)
    (r : RemoteRecord.record) (p : Props.props) (a : Action) : Prop :=
  if gtTime (creationTime k r p) lastPulledDate
  then actionName a = createdName k
       /\ actionDate a = minusMs (creationTime k r p) (dateOffset k)
  else actionName a = updatedName k
       /\ actionDate a = minusMs (modificationTime k r p) (dateOffset k).

(** ** Sample data *)

Definition sampleAccount (hub : string) : Account :=
  {| hubId := hub; accessToken := "token"; refreshToken := "refresh";
     lastPulledDates :=
       {| companies := Some 1000; contacts := Some 1000; meetings := Some 1000 |} |}.

(** Two accounts, every watermark at 1000, the clock at 50000, no remote
    answer scripted. *)
Definition sampleWorld : World :=
  {| domain := {| apiKey := "key"; accounts := [sampleAccount "hub1"; sampleAccount "hub2"] |};
     clock := 50000; latency := 7; expirationDate := None; clientToken := "";
     tokenApi := []; companySearch := []; contactSearch := []; meetingSearch := [];
     contactAssocApi := []; meetingAssocApi := []; contactBatchApi := [];
     waiting := []; actions := []; delivered := [] |}.

Definition sampleRecord (id : string) (created updated : Z) : RemoteRecord.record :=
  RemoteRecord.mkRecord id (Some Props.empty) (Some created) (Some updated).

(** A successful search call answering [records] and the cursor [next]. *)
Definition page (records : list RemoteRecord.record) (next : option string) : SearchOutcome :=
  SearchOk (fun _ => {| results := Some records; nextAfter := next |}).

(** A company created after the watermark and one created before it. *)
Definition twoCompanies : list RemoteRecord.record :=
  [sampleRecord "c1" 5000 6000; sampleRecord "c2" 500 6000].

(** One failed call, then a page of two companies, then an empty last page. *)
Definition companiesRun : World :=
  set_companySearch [SearchFails; page twoCompanies (Some "2"); page [] None] sampleWorld.

Definition companiesRunEnd : World :=
  match processCompanies 5 "hub1" companiesRun with
  | Ok _ w => w
  | _ => companiesRun
  end.

(** The contacts search is down: five failed calls, then a page nobody
    reaches in this pass. *)
Definition contactsDown : World :=
  set_contactSearch (replicate 5 SearchFails ++ [page [] None])
    (set_companySearch [page twoCompanies None] sampleWorld).


(** A meeting with properties and one without. *)
Definition meetingWithProperties : RemoteRecord.record :=
  sampleRecord "m1" 5000 6000.

(** A meeting whose id is the name of a member of [Object.prototype]. *)
Definition meetingNamedConstructor : RemoteRecord.record :=
  sampleRecord "constructor" 5000 6000.

Definition meetingWithoutProperties : RemoteRecord.record :=
  RemoteRecord.mkRecord "m2" None (Some 5000) (Some 6000).


(** The association results the meetings pass reads for a page that is not
    empty. *)
Definition associationsRead (w : World) : list Association :=
  match meetingAssocApi w with
  | AssocBody res :: _ => default [] res
  | _ => []
  end.

(** No association of [l] names a member of [Object.prototype], neither as
    its [from] id nor among its [to] ids. *)
Definition plainAssociations (l : list Association) : Prop :=
  Forall (fun a =>
            (forall mid, assocFrom a = Some mid -> inherited mid = false)
            /\ (forall contactIds,
                  assocTo a = Some contactIds ->
                  Forall (fun cid => inherited cid = false) contactIds)) l.



(** The spec's scenario: 150 companies on two pages, 100 and 50. *)
Definition twoPagesRun : World :=
  set_companySearch
    [page (replicate 100 (sampleRecord "c" 5000 6000)) (Some "100");
     page (replicate 50 (sampleRecord "c" 5000 6000)) None]
    sampleWorld.

(** A page whose next cursor is at the depth limit, and whose last company
    was modified at 1000, the instant of the watermark. *)
Definition resetRun : World :=
  set_companySearch [page [sampleRecord "c" 500 1000] (Some "9900"); page [] None]
    sampleWorld.

(** Two pages with the next cursor at the depth limit: the last company of
    the first was modified at 5000, the last company of the second at 1000. *)
Definition backRun : World :=
  set_companySearch
    [page [sampleRecord "c" 500 5000] (Some "9900");
     page [sampleRecord "d" 500 1000] (Some "9900");
     page [] None]
    sampleWorld.

(** What the output of a pass is made of and can depend on, besides the
    search scripts: the watermarks, the association and batch-read scripts,
    and the queue. The clock, the credentials and the token endpoint are
    left out. *)
Definition pview (w : World) :=
  (watermarks w, contactAssocApi w, meetingAssocApi w, contactBatchApi w,
   waiting w, actions w, delivered w).

(** Two worlds that differ in no more than clock and credentials, and in
    the retries scripted for the searches of kind [k]. *)
Record Sim (k : EntityKind) (w1 w2 : World) : Prop := {
  sim_view : pview w1 = pview w2;
  sim_search : Retried (searchApi k w1) (searchApi k w2);
  sim_others : forall k', k' <> k -> searchApi k' w1 = searchApi k' w2
}.

(** Two results that agree on everything a pass outputs. *)
Definition sameRes {A : Type} (r1 r2 : Res A) : Prop :=
  match r1, r2 with
  | Ok a u1, Ok b u2 => a = b /\ pview u1 = pview u2
  | Throw e1 u1, Throw e2 u2 => e1 = e2 /\ pview u1 = pview u2
  | OutOfFuel, OutOfFuel => True
  | _, _ => False
  end.

Definition simRes {A : Type} (k : EntityKind) (r1 r2 : Res A) : Prop :=
  match r1, r2 with
  | Ok a u1, Ok b u2 => a = b /\ Sim k u1 u2
  | Throw e1 u1, Throw e2 u2 => e1 = e2 /\ Sim k u1 u2
  | OutOfFuel, OutOfFuel => True
  | _, _ => False
  end.

(** [commitWatermark], seen on the watermarks alone. *)
Fixpoint commitIn (k : EntityKind) (hub : string) (t : Time)
    (l : list (string * LastPulledDates)) : list (string * LastPulledDates) :=
  match l with
  | [] => []
  | (h, d) :: l' =>
      if String.eqb h hub then (h, setWatermark k t d) :: l'
      else (h, d) :: commitIn k hub t l'
  end.

(** Two pages that are fetched at the first attempt. *)
Definition firstAttemptRun : World :=
  set_companySearch [page twoCompanies (Some "2"); page [] None] sampleWorld.

(** A contact with an email and nothing else. *)
Definition contactWithEmail : RemoteRecord.record :=
  RemoteRecord.mkRecord "p1"
    (Some (Props.mkProps None None None None None None None None None None None
             (Some "ann@example.com") None None None None None None None None))
    (Some 500) (Some 6000).

(** The association read answers with a body that cannot be parsed: for the
    contacts pass and for the meetings pass. *)
Definition contactsUnreadableAssociations : World :=
  set_contactSearch [page [contactWithEmail] None]
    (set_contactAssocApi [JsonThrows] sampleWorld).

Definition meetingsUnreadableAssociations : World :=
  set_meetingSearch [page [meetingWithProperties] None]
    (set_meetingAssocApi [JsonThrows] sampleWorld).

(** A meeting whose only attendee has no email: with a properties object,
    and without one. *)
Definition attendeeWithoutEmail (meetingId : string) (w : World) : World :=
  set_meetingAssocApi
    [AssocBody (Some [{| assocFrom := Some meetingId; assocTo := Some ["p1"] |}])]
    (set_contactBatchApi
       [BatchBody (Some [{| batchId := "p1"; batchProperties := Some None |}])] w).

Definition unresolvedMeeting : World :=
  set_meetingSearch [page [meetingWithProperties] None]
    (attendeeWithoutEmail "m1" sampleWorld).

Definition unresolvedMeetingWithoutProperties : World :=
  set_meetingSearch [page [meetingWithoutProperties] None]
    (attendeeWithoutEmail "m2" sampleWorld).

(** The result of a pass, and the world it leaves. *)
Definition returned (r : Res bool) : option bool :=
  match r with
  | Ok b _ => Some b
  | _ => None
  end.

Definition worldOf (r : Res bool) (w : World) : World :=
  match r with
  | Ok _ w' | Throw _ w' => w'
  | OutOfFuel => w
  end.

(** What the contacts pass pushes for one contact, if anything. *)
Definition contactActionOf (lastPulledDate : Time)
    (companyAssociations : gmap string (option string)) (contact : RemoteRecord.record)
    : option Action :=
  match RemoteRecord.properties contact with
  | Some p =>
      if truthyStr (Props.email p)
      then Some (contactAction lastPulledDate companyAssociations contact p)
      else None
  | None => None
  end.

(** The association read of the contacts pass fails: the request rejects,
    or the body cannot be parsed, or nothing answers. *)
Definition contactLookupFails (w : World) : Prop :=
  match contactAssocApi w with
  | [] | RequestThrows :: _ | JsonThrows :: _ => True
  | AssocBody _ :: _ => False
  end.

(** The association request of the meetings pass fails. *)
Definition meetingRequestFails (w : World) : Prop :=
  match meetingAssocApi w with
  | [] | RequestThrows :: _ => True
  | _ => False
  end.

(** The association read of the meetings pass succeeds, and the batch read
    of the attendees' emails fails if it is made. *)
Definition emailReadFails (w : World) : Prop :=
  match meetingAssocApi w with
  | AssocBody _ :: _ =>
      match contactBatchApi w with
      | [] | BatchThrows :: _ => True
      | BatchBody _ :: _ => False
      end
  | _ => False
  end.

(** [contactIdToEmail[cid]] is truthy: the contact resolves to an identity. *)
Definition resolves (contactIdToEmail : gmap string (option string)) (cid : string) : bool :=
  match objGet contactIdToEmail cid with
  | Own email => truthyStr email
  | Member _ => true
  | Absent => false
  end.

(** The contact ids [meetingToContactsMap[meeting.id] || []] gives, when it
    gives an array. *)
Definition attendeesOf (meetingToContactsMap : gmap string (list string))
    (meeting : RemoteRecord.record) : option (list string) :=
  match objGet meetingToContactsMap (RemoteRecord.id meeting) with
  | Own contactIds => Some contactIds
  | Absent => Some []
  | Member _ => None
  end.

(** None of the attendees of a meeting resolves to an identity. *)
Definition noAttendeeEmail (meetingToContactsMap : gmap string (list string))
    (contactIdToEmail : gmap string (option string)) (meeting : RemoteRecord.record)
    : Prop :=
  exists contactIds,
    attendeesOf meetingToContactsMap meeting = Some contactIds
    /\ Forall (fun cid => resolves contactIdToEmail cid = false) contactIds.

(** The OAuth exchange of [refreshAccessToken] cannot succeed: no account
    has the [hubId], or [createToken] rejects. *)
Definition refreshFails (hub : string) (w : World) : Prop :=
  findAccount hub (accounts (domain w)) = None
  \/ match tokenApi w with
     | [] | None :: _ => True
     | Some _ :: _ => False
     end.

(** The credentials: the token endpoint's script, the token of the client,
    the expiry, and the access token of every account. *)
Definition credentials (w : World) :=
  (tokenApi w, clientToken w, expirationDate w, map accessToken (accounts (domain w))).


(** The contacts search answers one contact, the companies search fails five
    times, the meetings search answers an empty page. *)
Definition accountRun : World :=
  set_contactSearch [page [contactWithEmail] None]
    (set_companySearch (replicate 5 SearchFails)
       (set_meetingSearch [page [] None] sampleWorld)).


(** The batches handed to [goal] since the queue was created, [d0] being
    what was handed over before: every one of them was flushed by the worker
    at 2001 actions, and [actions] is below the flush threshold. *)
Definition Batched (d0 : list (list Action)) (w : World) : Prop :=
  exists full,
    delivered w = d0 ++ full
    /\ Forall (fun b => length b = 2001%nat) full
    /\ (length (actions w) <= 2000)%nat.


(** From [w] to [w'] the list of accounts has changed at most at the first
    account with the hubId [hub], the one [find] returns, and that account
    has kept its [hubId] and its [refreshToken]. *)
Definition Writes (hub : string) (w w' : World) : Prop :=
  exists f,
    (forall a, hubId (f a) = hubId a /\ refreshToken (f a) = refreshToken a)
    /\ accounts (domain w') = updateAccount hub f (accounts (domain w)).

Definition WritesRes {A : Type} (hub : string) (w : World) (r : Res A) : Prop :=
  match r with
  | Ok _ w' | Throw _ w' => Writes hub w w'
  | OutOfFuel => True
  end.

(** The account at position [i] of [l] comes after another one with the same
    [hubId]: [find] never returns it. *)
Definition shadowed (l : list Account) (i : nat) : Prop :=
  exists j a0 a, (j < i)%nat /\ l !! j = Some a0 /\ l !! i = Some a /\ hubId a0 = hubId a.

(** Two accounts share the hubId hub1; the companies search answers a page
    to each of the two visits. *)
Definition shadowedRun : World :=
  set_accounts [sampleAccount "hub1"; sampleAccount "hub1"]
    (set_tokenApi [Some {| newAccessToken := "fresh"; expiresIn := 3600 |}]
       (set_companySearch [page twoCompanies None; page [] None] sampleWorld)).

(** The world a computation ends in. *)
Definition endOf {A : Type} (r : Res A) (w : World) : World :=
  match r with
  | Ok _ w' | Throw _ w' => w'
  | OutOfFuel => w
  end.

Definition shadowedRunEnd : World := endOf (pullDataFromHubspot 4 shadowedRun) shadowedRun.


(** What the meetings pass pushes for one attendee of a meeting, if
    anything. *)
Definition attendeeActionOf (lastPulledDate : Time)
    (contactIdToEmail : gmap string (option string)) (p : Props.props) (cid : string)
    : option Action :=
  match objGet contactIdToEmail cid with
  | Own (Some email) =>
      if truthyStr (Some email)
      then Some (meetingAction lastPulledDate p (Email email))
      else None
  | Own None => None
  | Member name => Some (meetingAction lastPulledDate p (Inherited name))
  | Absent => None
  end.

(** What the meetings pass pushes for one meeting: an action per attendee
    that resolves to an identity, in the order of the association. *)
Definition meetingActionsOf (lastPulledDate : Time)
    (meetingToContactsMap : gmap string (list string))
    (contactIdToEmail : gmap string (option string)) (meeting : RemoteRecord.record)
    : list Action :=
  match RemoteRecord.properties meeting, attendeesOf meetingToContactsMap meeting with
  | Some p, Some contactIds =>
      omap (attendeeActionOf lastPulledDate contactIdToEmail p) contactIds
  | _, _ => []
  end.

(** The meeting m1 has the attendee p1 twice and the attendee p2; p1 has an
    email, p2 has none. *)
Definition attendeesWorld : World :=
  set_meetingAssocApi
    [AssocBody (Some [{| assocFrom := Some "m1"; assocTo := Some ["p1"; "p1"; "p2"] |}])]
    (set_contactBatchApi
       [BatchBody (Some [{| batchId := "p1"; batchProperties := Some (Some "ann@example.com") |};
                         {| batchId := "p2"; batchProperties := Some None |}])]
       sampleWorld).

(** The association read answers the companies c9 and c8 for the contact
    p1; and an association that has no [to]. *)
Definition companiesOfContact : World :=
  set_contactAssocApi
    [AssocBody (Some [{| assocFrom := Some "p1"; assocTo := Some ["c9"; "c8"] |}])]
    sampleWorld.

Definition associationWithoutTo : Association :=
  {| assocFrom := Some "p1"; assocTo := None |}.

(** An account that has never been pulled. *)
Definition neverPulled : World :=
  set_accounts
    [{| hubId := "hub1"; accessToken := "token"; refreshToken := "refresh";
        lastPulledDates := {| companies := None; contacts := None; meetings := None |} |}]
    (set_companySearch [page twoCompanies None] sampleWorld).

(** An empty page whose next cursor is at the depth limit. *)
Definition emptyPageAtLimit : SearchOutcome :=
  SearchOk (fun _ => {| results := Some []; nextAfter := Some "9900" |}).


(** The batch read answers p1 with an email and p2 without a [properties]
    object. *)
Definition unreadableBatchContact : World :=
  set_meetingAssocApi
    [AssocBody (Some [{| assocFrom := Some "m1"; assocTo := Some ["p1"; "p2"] |}])]
    (set_contactBatchApi
       [BatchBody (Some [{| batchId := "p1"; batchProperties := Some (Some "ann@example.com") |};
                         {| batchId := "p2"; batchProperties := None |}])]
       sampleWorld).

(** ** The actions of a pass, record by record *)

(** [g] is what the code pushes for the record [r] of a page of kind [k]:
    for a company its action, if it has properties; for a contact its action
    built with some map of companies, if it has properties and an email; for
    a meeting one action for each attendee that resolves, for some maps of
    attendees and emails. *)
Definition ownActions (k : EntityKind) (lastPulledDate : Time) (r : RemoteRecord.record)
    (g : list Action) : Prop :=
  match k with
  | Companies =>
      g = match RemoteRecord.properties r with
          | Some p => [companyAction lastPulledDate r p]
          | None => []
          end
  | Contacts => exists m, g = option_list (contactActionOf lastPulledDate m r)
  | Meetings => exists m2c c2e, g = meetingActionsOf lastPulledDate m2c c2e r
  end.

(** From [w] to [w'] the queue has accepted, for each record of [records]
    in order, the actions of that record, and nothing else; it has lost
    nothing. *)
Definition emitsFor (k : EntityKind) (lastPulledDate : Time)
    (records : list RemoteRecord.record) (w w' : World) : Prop :=
  exists groups,
    accepted w' = accepted w ++ concat groups
    /\ Forall2 (ownActions k lastPulledDate) records groups.

(** The answers among the outcomes of a search script. *)
Definition answers (s : list SearchOutcome) : list (SearchObject -> SearchResult) :=
  omap (fun o => match o with
                 | SearchOk respond => Some respond
                 | SearchFails => None
                 end) s.

(** From [w] to [w'] the search of kind [k] has consumed a prefix of its
    script, and the answers in it, each given to some request, were the
    pages [pages], in order. *)
Definition Fetched (k : EntityKind) (w w' : World) (pages : list (list RemoteRecord.record))
    : Prop :=
  exists consumed sos,
    searchApi k w = consumed ++ searchApi k w'
    /\ length sos = length (answers consumed)
    /\ pages = zip_with (fun respond so => default [] (results (respond so)))
                 (answers consumed) sos.

(** What a pass, or a part of it, has fetched and pushed from [w] to [w']:
    the records of the pages it fetched, in order, each with its own
    actions; all of them when [complete], and otherwise all up to the record
    or the page at which an exception stopped it. *)
Definition passEmits (k : EntityKind) (lastPulledDate : Time) (complete : bool)
    (w w' : World) : Prop :=
  exists pages records,
    Fetched k w w' pages
    /\ (if complete then records = concat pages else records `prefix_of` concat pages)
    /\ emitsFor k lastPulledDate records w w'.

(** The action [a] of the record [r] in the claims' words: classified and
    dated by the instants of [r]. *)
Definition classified (k : EntityKind) (lastPulledDate : Time) (r : RemoteRecord.record)
    (a : Action) : Prop :=
  exists p, RemoteRecord.properties r = Some p /\ actionFor k lastPulledDate r p a.

(** The remote answers the search after a reset with the same page each
    time: one company, modified at 1000, and a next cursor at the depth
    limit. *)
Definition respondAtLimit : SearchObject -> SearchResult :=
  fun _ => {| results := Some [sampleRecord "c" 500 1000]; nextAfter := Some "9900" |}.

Definition repeatingRun : World :=
  set_companySearch (map SearchOk (replicate 3 respondAtLimit)) sampleWorld.

(** What a pass of kind [k] with the watermark [lastPulledDate] pushed
    between [w] and [w']: the actions of a prefix of the records the search
    endpoint of [k] returned between the two, record by record. *)
Definition passActions (k : EntityKind) (lastPulledDate : Time) (w w' : World)
    (new : list Action) : Prop :=
  exists pages records groups,
    Fetched k w w' pages
    /\ records `prefix_of` concat pages
    /\ new = concat groups
    /\ Forall2 (ownActions k lastPulledDate) records groups.

(** The run reaches every account of [hubs] in order: the processing of each
    returns, and starts in the world the one before left. *)
Fixpoint visits (fuel : nat) (hubs : list string) (w w' : World) : Prop :=
  match hubs with
  | [] => w' = w
  | hub :: hubs' => exists w1, pullAccount fuel hub w = Ok tt w1 /\ visits fuel hubs' w1 w'
  end.
(** * Properties *)

Arguments processQueue : simpl never.
Arguments awaitIO : simpl never.
Arguments sleep : simpl never.
Arguments refreshAccessToken : simpl never.
Arguments catchFetchError : simpl never.
Arguments doSearch : simpl never.

(** ** The queue *)

Section Queue.

Implicit Types (w : World) (a : Action).

Lemma worker_waiting a w : waiting (worker a w) = waiting w.
Proof. unfold worker, flushIfOver. by case_match. Qed.

Lemma worker_accepted a w :
  concat (delivered (worker a w)) ++ actions (worker a w)
  = (concat (delivered w) ++ actions w) ++ [a].
Proof.
  unfold worker, flushIfOver. case_match; cbn.
  - rewrite concat_app. cbn. by rewrite !app_nil_r, app_assoc.
  - by rewrite app_assoc.
Qed.

Lemma worker_bound a w :
  (length (actions w) <= 2000)%nat -> (length (actions (worker a w)) <= 2000)%nat.
Proof.
  intros Hb. unfold worker, flushIfOver.
  destruct (2000 <? Z.of_nat (length (actions (pushAction a w)))) eqn:E; cbn.
  - lia.
  - apply Z.ltb_ge in E. cbn in E. lia.
Qed.

Lemma workers_accepted l w :
  let w' := fold_left (fun w' a => worker a w') l w in
  concat (delivered w') ++ actions w' = (concat (delivered w) ++ actions w) ++ l
  /\ waiting w' = waiting w.
Proof.
  revert w. induction l as [|a l IH]; intros w; cbn.
  - by rewrite app_nil_r.
  - destruct (IH (worker a w)) as [E1 E2]. cbn in E1, E2. split.
    + by rewrite E1, worker_accepted, <- app_assoc.
    + by rewrite E2, worker_waiting.
Qed.

Lemma workers_bound l w :
  (length (actions w) <= 2000)%nat ->
  (length (actions (fold_left (fun w' a => worker a w') l w)) <= 2000)%nat.
Proof.
  revert w. induction l as [|a l IH]; intros w Hb; cbn; [done|].
  by apply IH, worker_bound.
Qed.

Lemma processQueue_waiting w : waiting (processQueue w) = [].
Proof.
  unfold processQueue.
  by destruct (workers_accepted (waiting w) (set_waiting [] w)) as [_ ->].
Qed.

Lemma processQueue_accepted w : accepted (processQueue w) = accepted w.
Proof.
  unfold accepted. rewrite processQueue_waiting, app_nil_r, app_assoc.
  unfold processQueue.
  by destruct (workers_accepted (waiting w) (set_waiting [] w)) as [-> _].
Qed.

Lemma processQueue_bound w :
  (length (actions w) <= 2000)%nat -> (length (actions (processQueue w)) <= 2000)%nat.
Proof. intros Hb. unfold processQueue. by apply workers_bound. Qed.

Lemma processQueue_idle w : waiting w = [] -> processQueue w = w.
Proof. unfold processQueue. intros E. rewrite E. cbn. destruct w; cbn in *; by subst. Qed.

Lemma qPush_accepted a w : accepted (qPush a w) = accepted w ++ [a].
Proof. unfold accepted. cbn. by rewrite !app_assoc. Qed.

Lemma drainQueue_delivers w : concat (delivered (drainQueue w)) = accepted w.
Proof.
  unfold drainQueue.
  set (w1 := if 0 <? Z.of_nat (length (waiting w)) then processQueue w else w).
  assert (accepted w1 = accepted w /\ waiting w1 = []) as [Ea Ew].
  { subst w1. case_match eqn:E.
    - split; [apply processQueue_accepted | apply processQueue_waiting].
    - split; [done|]. apply Z.ltb_ge in E. destruct (waiting w); [done | cbn in E; lia]. }
  rewrite <- Ea. unfold accepted. rewrite Ew, app_nil_r.
  case_match eqn:E; cbn.
  - rewrite concat_app. cbn. by rewrite app_nil_r.
  - apply Z.ltb_ge in E. destruct (actions w1); [by rewrite app_nil_r | cbn in E; lia].
Qed.

Lemma runQueue_accepted evs w : accepted (runQueue evs w) = accepted w ++ pushed evs.
Proof.
  revert w. induction evs as [|[a|] evs IH]; intros w; cbn.
  - by rewrite app_nil_r.
  - unfold runQueue in IH. rewrite IH, qPush_accepted. by rewrite <- app_assoc.
  - unfold runQueue in IH. by rewrite IH, processQueue_accepted.
Qed.

Lemma runQueue_bound evs w :
  (length (actions w) <= 2000)%nat -> (length (actions (runQueue evs w)) <= 2000)%nat.
Proof.
  revert w. induction evs as [|[a|] evs IH]; intros w Hb; cbn; [done| |].
  - by apply IH.
  - by apply IH, processQueue_bound.
Qed.

End Queue.

(** C6. While one account is processed, whatever the passes push and
    whenever the queue runs: after [drainQueue] the batches handed to [goal]
    since the queue was created hold the pushed actions, each once and in
    the order of the pushes; at any moment between two worker runs [actions]
    holds at most 2000 entries, and inside a worker run it holds at most
    2001, between its [push] and its flush. *)
Theorem pushed_actions_flushed_once (w0 : World) (evs : list QueueEvent) :
  let w := runQueue evs (createQueue w0) in
  concat (delivered (drainQueue w)) = concat (delivered w0) ++ pushed evs
  /\ (length (actions w) <= 2000)%nat
  /\ (forall a rest,
        let w1 := runQueue evs (createQueue w0) in
        (length (actions (pushAction a w1)) <= 2001)%nat
        /\ (length (actions (worker a w1)) <= 2000)%nat
        /\ (length (actions (fold_left (fun w' b => worker b w') rest w1)) <= 2000)%nat).
Proof.
  cbn zeta.
  assert (Hb : (length (actions (runQueue evs (createQueue w0))) <= 2000)%nat).
  { apply runQueue_bound. cbn. lia. }
  split; [|split; [done|]].
  - rewrite drainQueue_delivers, runQueue_accepted. unfold accepted. cbn.
    by rewrite !app_nil_r.
  - intros a rest. split; [|split].
    + cbn. rewrite length_app. cbn. lia.
    + by apply worker_bound.
    + by apply workers_bound.
Qed.
(** ** Frame conditions

    What the queue, the clock and the transformation of a page leave alone,
    stated once for any [view] of the world that does not look at the
    fields they write. *)

Section Frame.

Context {T : Type} (view : World -> T).

Hypothesis view_clock : forall v w, view (set_clock v w) = view w.
Hypothesis view_waiting : forall v w, view (set_waiting v w) = view w.
Hypothesis view_actions : forall v w, view (set_actions v w) = view w.
Hypothesis view_delivered : forall v w, view (set_delivered v w) = view w.

Lemma worker_frame a w : view (worker a w) = view w.
Proof.
  unfold worker, flushIfOver, pushAction.
  case_match; by rewrite ?view_actions, ?view_delivered, ?view_actions.
Qed.

Lemma fold_frame {A} (f : A -> World -> World) l w :
  (forall x w', view (f x w') = view w') ->
  view (fold_left (fun w' x => f x w') l w) = view w.
Proof.
  intros Hf. revert w. induction l as [|x l IH]; intros w; cbn; [done|].
  by rewrite IH, Hf.
Qed.

Lemma processQueue_frame w : view (processQueue w) = view w.
Proof.
  unfold processQueue. rewrite fold_frame by apply worker_frame. apply view_waiting.
Qed.

Lemma awaitIO_frame w : view (awaitIO w) = view w.
Proof. unfold awaitIO. by rewrite processQueue_frame. Qed.

Lemma sleep_frame ms w : view (sleep ms w) = view w.
Proof. unfold sleep. by rewrite processQueue_frame. Qed.

Lemma qPush_frame a w : view (qPush a w) = view w.
Proof. apply view_waiting. Qed.

Hypothesis view_contactAssocApi : forall v w, view (set_contactAssocApi v w) = view w.
Hypothesis view_meetingAssocApi : forall v w, view (set_meetingAssocApi v w) = view w.
Hypothesis view_contactBatchApi : forall v w, view (set_contactBatchApi v w) = view w.

Lemma companyStep_frame lp c w : view (companyStep lp c w) = view w.
Proof. unfold companyStep. case_match; [apply qPush_frame | done]. Qed.

Lemma contactStep_frame lp m c w : view (contactStep lp m c w) = view w.
Proof. unfold contactStep. repeat case_match; try done. apply qPush_frame. Qed.

Lemma attendeeStep_frame lp m p cid w : view (attendeeStep lp m p cid w) = view w.
Proof. unfold attendeeStep. repeat case_match; try done; apply qPush_frame. Qed.

Lemma meetingStep_frame lp m2c c2e meeting w :
  match meetingStep lp m2c c2e meeting w with
  | Ok _ w1 | Throw _ w1 => view w1 = view w
  | OutOfFuel => True
  end.
Proof.
  unfold meetingStep. destruct (RemoteRecord.properties meeting); cbn; [|done].
  destruct (objGet m2c (RemoteRecord.id meeting)); cbn; [|done|done].
  apply fold_frame. intros; apply attendeeStep_frame.
Qed.

Lemma contactAssociations_frame w : view (contactAssociations w).2 = view w.
Proof.
  unfold contactAssociations.
  destruct (contactAssocApi (awaitIO w)) as [|[| |res] rest]; cbn [snd];
    by rewrite ?awaitIO_frame, ?view_contactAssocApi, ?awaitIO_frame.
Qed.

Lemma contactEmails_frame m w : view (contactEmails m w).2 = view w.
Proof.
  unfold contactEmails. case_match; [|done].
  destruct (contactBatchApi (awaitIO w)) as [|[|[res|]] rest]; cbn [snd];
    by rewrite ?view_contactBatchApi, ?awaitIO_frame.
Qed.

Lemma meetingAssociations_frame data w :
  match meetingAssociations data w with
  | Ok _ w1 | Throw _ w1 => view w1 = view w
  | OutOfFuel => True
  end.
Proof.
  unfold meetingAssociations.
  destruct (0 <? Z.of_nat (length (map RemoteRecord.id data))); [|done].
  destruct (meetingAssocApi (awaitIO w)) as [|[| |res] rest];
    by rewrite ?awaitIO_frame, ?view_meetingAssocApi, ?awaitIO_frame.
Qed.

Lemma forEachM_frame {A} (f : A -> M unit) l w :
  (forall x w0, match f x w0 with
                | Ok _ w1 | Throw _ w1 => view w1 = view w0
                | OutOfFuel => True
                end) ->
  match forEachM f l w with
  | Ok _ w1 | Throw _ w1 => view w1 = view w
  | OutOfFuel => True
  end.
Proof.
  intros Hf. revert w. induction l as [|x l IH]; intros w; cbn; [done|].
  unfold bind. specialize (Hf x w). destruct (f x w) as [[] w1|e w1|]; [|done|done].
  specialize (IH w1). destruct (forEachM f l w1); by rewrite <- ?Hf.
Qed.

Lemma processPage_frame k lp data w :
  match processPage k lp data w with
  | Ok _ w1 | Throw _ w1 => view w1 = view w
  | OutOfFuel => True
  end.
Proof.
  destruct k; cbn.
  - unfold companiesPage, modify. apply fold_frame, companyStep_frame.
  - unfold contactsPage.
    pose proof (contactAssociations_frame w) as Hd.
    destruct (contactAssociations w) as [res w1]. cbn in Hd.
    destruct (companyAssociationEntries res); [done|].
    rewrite <- Hd. apply fold_frame. intros; apply contactStep_frame.
  - unfold meetingsPage, bind.
    pose proof (meetingAssociations_frame data w) as Ha.
    destruct (meetingAssociations data w) as [l w0|e w0|]; [|done|done].
    destruct (meetingToContacts l) as [e|m2c]; [done|].
    pose proof (contactEmails_frame m2c w0) as He.
    destruct (contactEmails m2c w0) as [c2e w1]. cbn in He.
    rewrite <- Ha, <- He. apply forEachM_frame. intros x w2. apply meetingStep_frame.
Qed.

End Frame.

(** ** What a pass leaves alone: the account document *)

Section Documents.

Implicit Types (w : World) (k : EntityKind) (hub : string).

Lemma awaitIO_domain w : domain (awaitIO w) = domain w.
Proof. by apply awaitIO_frame. Qed.

Lemma sleep_domain ms w : domain (sleep ms w) = domain w.
Proof. by apply sleep_frame. Qed.

Lemma processPage_domain k lp data w :
  match processPage k lp data w with
  | Ok _ w1 | Throw _ w1 => domain w1 = domain w
  | OutOfFuel => True
  end.
Proof. by apply processPage_frame. Qed.

Lemma domain_watermarks w w' : domain w' = domain w -> watermarks w' = watermarks w.
Proof. unfold watermarks. by intros ->. Qed.

Lemma updateAccount_watermarks hub f l :
  (forall a, hubId (f a) = hubId a /\ lastPulledDates (f a) = lastPulledDates a) ->
  map (fun a => (hubId a, lastPulledDates a)) (updateAccount hub f l)
  = map (fun a => (hubId a, lastPulledDates a)) l.
Proof.
  intros Hf. induction l as [|a l IH]; cbn; [done|].
  case_match; cbn.
  - by destruct (Hf a) as [-> ->].
  - by rewrite IH.
Qed.

Lemma refreshAccessToken_watermarks hub w :
  watermarks (refreshAccessToken hub w).2 = watermarks w.
Proof.
  unfold refreshAccessToken.
  destruct (findAccount hub (accounts (domain w))) as [account|]; [|done].
  destruct (tokenApi (awaitIO w)) as [|[body|] rest] eqn:E; cbn.
  - apply domain_watermarks, awaitIO_domain.
  - case_match; cbn.
    + unfold watermarks. cbn. rewrite updateAccount_watermarks by done.
      by rewrite awaitIO_domain.
    + apply domain_watermarks. cbn. apply awaitIO_domain.
  - apply domain_watermarks. cbn. apply awaitIO_domain.
Qed.

Lemma set_searchApi_domain k s w : domain (set_searchApi k s w) = domain w.
Proof. by destruct k. Qed.

Lemma doSearch_domain k so w : domain (doSearch k so w).2 = domain w.
Proof.
  unfold doSearch. destruct (searchApi k (awaitIO w)) as [|[|respond] rest]; cbn;
    rewrite ?set_searchApi_domain; apply awaitIO_domain.
Qed.

Lemma catchFetchError_watermarks hub tryCount w :
  watermarks (catchFetchError hub tryCount w) = watermarks w.
Proof.
  unfold catchFetchError. etrans; [apply domain_watermarks, sleep_domain|].
  case_match; [apply refreshAccessToken_watermarks | done].
Qed.

Lemma searchWithRetry_watermarks n k hub so tryCount w :
  watermarks (searchWithRetry n k hub so tryCount w).2 = watermarks w.
Proof.
  revert tryCount w. induction n as [|n IH]; intros tryCount w; cbn; [done|].
  case_match; [|done].
  pose proof (doSearch_domain k so w) as Hd.
  destruct (doSearch k so w) as [[sr|] w1]; cbn in *.
  - by apply domain_watermarks.
  - rewrite IH, catchFetchError_watermarks. by apply domain_watermarks.
Qed.

Lemma iteration_watermarks k hub lp now off w :
  match iteration k hub lp now off w with
  | Ok _ w1 | Throw _ w1 => watermarks w1 = watermarks w
  | OutOfFuel => True
  end.
Proof.
  unfold iteration.
  pose proof (searchWithRetry_watermarks 5 k hub (searchObject k off lp now) 0 w) as Hs.
  destruct (searchWithRetry 5 k hub (searchObject k off lp now) 0 w) as [[sr|] w1];
    cbn in Hs; [|done].
  pose proof (processPage_domain k lp (default [] (results sr)) w1) as Hp.
  destruct (processPage k lp (default [] (results sr)) w1) as [[] w2|e w2|]; [| |done].
  - destruct (advance k off _ _); rewrite <- Hs; by apply domain_watermarks.
  - rewrite <- Hs. by apply domain_watermarks.
Qed.

Lemma passLoop_watermarks fuel k hub lp now off w :
  match passLoop fuel k hub lp now off w with
  | Ok _ w1 | Throw _ w1 => watermarks w1 = watermarks w
  | OutOfFuel => True
  end.
Proof.
  revert off w. induction fuel as [|fuel IH]; intros off w; cbn; [done|].
  unfold bind. pose proof (iteration_watermarks k hub lp now off w) as Hi.
  destruct (iteration k hub lp now off w) as [[|off'] w1|e w1|]; [done| |done|done].
  specialize (IH off' w1). destruct (passLoop fuel k hub lp now off' w1); by rewrite <- ?Hi.
Qed.

Lemma findAccount_watermarks hub l l' :
  map (fun a => (hubId a, lastPulledDates a)) l
  = map (fun a => (hubId a, lastPulledDates a)) l' ->
  lastPulledDates <$> findAccount hub l = lastPulledDates <$> findAccount hub l'.
Proof.
  revert l'. induction l as [|a l IH]; intros [|a' l'] E; cbn in *; try done.
  injection E as E1 E2 E3. rewrite E1. case_match; cbn; [by rewrite E2|by apply IH].
Qed.

Lemma findAccount_update hub f l :
  (forall a, hubId (f a) = hubId a) ->
  findAccount hub (updateAccount hub f l) = f <$> findAccount hub l.
Proof.
  intros Hf. induction l as [|a l IH]; cbn; [done|].
  destruct (String.eqb (hubId a) hub) eqn:E; cbn.
  - by rewrite Hf, E.
  - by rewrite E.
Qed.

(** A pass that does not return [true] has not touched any watermark. *)
Lemma processEntity_false_watermarks fuel k hub w w' :
  processEntity fuel k hub w = Ok false w' -> watermarks w' = watermarks w.
Proof.
  unfold processEntity, tryCatch, passBody.
  destruct (findAccount hub (accounts (domain w))) as [account|]; [|by intros [= <-]].
  unfold bind. pose proof (passLoop_watermarks fuel k hub
    (getWatermark k (lastPulledDates account)) (Some (clock w)) emptyOffset w) as Hl.
  destruct (passLoop fuel k hub _ _ emptyOffset w) as [[] w1|e w1|]; cbn; [done| |done].
  by intros [= <-].
Qed.

End Documents.

(** ** What credentials and the queue leave alone: the remote scripts *)


Section Scripts.

Implicit Types (w : World) (k : EntityKind) (hub : string).

Lemma processQueue_remote w : remote (processQueue w) = remote w.
Proof. by apply processQueue_frame. Qed.

Lemma awaitIO_remote w : remote (awaitIO w) = remote w.
Proof. by apply awaitIO_frame. Qed.

Lemma sleep_remote ms w : remote (sleep ms w) = remote w.
Proof. by apply sleep_frame. Qed.

Lemma processPage_searchApi k' k lp data w :
  match processPage k lp data w with
  | Ok _ w1 | Throw _ w1 => searchApi k' w1 = searchApi k' w
  | OutOfFuel => True
  end.
Proof. apply (processPage_frame (searchApi k')); by destruct k'. Qed.

Lemma refreshAccessToken_remote hub w : remote (refreshAccessToken hub w).2 = remote w.
Proof.
  unfold refreshAccessToken.
  destruct (findAccount hub (accounts (domain w))) as [account|]; [|done].
  destruct (tokenApi (awaitIO w)) as [|[body|] rest] eqn:E; cbn.
  - apply awaitIO_remote.
  - case_match; cbn; apply awaitIO_remote.
  - apply awaitIO_remote.
Qed.

Lemma remote_searchApi k w w' : remote w' = remote w -> searchApi k w' = searchApi k w.
Proof. unfold remote. intros [= ? ? ? ? ? ?]. by destruct k. Qed.

Lemma searchApi_set k s w : searchApi k (set_searchApi k s w) = s.
Proof. by destruct k. Qed.

Lemma allFail_tail n o s : allFail (S n) (o :: s) -> o = SearchFails /\ allFail n s.
Proof. unfold allFail. cbn. intros H. by inversion H. Qed.

Lemma catchFetchError_remote hub tryCount w :
  remote (catchFetchError hub tryCount w) = remote w.
Proof.
  unfold catchFetchError. rewrite sleep_remote.
  case_match; [apply refreshAccessToken_remote | done].
Qed.

(** A call of [doSearch] answers with the head of the script and leaves its
    tail. *)
Lemma doSearch_script k so w :
  match searchApi k w with
  | SearchOk respond :: rest =>
      (doSearch k so w).1 = Some (respond so) /\ searchApi k (doSearch k so w).2 = rest
  | SearchFails :: rest =>
      (doSearch k so w).1 = None /\ searchApi k (doSearch k so w).2 = rest
  | [] => (doSearch k so w).1 = None /\ searchApi k (doSearch k so w).2 = []
  end.
Proof.
  assert (searchApi k (awaitIO w) = searchApi k w) as Es
    by apply remote_searchApi, awaitIO_remote.
  unfold doSearch. rewrite Es.
  destruct (searchApi k w) as [|[|respond] rest]; cbn; by rewrite ?searchApi_set.
Qed.

(** Five failing calls in a row exhaust the retry loop. *)
Lemma searchWithRetry_exhausted n k hub so tryCount w :
  allFail n (searchApi k w) ->
  (searchWithRetry n k hub so tryCount w).1 = None.
Proof.
  revert tryCount w. induction n as [|n IH]; intros tryCount w Hf; cbn; [done|].
  case_match; [|done].
  pose proof (doSearch_script k so w) as Hd.
  destruct (doSearch k so w) as [r w1]. cbn in Hd.
  destruct (searchApi k w) as [|o s] eqn:E.
  - destruct Hd as [-> Hs]. apply IH.
    erewrite remote_searchApi; [|apply catchFetchError_remote].
    rewrite Hs. unfold allFail. by rewrite take_nil.
  - apply allFail_tail in Hf as [-> Hf]. destruct Hd as [-> Hs]. apply IH.
    erewrite remote_searchApi; [|apply catchFetchError_remote]. by rewrite Hs.
Qed.

End Scripts.

(** ** Committing the watermark *)

(** The [try] block of a pass whose account exists. *)
Lemma passBody_found fuel k hub w account :
  findAccount hub (accounts (domain w)) = Some account ->
  passBody fuel k hub w
  = match passLoop fuel k hub (getWatermark k (lastPulledDates account))
            (Some (clock w)) emptyOffset w with
    | Ok _ w1 => Ok true (commitWatermark k hub (Some (clock w)) w1)
    | Throw e w1 => Throw e w1
    | OutOfFuel => OutOfFuel
    end.
Proof.
  intros E. unfold passBody. rewrite E. unfold bind, modify, ret, saveDomain.
  by destruct (passLoop fuel k hub _ _ emptyOffset w).
Qed.

Lemma commitWatermark_watermarks k hub t w :
  watermarks (commitWatermark k hub t w) = commitIn k hub t (watermarks w).
Proof.
  unfold watermarks, commitWatermark. cbn.
  induction (accounts (domain w)) as [|a l IH]; cbn; [done|].
  case_match; cbn; [done|]. by rewrite IH.
Qed.

(** C1. For each of the three kinds: when a pass returns [true], the
    watermark of that kind held by the account of the pass is the clock
    reading taken when the pass started, whatever the remote returned and
    however long the pass took; and that is the only watermark the pass has
    changed. *)
Theorem committed_watermark_is_start_now
    (fuel : nat) (k : EntityKind) (hub : string) (w w' : World) :
  processEntity fuel k hub w = Ok true w' ->
  (fun a => getWatermark k (lastPulledDates a)) <$> findAccount hub (accounts (domain w'))
  = Some (Some (clock w))
  /\ watermarks w' = commitIn k hub (Some (clock w)) (watermarks w).
Proof.
  unfold processEntity, tryCatch.
  destruct (findAccount hub (accounts (domain w))) as [account|] eqn:Ea;
    [|by unfold passBody; rewrite Ea].
  rewrite (passBody_found _ _ _ _ _ Ea).
  pose proof (passLoop_watermarks fuel k hub
    (getWatermark k (lastPulledDates account)) (Some (clock w)) emptyOffset w) as Hl.
  destruct (passLoop fuel k hub _ _ emptyOffset w) as [[] w1|e w1|]; cbn; [|done|done].
  intros [= <-]. split.
  - unfold commitWatermark. cbn.
    rewrite findAccount_update by done.
    pose proof (findAccount_watermarks hub _ _ Hl) as Hf. rewrite Ea in Hf. cbn in Hf.
    destruct (findAccount hub (accounts (domain w1))) as [a1|]; [|done]. cbn.
    by destruct k.
  - by rewrite commitWatermark_watermarks, Hl.
Qed.

(** ** A fetch that fails on every attempt *)








Lemma committed_watermark_is_start_now_witness :
  processCompanies 5 "hub1" companiesRun = Ok true companiesRunEnd
  /\ clock companiesRun = 50000
  /\ clock companiesRunEnd = 60021
  /\ (fun a => getWatermark Companies (lastPulledDates a))
       <$> findAccount "hub1" (accounts (domain companiesRunEnd))
     = Some (Some 50000)
  /\ watermarks companiesRunEnd
     = commitIn Companies "hub1" (Some 50000) (watermarks companiesRun).
Proof.
  split; [by vm_compute|]. split; [done|]. split; [by vm_compute|].
  apply (committed_watermark_is_start_now 5 Companies "hub1" companiesRun companiesRunEnd).
  by vm_compute.
Defined.


(** ** Records without a properties object *)

Section MissingProperties.

Implicit Types (w : World) (lp : Time).

Lemma objGet_plain {V} (o : gmap string V) key name :
  inherited key = false -> objGet o key <> Member name.
Proof. unfold objGet. intros ->. by destruct (o !! key). Qed.

(** Associations whose [from] ids are no names of [Object.prototype] build
    the map without an exception. *)
Lemma meetingToContacts_plain l :
  Forall (fun a => forall mid, assocFrom a = Some mid -> inherited mid = false) l ->
  exists m2c, meetingToContacts l = inr m2c.
Proof.
  unfold meetingToContacts. generalize (∅ : gmap string (list string)).
  induction l as [|a l IH]; intros m Hl; cbn; [by eexists|].
  inversion Hl as [|? ? Ha Hl']; subst.
  destruct (assocFrom a) as [mid|] eqn:Ef; [|by apply IH].
  destruct (assocTo a) as [cids|]; [|by apply IH].
  pose proof (objGet_plain m mid) as Hp. specialize (Ha mid eq_refl).
  destruct (objGet m mid) as [ids|name|]; [by apply IH| |by apply IH].
  by destruct (Hp name Ha).
Qed.





End MissingProperties.




(** ** Cursor resets *)

Section Cursor.

Implicit Types (w : World) (k : EntityKind) (hub : string) (lp now : Time).

(** What the retry loop returns comes from the script, and what it leaves
    of the script is a part of it. *)
Lemma searchWithRetry_script (P : SearchOutcome -> Prop) n k hub so tryCount w :
  Forall P (searchApi k w) ->
  Forall P (searchApi k (searchWithRetry n k hub so tryCount w).2)
  /\ (forall sr, (searchWithRetry n k hub so tryCount w).1 = Some sr ->
                 exists respond, P (SearchOk respond) /\ sr = respond so).
Proof.
  revert tryCount w. induction n as [|n IH]; intros tryCount w HP; cbn; [done|].
  case_match; [|done].
  pose proof (doSearch_script k so w) as Hd.
  destruct (doSearch k so w) as [r w1]. cbn in Hd.
  assert (forall t, searchApi k (catchFetchError hub t w1) = searchApi k w1) as Hrest
    by (intros; apply remote_searchApi, catchFetchError_remote).
  destruct (searchApi k w) as [|[|respond] s] eqn:E; destruct Hd as [-> Hs].
  - apply IH. by rewrite Hrest, Hs.
  - apply IH. rewrite Hrest, Hs. by inversion HP.
  - cbn. rewrite Hs. inversion HP; subst. split; [done|].
    intros sr [= <-]. by exists respond.
Qed.

Lemma advance_below k off data a :
  (match a with Some n => n < 9900 | None => True end) ->
  match advance k off data a with
  | inr (Again off') =>
      afterReset off' = false /\ offLastModifiedDate off' = offLastModifiedDate off
  | inr Done => True
  | inl _ => False
  end.
Proof.
  intros Ha. unfold advance. destruct (truthyNum a) eqn:Et; cbn; [|done].
  destruct a as [n|]; [|done]. cbn in *.
  destruct (9900 <=? n) eqn:El; [apply Z.leb_le in El; lia|].
  split; [|done]. unfold afterReset. cbn.
  destruct n; try done.
Qed.

Lemma iteration_below k hub lp now off w :
  Forall (cursorBelow 9900) (searchApi k w) ->
  match iteration k hub lp now off w with
  | Ok (Again off') w' =>
      afterReset off' = false
      /\ offLastModifiedDate off' = offLastModifiedDate off
      /\ Forall (cursorBelow 9900) (searchApi k w')
  | _ => True
  end.
Proof.
  intros Hb. unfold iteration.
  destruct (searchWithRetry_script _ 5 k hub (searchObject k off lp now) 0 w Hb) as [H1 H2].
  destruct (searchWithRetry 5 k hub (searchObject k off lp now) 0 w) as [[sr|] w1];
    [|done].
  cbn in H1, H2. destruct (H2 sr eq_refl) as (respond & Hr & ->).
  pose proof (processPage_searchApi k k lp
                (default [] (results (respond (searchObject k off lp now)))) w1) as Hp.
  destruct (processPage k lp _ w1) as [[] w2|e w2|]; [|done|done].
  pose proof (advance_below k off
                (default [] (results (respond (searchObject k off lp now))))
                (parseInt (nextAfter (respond (searchObject k off lp now))))
                (Hr _)) as Ha.
  destruct (advance k off _ _) as [e|[|off']]; [done|done|].
  destruct Ha as [? ?]. by rewrite Hp.
Qed.

Lemma offsets_below fuel k hub lp now off w :
  Forall (cursorBelow 9900) (searchApi k w) ->
  afterReset off = false ->
  Forall (fun o => afterReset o = false
                   /\ offLastModifiedDate o = offLastModifiedDate off)
    (offsets fuel k hub lp now off w).
Proof.
  revert off w. induction fuel as [|fuel IH]; intros off w Hb Hoff; cbn; [done|].
  constructor; [done|].
  pose proof (iteration_below k hub lp now off w Hb) as Hi.
  destruct (iteration k hub lp now off w) as [[|off'] w'|e w'|]; try done.
  destruct Hi as (Hr & Hm & Hb'). rewrite <- Hm. by apply IH.
Qed.

Lemma resets_none tr : Forall (fun o => afterReset o = false) tr -> resets tr = 0%nat.
Proof.
  unfold resets. induction 1 as [|o tr Ho _ IH]; cbn; [done|]. by rewrite Ho.
Qed.

(** The state a cursor reset leaves. *)
Lemma iteration_reset k hub lp now off w off' w' :
  iteration k hub lp now off w = Ok (Again off') w' ->
  afterReset off' = true ->
  exists sr w1 n t,
    searchWithRetry 5 k hub (searchObject k off lp now) 0 w = (Some sr, w1)
    /\ parseInt (nextAfter sr) = Some n /\ 9900 <= n
    /\ lastModifiedOf k (default [] (results sr)) = inr t
    /\ off' = {| offAfter := Some 0; offLastModifiedDate := t |}.
Proof.
  unfold iteration.
  destruct (searchWithRetry 5 k hub (searchObject k off lp now) 0 w) as [[sr|] w1];
    [|done].
  destruct (processPage k lp _ w1) as [[] w2|e w2|]; [|done|done].
  unfold advance. destruct (parseInt (nextAfter sr)) as [n|] eqn:En; cbn; [|done].
  destruct (n =? 0) eqn:E0; cbn; [done|].
  destruct (9900 <=? n) eqn:El.
  - destruct (lastModifiedOf k (default [] (results sr))) as [e|t] eqn:Et; [done|].
    intros [= <- <-] _. exists sr, w1, n, t. apply Z.leb_le in El. by repeat split.
  - intros [= <- <-]. unfold afterReset. cbn. apply Z.eqb_neq in E0.
    destruct n; done.
Qed.

Lemma windowStart_reset lp t :
  let off' := {| offAfter := Some 0; offLastModifiedDate := t |} in
  windowStart off' lp = match t with
                        | Some tz => if tz =? 0 then lp else Some tz
                        | None => lp
                        end.
Proof.
  unfold windowStart, windowArg. cbn. destruct t as [tz|]; [|done].
  by destruct (tz =? 0).
Qed.

(** What the end of the loop body does with the page it has transformed, by
    the next cursor of the response. *)
Lemma iteration_cursor k hub lp now off w sr w1 w2 :
  searchWithRetry 5 k hub (searchObject k off lp now) 0 w = (Some sr, w1) ->
  processPage k lp (default [] (results sr)) w1 = Ok tt w2 ->
  iteration k hub lp now off w
  = match advance k off (default [] (results sr)) (parseInt (nextAfter sr)) with
    | inl e => Throw e w2
    | inr step => Ok step w2
    end.
Proof. intros Hs Hp. unfold iteration. by rewrite Hs, Hp. Qed.

End Cursor.

(** C4, as amended. In a pass whose every response keeps its next cursor
    below 9900 (as it does when the cursor counts the records returned so
    far and fewer than 9900 are returned) the cursor is never reset, and
    every request of the pass uses the watermark read at the start as its
    window start. After a page that has been fetched and transformed: a next
    cursor that is missing, not a number or 0 ends the pass; a next cursor
    below 9900 is kept, with the window start as it was; a next cursor of
    9900 or more resets the cursor to 0 and stores the modified instant of
    the last record of the page, and a loop body that starts with a cursor
    of 0 can only come from such a reset. After a reset the window start is
    that instant when it is a valid instant other than 0, and the watermark
    otherwise, whatever the window start was before: it has increased
    exactly when that instant is later than the previous window start. *)
Theorem cursor_reset_policy
    (fuel : nat) (k : EntityKind) (hub : string) (lp now : Time) (w : World) :
  (Forall (cursorBelow 9900) (searchApi k w) ->
   resets (offsets fuel k hub lp now emptyOffset w) = 0%nat
   /\ Forall (fun off => windowStart off lp = lp) (offsets fuel k hub lp now emptyOffset w))
  /\ (forall off w0 sr w1 w2,
        searchWithRetry 5 k hub (searchObject k off lp now) 0 w0 = (Some sr, w1) ->
        processPage k lp (default [] (results sr)) w1 = Ok tt w2 ->
        (truthyNum (parseInt (nextAfter sr)) = false ->
         iteration k hub lp now off w0 = Ok Done w2)
        /\ (forall n,
              parseInt (nextAfter sr) = Some n -> n <> 0 -> n < 9900 ->
              iteration k hub lp now off w0
              = Ok (Again {| offAfter := Some n;
                             offLastModifiedDate := offLastModifiedDate off |}) w2)
        /\ (forall n t,
              parseInt (nextAfter sr) = Some n -> 9900 <= n ->
              lastModifiedOf k (default [] (results sr)) = inr t ->
              iteration k hub lp now off w0
              = Ok (Again {| offAfter := Some 0; offLastModifiedDate := t |}) w2))
  /\ (forall off w0 off' w',
        iteration k hub lp now off w0 = Ok (Again off') w' ->
        afterReset off' = true ->
        exists sr w1 n t,
          searchWithRetry 5 k hub (searchObject k off lp now) 0 w0 = (Some sr, w1)
          /\ parseInt (nextAfter sr) = Some n /\ 9900 <= n
          /\ lastModifiedOf k (default [] (results sr)) = inr t
          /\ off' = {| offAfter := Some 0; offLastModifiedDate := t |})
  /\ (forall off t,
        let off' := {| offAfter := Some 0; offLastModifiedDate := t |} in
        windowStart off' lp = match t with
                              | Some tz => if tz =? 0 then lp else Some tz
                              | None => lp
                              end
        /\ (forall ws tz,
              windowStart off lp = Some ws -> t = Some tz -> tz <> 0 ->
              windowStart off' lp = Some tz
              /\ (gtTime (windowStart off' lp) (windowStart off lp) = true <-> ws < tz))).
Proof.
  split; [|split; [|split]].
  - intros Hb.
    pose proof (offsets_below fuel k hub lp now emptyOffset w Hb eq_refl) as Ho. split.
    + apply resets_none. eapply Forall_impl; [exact Ho|]. by intros o [? _].
    + eapply Forall_impl; [exact Ho|]. intros o [_ Hm]. cbn in Hm.
      unfold windowStart, windowArg. by rewrite Hm.
  - intros off w0 sr w1 w2 Hs Hp.
    rewrite (iteration_cursor k hub lp now off w0 sr w1 w2 Hs Hp). unfold advance.
    split; [by intros ->|]. split.
    + intros n -> Hn Hlt. cbn. apply Z.eqb_neq in Hn. rewrite Hn. cbn.
      by destruct (9900 <=? n) eqn:El; [apply Z.leb_le in El; lia|].
    + intros n t -> Hle ->. cbn.
      assert ((n =? 0) = false) as -> by (apply Z.eqb_neq; lia).
      assert ((9900 <=? n) = true) as -> by (apply Z.leb_le; lia).
      done.
  - intros off w0 off' w' Hi Hr.
    apply (iteration_reset k hub lp now off w0 off' w' Hi Hr).
  - intros off t off'. pose proof (windowStart_reset lp t) as Hw. cbn zeta in Hw.
    split; [exact Hw|].
    intros ws tz Hws -> Hz. unfold off'. rewrite Hw.
    apply Z.eqb_neq in Hz. rewrite Hz. split; [done|].
    rewrite Hws. cbn. apply Z.ltb_lt.
Qed.

(** The 150 companies of [twoPagesRun] stay below the limit; the page of
    [resetRun] comes with the next cursor 9900 and is followed by a reset. *)
Lemma cursor_reset_policy_witness :
  resets (offsets 5 Companies "hub1" (Some 1000) (Some 50000) emptyOffset twoPagesRun)
  = 0%nat
  /\ Forall (fun off => windowStart off (Some 1000) = Some 1000)
       (offsets 5 Companies "hub1" (Some 1000) (Some 50000) emptyOffset twoPagesRun)
  /\ (exists w2,
        iteration Companies "hub1" (Some 1000) (Some 50000) emptyOffset resetRun
        = Ok (Again {| offAfter := Some 0; offLastModifiedDate := Some 1000 |}) w2)
  /\ (exists w2,
        iteration Companies "hub1" (Some 1000) (Some 50000) emptyOffset twoPagesRun
        = Ok (Again {| offAfter := Some 100; offLastModifiedDate := None |}) w2).
Proof.
  destruct (cursor_reset_policy 5 Companies "hub1" (Some 1000) (Some 50000) twoPagesRun)
    as (Hbelow & Hstep & _ & _).
  destruct Hbelow as [H1 H2]; [repeat constructor; intros so; by vm_compute|].
  split; [exact H1|]. split; [exact H2|]. split.
  - eexists.
    refine (proj2 (proj2 (Hstep emptyOffset resetRun _ _ _ _ _)) 9900 (Some 1000) _ _ _);
      [vm_compute; reflexivity|vm_compute; reflexivity|vm_compute; reflexivity|lia
      |vm_compute; reflexivity].
  - eexists.
    refine (proj1 (proj2 (Hstep emptyOffset twoPagesRun _ _ _ _ _)) 100 _ _ _);
      [vm_compute; reflexivity|vm_compute; reflexivity|vm_compute; reflexivity|lia|lia].
Defined.

(** C4 as it was stated fails. The pass over 150 companies on two pages,
    far below the depth limit, ends with [true] and resets the cursor zero
    times, not once. The reset after the page of [resetRun] leaves the window
    start where it was, at 1000: the last company of the page was modified at
    that very instant. And in [backRun] the second reset moves the window
    start back, from 5000 to 1000. *)
Lemma no_reset_below_limit_and_reset_without_progress :
  (exists w', processCompanies 5 "hub1" twoPagesRun = Ok true w'
              /\ length (accepted w') = 150%nat)
  /\ resets (offsets 5 Companies "hub1" (Some 1000) (Some 50000) emptyOffset twoPagesRun)
     = 0%nat
  /\ offsets 2 Companies "hub1" (Some 1000) (Some 50000) emptyOffset resetRun
     = [emptyOffset; {| offAfter := Some 0; offLastModifiedDate := Some 1000 |}]
  /\ resets (offsets 2 Companies "hub1" (Some 1000) (Some 50000) emptyOffset resetRun)
     = 1%nat
  /\ map (fun off => windowStart off (Some 1000))
       (offsets 2 Companies "hub1" (Some 1000) (Some 50000) emptyOffset resetRun)
     = [Some 1000; Some 1000]
  /\ map (fun off => windowStart off (Some 1000))
       (offsets 3 Companies "hub1" (Some 1000) (Some 50000) emptyOffset backRun)
     = [Some 1000; Some 5000; Some 1000].
Proof.
  split; [|by vm_compute].
  eexists. split; [vm_compute; reflexivity|]. by vm_compute.
Qed.

(** ** Retries *)

(** The components of an equation between two [pview]s. *)
Ltac fields H :=
  let H' := fresh in
  pose proof H as H'; unfold pview in H'; injection H' as ? ? ? ? ? ? ?.

Section Retries.

Implicit Types (w u : World) (k : EntityKind) (hub : string) (lp now : Time).

Lemma worker_same a w1 w2 : pview w1 = pview w2 -> pview (worker a w1) = pview (worker a w2).
Proof.
  intros H. fields H. unfold pview, worker, flushIfOver, pushAction, watermarks in *. cbn.
  repeat case_match; cbn; congruence.
Qed.

Lemma fold_same {A} (f : A -> World -> World) l w1 w2 :
  (forall x u1 u2, pview u1 = pview u2 -> pview (f x u1) = pview (f x u2)) ->
  pview w1 = pview w2 ->
  pview (fold_left (fun w' x => f x w') l w1) = pview (fold_left (fun w' x => f x w') l w2).
Proof.
  intros Hf. revert w1 w2. induction l as [|x l IH]; intros w1 w2 H; cbn; [done|].
  by apply IH, Hf.
Qed.

Lemma processQueue_same w1 w2 :
  pview w1 = pview w2 -> pview (processQueue w1) = pview (processQueue w2).
Proof.
  intros H. unfold processQueue.
  assert (waiting w1 = waiting w2) as -> by (by fields H).
  apply fold_same; [apply worker_same|].
  fields H. unfold pview, watermarks in *. cbn. congruence.
Qed.

Lemma awaitIO_same w1 w2 : pview w1 = pview w2 -> pview (awaitIO w1) = pview (awaitIO w2).
Proof.
  intros H. unfold awaitIO. apply processQueue_same.
  fields H. unfold pview, watermarks in *. cbn. congruence.
Qed.

Lemma qPush_same a w1 w2 : pview w1 = pview w2 -> pview (qPush a w1) = pview (qPush a w2).
Proof. intros H. fields H. unfold pview, qPush, watermarks in *. cbn. congruence. Qed.

(** Once the queue has run, running it again, sleeping or refreshing the
    token changes nothing the output depends on. *)
Lemma processQueue_settled w : waiting w = [] -> pview (processQueue w) = pview w.
Proof. intros E. by rewrite processQueue_idle. Qed.

Lemma awaitIO_settled w :
  waiting w = [] -> pview (awaitIO w) = pview w /\ waiting (awaitIO w) = [].
Proof.
  intros E. unfold awaitIO. split; [|apply processQueue_waiting].
  by rewrite processQueue_settled.
Qed.

Lemma sleep_settled ms w :
  waiting w = [] -> pview (sleep ms w) = pview w /\ waiting (sleep ms w) = [].
Proof.
  intros E. unfold sleep. split; [|apply processQueue_waiting].
  by rewrite processQueue_settled.
Qed.

Lemma refreshAccessToken_settled hub w :
  waiting w = [] ->
  pview (refreshAccessToken hub w).2 = pview w /\ waiting (refreshAccessToken hub w).2 = [].
Proof.
  intros E. pose proof (refreshAccessToken_watermarks hub w) as Hw.
  destruct (awaitIO_settled w E) as [Hv Ha].
  unfold refreshAccessToken in *.
  destruct (findAccount hub (accounts (domain w))) as [account|]; [|done].
  destruct (tokenApi (awaitIO w)) as [|[body|] rest] eqn:Et; cbn -[watermarks] in *;
    [done| |done].
  fields Hv. unfold pview.
  destruct (negb _); cbn -[watermarks] in *; (split; [congruence|done]).
Qed.

Lemma catchFetchError_settled hub tryCount w :
  waiting w = [] ->
  pview (catchFetchError hub tryCount w) = pview w
  /\ waiting (catchFetchError hub tryCount w) = [].
Proof.
  intros E. unfold catchFetchError.
  destruct (refreshAccessToken_settled hub w E) as [Hv Hw].
  case_match.
  - destruct (sleep_settled (5000 * 2 ^ tryCount) _ Hw) as [-> ->]. by rewrite Hv.
  - by apply sleep_settled.
Qed.

Lemma pview_set_searchApi k s w : pview (set_searchApi k s w) = pview w.
Proof. by destruct k. Qed.

Lemma waiting_set_searchApi k s w : waiting (set_searchApi k s w) = waiting w.
Proof. by destruct k. Qed.

Lemma searchApi_set_ne k k' s w : k' <> k -> searchApi k' (set_searchApi k s w) = searchApi k' w.
Proof. by destruct k, k'. Qed.

(** What one call of [doSearch] does to the world. *)
Lemma doSearch_world k so w :
  let w1 := (doSearch k so w).2 in
  pview w1 = pview (awaitIO w) /\ waiting w1 = []
  /\ (forall k', k' <> k -> searchApi k' w1 = searchApi k' w).
Proof.
  assert (forall k', searchApi k' (awaitIO w) = searchApi k' w) as Es
    by (intros; apply remote_searchApi, awaitIO_remote).
  unfold doSearch.
  destruct (searchApi k (awaitIO w)) as [|[|respond] rest]; cbn;
    rewrite ?pview_set_searchApi, ?waiting_set_searchApi;
    (split; [done|]); (split; [apply processQueue_waiting|]);
    intros k' Hk; by rewrite ?searchApi_set_ne, Es.
Qed.


(** A call that fails [j] times, with attempts to spare, and then succeeds
    returns the successful response and changes nothing the output depends
    on beyond one run of the queue. *)
Lemma retry_fails k hub so respond s' j :
  forall attempts tryCount u,
    searchApi k u = replicate j SearchFails ++ SearchOk respond :: s' ->
    0 <= tryCount -> tryCount + Z.of_nat j <= 4 -> Z.of_nat attempts + tryCount = 5 ->
    let res := searchWithRetry attempts k hub so tryCount u in
    res.1 = Some (respond so)
    /\ pview res.2 = pview (awaitIO u)
    /\ searchApi k res.2 = s'
    /\ (forall k', k' <> k -> searchApi k' res.2 = searchApi k' u).
Proof.
  induction j as [|j IH]; intros attempts tryCount u Hs H0 Hj Ha;
    (destruct attempts as [|attempts]; [lia|]); cbn [searchWithRetry];
    (rewrite (proj2 (Z.leb_le tryCount 4)) by lia);
    pose proof (doSearch_script k so u) as Hd; pose proof (doSearch_world k so u) as Hw;
    rewrite Hs in Hd; cbn in Hd, Hw;
    destruct (doSearch k so u) as [r u1]; cbn in Hd, Hw;
    destruct Hd as [-> Hs1]; destruct Hw as (Hv & Hq & Ho).
  - done.
  - destruct (catchFetchError_settled hub (tryCount + 1) u1 Hq) as [Hcv Hcq].
    destruct (IH attempts (tryCount + 1) (catchFetchError hub (tryCount + 1) u1))
      as (R1 & R2 & R3 & R4); [|lia|lia|lia|].
    { erewrite remote_searchApi; [|apply catchFetchError_remote]. done. }
    split; [done|]. split; [|split; [done|]].
    + rewrite R2. destruct (awaitIO_settled _ Hcq) as [-> _]. by rewrite Hcv.
    + intros k' Hk. rewrite R4 by done.
      erewrite remote_searchApi; [|apply catchFetchError_remote]. by apply Ho.
Qed.

(** On equal scripts, two worlds that differ in clock and credentials only
    go through the same attempts. *)
Lemma retry_same k hub so n :
  forall tryCount w1 w2,
    pview w1 = pview w2 ->
    (forall k', searchApi k' w1 = searchApi k' w2) ->
    let r1 := searchWithRetry n k hub so tryCount w1 in
    let r2 := searchWithRetry n k hub so tryCount w2 in
    r1.1 = r2.1 /\ pview r1.2 = pview r2.2
    /\ (forall k', searchApi k' r1.2 = searchApi k' r2.2).
Proof.
  induction n as [|n IH]; intros tryCount w1 w2 Hv Hs; cbn [searchWithRetry]; [done|].
  case_match; [|done].
  pose proof (doSearch_script k so w1) as Hd1. pose proof (doSearch_world k so w1) as Hw1.
  pose proof (doSearch_script k so w2) as Hd2. pose proof (doSearch_world k so w2) as Hw2.
  rewrite <- (Hs k) in Hd2. cbn in Hw1, Hw2.
  destruct (doSearch k so w1) as [r1 u1], (doSearch k so w2) as [r2 u2]. cbn in *.
  destruct Hw1 as (Hv1 & Hq1 & Ho1), Hw2 as (Hv2 & Hq2 & Ho2).
  assert (pview u1 = pview u2) as Hu by (rewrite Hv1, Hv2; by apply awaitIO_same).
  assert (r1 = r2 /\ searchApi k u1 = searchApi k u2) as [<- Hk].
  { destruct (searchApi k w1) as [|[|respond] rest];
      destruct Hd1 as [-> ->], Hd2 as [-> ->]; done. }
  assert (forall k', searchApi k' u1 = searchApi k' u2) as Hall.
  { intros k'. destruct (decide (k' = k)) as [->|Hne]; [done|].
    by rewrite Ho1, Ho2. }
  destruct r1 as [sr|]; [done|].
  destruct (catchFetchError_settled hub (tryCount + 1) u1 Hq1) as [Hc1 _].
  destruct (catchFetchError_settled hub (tryCount + 1) u2 Hq2) as [Hc2 _].
  apply IH; [by rewrite Hc1, Hc2|].
  intros k'.
  rewrite (remote_searchApi k' _ _ (catchFetchError_remote hub (tryCount + 1) u1)).
  rewrite (remote_searchApi k' _ _ (catchFetchError_remote hub (tryCount + 1) u2)).
  apply Hall.
Qed.

(** The fetch of a page, with and without the scripted retries. *)
Lemma fetch_sim k hub so w1 w2 :
  Sim k w1 w2 ->
  let r1 := searchWithRetry 5 k hub so 0 w1 in
  let r2 := searchWithRetry 5 k hub so 0 w2 in
  r1.1 = r2.1 /\ Sim k r1.2 r2.2.
Proof.
  intros [Hv HR Ho]. cbn zeta.
  remember (searchApi k w1) as s1 eqn:E1. remember (searchApi k w2) as s2 eqn:E2.
  destruct HR as [s|respond n s s' Hn HR].
  - destruct (retry_same k hub so 5 0 w1 w2 Hv) as (R1 & R2 & R3).
    { intros k'. destruct (decide (k' = k)) as [->|Hne]; [congruence|by apply Ho]. }
    split; [done|]. split; [done| |done]. rewrite R3. constructor.
  - destruct (retry_fails k hub so respond s 0 5 0 w1) as (A1 & A2 & A3 & A4);
      [done|lia|lia|lia|].
    destruct (retry_fails k hub so respond s' n 5 0 w2) as (B1 & B2 & B3 & B4);
      [done|lia|lia|lia|].
    split; [by rewrite A1, B1|]. split.
    + rewrite A2, B2. by apply awaitIO_same.
    + by rewrite A3, B3.
    + intros k' Hk. rewrite A4, B4 by done. by apply Ho.
Qed.

Lemma set_contactAssocApi_same v w1 w2 :
  pview w1 = pview w2 -> pview (set_contactAssocApi v w1) = pview (set_contactAssocApi v w2).
Proof. intros H. fields H. unfold pview, watermarks in *. cbn. congruence. Qed.

Lemma set_meetingAssocApi_same v w1 w2 :
  pview w1 = pview w2 -> pview (set_meetingAssocApi v w1) = pview (set_meetingAssocApi v w2).
Proof. intros H. fields H. unfold pview, watermarks in *. cbn. congruence. Qed.

Lemma set_contactBatchApi_same v w1 w2 :
  pview w1 = pview w2 -> pview (set_contactBatchApi v w1) = pview (set_contactBatchApi v w2).
Proof. intros H. fields H. unfold pview, watermarks in *. cbn. congruence. Qed.

Lemma contactAssociations_same w1 w2 :
  pview w1 = pview w2 ->
  (contactAssociations w1).1 = (contactAssociations w2).1
  /\ pview (contactAssociations w1).2 = pview (contactAssociations w2).2.
Proof.
  intros H. apply awaitIO_same in H. unfold contactAssociations.
  assert (contactAssocApi (awaitIO w1) = contactAssocApi (awaitIO w2)) as E by (by fields H).
  rewrite E. destruct (contactAssocApi (awaitIO w2)) as [|[| |res] rest]; cbn;
    (split; [done|]); auto using awaitIO_same, set_contactAssocApi_same.
Qed.

Lemma contactEmails_same m w1 w2 :
  pview w1 = pview w2 ->
  (contactEmails m w1).1 = (contactEmails m w2).1
  /\ pview (contactEmails m w1).2 = pview (contactEmails m w2).2.
Proof.
  intros H. unfold contactEmails. case_match; [|done].
  apply awaitIO_same in H.
  assert (contactBatchApi (awaitIO w1) = contactBatchApi (awaitIO w2)) as E by (by fields H).
  rewrite E. destruct (contactBatchApi (awaitIO w2)) as [|[|[res|]] rest]; cbn;
    (split; [done|]); auto using set_contactBatchApi_same.
Qed.

Lemma meetingAssociations_same data w1 w2 :
  pview w1 = pview w2 ->
  sameRes (meetingAssociations data w1) (meetingAssociations data w2).
Proof.
  intros H. unfold meetingAssociations. case_match; [|done].
  apply awaitIO_same in H.
  assert (meetingAssocApi (awaitIO w1) = meetingAssocApi (awaitIO w2)) as E by (by fields H).
  rewrite E. destruct (meetingAssocApi (awaitIO w2)) as [|[| |res] rest]; cbn;
    (split; [done|]); auto using awaitIO_same, set_meetingAssocApi_same.
Qed.

Lemma forEachM_same {A} (f : A -> M unit) l w1 w2 :
  (forall x u1 u2, pview u1 = pview u2 -> sameRes (f x u1) (f x u2)) ->
  pview w1 = pview w2 ->
  sameRes (forEachM f l w1) (forEachM f l w2).
Proof.
  intros Hf. revert w1 w2. induction l as [|x l IH]; intros w1 w2 H; cbn; [done|].
  unfold bind. specialize (Hf x w1 w2 H).
  destruct (f x w1) as [[] u1|e1 u1|], (f x w2) as [[] u2|e2 u2|]; try done.
  apply IH. by destruct Hf.
Qed.

Lemma processPage_same k lp data w1 w2 :
  pview w1 = pview w2 -> sameRes (processPage k lp data w1) (processPage k lp data w2).
Proof.
  intros H. destruct k; cbn.
  - split; [done|]. apply fold_same; [|done].
    intros c u1 u2 Hu. unfold companyStep. case_match; [by apply qPush_same|done].
  - unfold contactsPage.
    destruct (contactAssociations_same w1 w2 H) as [Er Hv].
    destruct (contactAssociations w1) as [res1 u1], (contactAssociations w2) as [res2 u2].
    cbn in Er, Hv. subst res2.
    destruct (companyAssociationEntries res1); [done|].
    split; [done|]. apply fold_same; [|done].
    intros c v1 v2 Hu. unfold contactStep. repeat case_match; try done.
    by apply qPush_same.
  - unfold meetingsPage, bind.
    pose proof (meetingAssociations_same data w1 w2 H) as Ha.
    destruct (meetingAssociations data w1) as [l1 u1|e1 u1|],
             (meetingAssociations data w2) as [l2 u2|e2 u2|]; try done.
    destruct Ha as [<- Hu].
    destruct (meetingToContacts l1) as [e|m2c]; [done|].
    destruct (contactEmails_same m2c u1 u2 Hu) as [Er Hv].
    destruct (contactEmails m2c u1) as [c1 v1], (contactEmails m2c u2) as [c2 v2].
    cbn in Er, Hv. subst c2.
    apply forEachM_same; [|done].
    intros x a b Hab. unfold meetingStep.
    destruct (RemoteRecord.properties x); cbn; [|done].
    destruct (objGet m2c (RemoteRecord.id x)); cbn; [|done|done].
    split; [done|]. apply fold_same; [|done].
    intros cid a' b' Hab'. unfold attendeeStep.
    repeat case_match; try done; by apply qPush_same.
Qed.

Lemma iteration_sim k hub lp now off w1 w2 :
  Sim k w1 w2 ->
  simRes k (iteration k hub lp now off w1) (iteration k hub lp now off w2).
Proof.
  intros HS. unfold iteration.
  destruct (fetch_sim k hub (searchObject k off lp now) w1 w2 HS) as [Er HS1].
  destruct (searchWithRetry 5 k hub _ 0 w1) as [r1 u1],
           (searchWithRetry 5 k hub _ 0 w2) as [r2 u2].
  cbn in Er, HS1. subst r2. destruct r1 as [sr|]; [|done].
  destruct HS1 as [Hv HR Ho].
  pose proof (processPage_same k lp (default [] (results sr)) u1 u2 Hv) as Hp.
  pose proof (fun k' => processPage_searchApi k' k lp (default [] (results sr)) u1) as F1.
  pose proof (fun k' => processPage_searchApi k' k lp (default [] (results sr)) u2) as F2.
  destruct (processPage k lp _ u1) as [[] v1|e1 v1|],
           (processPage k lp _ u2) as [[] v2|e2 v2|]; try done;
    destruct Hp as [He Hv'];
    assert (Sim k v1 v2) as HS'
      by (split; [done|by rewrite F1, F2|intros k' Hk; rewrite F1, F2; by apply Ho]).
  - by destruct (advance k off _ _).
  - done.
Qed.

Lemma passLoop_sim fuel k hub lp now :
  forall off w1 w2,
    Sim k w1 w2 ->
    simRes k (passLoop fuel k hub lp now off w1) (passLoop fuel k hub lp now off w2).
Proof.
  induction fuel as [|fuel IH]; intros off w1 w2 HS; cbn; [done|].
  unfold bind. pose proof (iteration_sim k hub lp now off w1 w2 HS) as Hi.
  destruct (iteration k hub lp now off w1) as [s1 u1|e1 u1|],
           (iteration k hub lp now off w2) as [s2 u2|e2 u2|]; try done.
  destruct Hi as [<- HS']. destruct s1 as [|off']; [done|]. by apply IH.
Qed.

Lemma commitWatermark_sim k hub t w1 w2 :
  Sim k w1 w2 -> Sim k (commitWatermark k hub t w1) (commitWatermark k hub t w2).
Proof.
  intros [Hv HR Ho]. split; [|done|done].
  fields Hv. unfold pview. rewrite !commitWatermark_watermarks. cbn. congruence.
Qed.

End Retries.

(** C8. Put up to four failed calls in front of any of the successful
    search calls of a pass that would succeed at every first attempt: the
    pass returns the same value, hands the same batches to the sink, leaves
    the same actions in the queue, and commits the same watermarks. Up to
    three failures, as in the claim, is a case of it. *)
Theorem retries_are_transparent
    (fuel : nat) (k : EntityKind) (hub : string) (w : World) (s' : list SearchOutcome) :
  Retried (searchApi k w) s' ->
  match processEntity fuel k hub w, processEntity fuel k hub (set_searchApi k s' w) with
  | Ok b1 w1, Ok b2 w2 =>
      b1 = b2
      /\ delivered w1 = delivered w2 /\ actions w1 = actions w2 /\ waiting w1 = waiting w2
      /\ accepted w1 = accepted w2
      /\ watermarks w1 = watermarks w2
  | OutOfFuel, OutOfFuel => True
  | _, _ => False
  end.
Proof.
  intros HR.
  assert (Sim k w (set_searchApi k s' w)) as HS.
  { split.
    - by rewrite pview_set_searchApi.
    - by rewrite searchApi_set.
    - intros k' Hk. by rewrite searchApi_set_ne. }
  assert (clock (set_searchApi k s' w) = clock w) as Ec by (by destruct k).
  unfold processEntity, tryCatch.
  destruct (findAccount hub (accounts (domain w))) as [account|] eqn:Ea.
  - rewrite (passBody_found fuel k hub w account Ea).
    rewrite (passBody_found fuel k hub (set_searchApi k s' w) account)
      by (by rewrite set_searchApi_domain).
    rewrite Ec.
    pose proof (passLoop_sim fuel k hub (getWatermark k (lastPulledDates account))
                  (Some (clock w)) emptyOffset _ _ HS) as Hl.
    destruct (passLoop fuel k hub _ _ emptyOffset w) as [[] u1|e1 u1|],
             (passLoop fuel k hub _ _ emptyOffset (set_searchApi k s' w)) as [[] u2|e2 u2|];
      try done; destruct Hl as [_ HS'].
    + apply (commitWatermark_sim k hub (Some (clock w))) in HS'.
      destruct HS' as [Hv _ _]. unfold accepted. fields Hv.
      repeat split; first [congruence | cbn; congruence].
    + destruct HS' as [Hv _ _]. unfold ret, accepted. fields Hv.
      repeat split; first [congruence | cbn; congruence].
  - unfold passBody. rewrite set_searchApi_domain, Ea.
    destruct HS as [Hv _ _]. unfold ret, accepted. fields Hv.
      repeat split; first [congruence | cbn; congruence].
Qed.

(** ** Classification and action dates *)

Section Transform.

Implicit Types (w : World) (k : EntityKind) (lp : Time).

Lemma awaitIO_accepted w : accepted (awaitIO w) = accepted w.
Proof. unfold awaitIO. by rewrite processQueue_accepted. Qed.

Lemma gtTime_irrefl (t : Time) : gtTime t t = false.
Proof. destruct t as [t|]; cbn; [|done]. apply Z.ltb_irrefl. Qed.

Lemma minusMs_0 (t : Time) : minusMs t 0 = t.
Proof. destruct t; cbn; [|done]. f_equal. lia. Qed.

Lemma companyAction_for lp c p : actionFor Companies lp c p (companyAction lp c p).
Proof. unfold actionFor, companyAction. cbn. by case_match. Qed.

Lemma contactAction_for lp m c p : actionFor Contacts lp c p (contactAction lp m c p).
Proof. unfold actionFor, contactAction. cbn. rewrite !minusMs_0. by case_match. Qed.

Lemma meetingAction_for lp r p email : actionFor Meetings lp r p (meetingAction lp p email).
Proof. unfold actionFor, meetingAction. cbn. rewrite !minusMs_0. by case_match. Qed.

Lemma accepted_set_contactAssocApi v w : accepted (set_contactAssocApi v w) = accepted w.
Proof. done. Qed.

Lemma accepted_set_meetingAssocApi v w : accepted (set_meetingAssocApi v w) = accepted w.
Proof. done. Qed.

Lemma accepted_set_contactBatchApi v w : accepted (set_contactBatchApi v w) = accepted w.
Proof. done. Qed.

Lemma accepted_set_searchApi k v w : accepted (set_searchApi k v w) = accepted w.
Proof. by destruct k. Qed.

Lemma sleep_accepted ms w : accepted (sleep ms w) = accepted w.
Proof. unfold sleep. by rewrite processQueue_accepted. Qed.

Lemma refreshAccessToken_accepted hub w : accepted (refreshAccessToken hub w).2 = accepted w.
Proof.
  unfold refreshAccessToken.
  destruct (findAccount hub (accounts (domain w))) as [account|]; [|done].
  destruct (tokenApi (awaitIO w)) as [|[body|] rest]; [|case_match|];
    cbn [snd]; change (accepted (awaitIO w) = accepted w); apply awaitIO_accepted.
Qed.

Create Rewrite HintDb accepted.

#[local] Hint Rewrite awaitIO_accepted sleep_accepted refreshAccessToken_accepted
  accepted_set_contactAssocApi accepted_set_meetingAssocApi accepted_set_contactBatchApi
  accepted_set_searchApi : accepted.

Lemma contactAssociations_accepted w : accepted (contactAssociations w).2 = accepted w.
Proof.
  unfold contactAssociations.
  destruct (contactAssocApi (awaitIO w)) as [|[| |res] rest]; cbn [snd];
    by autorewrite with accepted.
Qed.

Lemma contactEmails_accepted m w : accepted (contactEmails m w).2 = accepted w.
Proof.
  unfold contactEmails. case_match; [|done].
  destruct (contactBatchApi (awaitIO w)) as [|[|[res|]] rest]; cbn [snd];
    by autorewrite with accepted.
Qed.

Lemma meetingAssociations_accepted data w :
  match meetingAssociations data w with
  | Ok _ w1 | Throw _ w1 => accepted w1 = accepted w
  | OutOfFuel => True
  end.
Proof.
  unfold meetingAssociations.
  destruct (0 <? Z.of_nat (length (map RemoteRecord.id data))); [|done].
  destruct (meetingAssocApi (awaitIO w)) as [|[| |res] rest]; cbn -[accepted];
    by autorewrite with accepted.
Qed.

Lemma catchFetchError_accepted hub tryCount w :
  accepted (catchFetchError hub tryCount w) = accepted w.
Proof. unfold catchFetchError. case_match; by autorewrite with accepted. Qed.

Lemma doSearch_accepted k so w : accepted (doSearch k so w).2 = accepted w.
Proof.
  unfold doSearch. destruct (searchApi k (awaitIO w)) as [|[|respond] rest]; cbn [snd];
    by autorewrite with accepted.
Qed.

Lemma searchWithRetry_accepted n k hub so tryCount w :
  accepted (searchWithRetry n k hub so tryCount w).2 = accepted w.
Proof.
  revert tryCount w. induction n as [|n IH]; intros tryCount w; cbn; [done|].
  case_match; [|done].
  pose proof (doSearch_accepted k so w) as Hd.
  destruct (doSearch k so w) as [[sr|] w1]; cbn in *; [done|].
  by rewrite IH, catchFetchError_accepted.
Qed.

(** *** Records and their actions *)

Lemma emitsFor_nil k lp w w' : accepted w' = accepted w -> emitsFor k lp [] w w'.
Proof. intros E. exists []. rewrite E. cbn. by rewrite app_nil_r. Qed.

Lemma emitsFor_app k lp rs1 rs2 w1 w2 w3 :
  emitsFor k lp rs1 w1 w2 -> emitsFor k lp rs2 w2 w3 -> emitsFor k lp (rs1 ++ rs2) w1 w3.
Proof.
  intros (g1 & E1 & F1) (g2 & E2 & F2). exists (g1 ++ g2).
  rewrite E2, E1, concat_app, app_assoc. split; [done|]. by apply Forall2_app.
Qed.

Lemma emitsFor_before k lp rs w1 w2 w3 :
  accepted w2 = accepted w1 -> emitsFor k lp rs w2 w3 -> emitsFor k lp rs w1 w3.
Proof. intros E (g & E2 & F). exists g. by rewrite E2, E. Qed.

Lemma emitsFor_after k lp rs w1 w2 w3 :
  emitsFor k lp rs w1 w2 -> accepted w3 = accepted w2 -> emitsFor k lp rs w1 w3.
Proof. intros (g & E2 & F) E. exists g. by rewrite E, E2. Qed.

Lemma emitsFor_one k lp r g w w' :
  accepted w' = accepted w ++ g -> ownActions k lp r g -> emitsFor k lp [r] w w'.
Proof.
  intros E Ho. exists [g]. cbn. rewrite app_nil_r. split; [done|]. by constructor.
Qed.

Lemma fold_emitsFor k lp (f : RemoteRecord.record -> World -> World) l w :
  (forall x w0, emitsFor k lp [x] w0 (f x w0)) ->
  emitsFor k lp l w (fold_left (fun w' x => f x w') l w).
Proof.
  intros Hf. revert w. induction l as [|x l IH]; intros w; cbn.
  - by apply emitsFor_nil.
  - apply (emitsFor_app k lp [x] l w (f x w)); [apply Hf|apply IH].
Qed.

Lemma companyStep_emitsFor lp c w : emitsFor Companies lp [c] w (companyStep lp c w).
Proof.
  unfold companyStep. destruct (RemoteRecord.properties c) as [p|] eqn:Ep.
  - apply (emitsFor_one _ _ _ [companyAction lp c p]); [apply qPush_accepted|].
    cbn. by rewrite Ep.
  - apply (emitsFor_one _ _ _ []); [by rewrite app_nil_r|]. cbn. by rewrite Ep.
Qed.

Lemma contactStep_emitsFor lp m c w : emitsFor Contacts lp [c] w (contactStep lp m c w).
Proof.
  unfold contactStep.
  apply (emitsFor_one _ _ _ (option_list (contactActionOf lp m c))); [|by exists m].
  unfold contactActionOf. destruct (RemoteRecord.properties c) as [p|];
    [|by rewrite app_nil_r].
  destruct (truthyStr (Props.email p)); cbn -[accepted];
    [apply qPush_accepted|by rewrite app_nil_r].
Qed.

Lemma attendees_fold_accepted lp c2e p l w :
  accepted (fold_left (fun w' cid => attendeeStep lp c2e p cid w') l w)
  = accepted w ++ omap (attendeeActionOf lp c2e p) l.
Proof.
  revert w. induction l as [|cid l IH]; intros w; cbn -[accepted]; [by rewrite app_nil_r|].
  rewrite IH. unfold attendeeStep, attendeeActionOf.
  destruct (objGet c2e cid) as [[email|]|name|];
    [destruct (truthyStr (Some email))| | |]; cbn -[accepted];
    rewrite ?qPush_accepted, <- ?app_assoc; done.
Qed.

(** A meeting that is transformed without an exception has pushed its own
    actions; one that throws has pushed nothing. *)
Lemma meetingStep_accepted lp m2c c2e meeting w :
  match meetingStep lp m2c c2e meeting w with
  | Ok _ w' => accepted w' = accepted w ++ meetingActionsOf lp m2c c2e meeting
  | Throw _ w' => w' = w
  | OutOfFuel => False
  end.
Proof.
  unfold meetingStep, meetingActionsOf, attendeesOf.
  destruct (RemoteRecord.properties meeting) as [p|]; [|done].
  destruct (objGet m2c (RemoteRecord.id meeting)) as [cids|name|]; cbn -[accepted].
  - apply attendees_fold_accepted.
  - done.
  - by rewrite app_nil_r.
Qed.

(** What a page has pushed: the actions of its records, one record after
    the other; of all of them when it was transformed to its end, and of the
    records before the exception otherwise. *)
Lemma meetings_forEach_emitsFor lp m2c c2e data w :
  match forEachM (meetingStep lp m2c c2e) data w with
  | Ok _ w' => emitsFor Meetings lp data w w'
  | Throw _ w' => exists done, done `prefix_of` data /\ emitsFor Meetings lp done w w'
  | OutOfFuel => False
  end.
Proof.
  revert w. induction data as [|r data IH]; intros w; cbn.
  - by apply emitsFor_nil.
  - unfold bind. pose proof (meetingStep_accepted lp m2c c2e r w) as Hs.
    destruct (meetingStep lp m2c c2e r w) as [[] w1|e w1|]; [| |done].
    + assert (emitsFor Meetings lp [r] w w1) as H1
        by (eapply emitsFor_one; [exact Hs|by exists m2c, c2e]).
      specialize (IH w1). destruct (forEachM (meetingStep lp m2c c2e) data w1); [| |done].
      * by apply (emitsFor_app Meetings lp [r] data w w1).
      * destruct IH as (done' & Hp & He). exists (r :: done'). split.
        -- by apply prefix_cons.
        -- by apply (emitsFor_app Meetings lp [r] done' w w1).
    + subst w1. exists []. split; [apply prefix_nil|by apply emitsFor_nil].
Qed.

Lemma meetingAssociations_returns data w : meetingAssociations data w <> OutOfFuel.
Proof.
  unfold meetingAssociations.
  destruct (0 <? Z.of_nat (length (map RemoteRecord.id data))); [|done].
  by destruct (meetingAssocApi (awaitIO w)) as [|[| |res] rest].
Qed.

Lemma processPage_emitsFor k lp data w :
  match processPage k lp data w with
  | Ok _ w' => emitsFor k lp data w w'
  | Throw _ w' => exists done, done `prefix_of` data /\ emitsFor k lp done w w'
  | OutOfFuel => False
  end.
Proof.
  destruct k; cbn.
  - apply fold_emitsFor. intros; apply companyStep_emitsFor.
  - unfold contactsPage.
    pose proof (contactAssociations_accepted w) as Ha.
    destruct (contactAssociations w) as [res w1]. cbn in Ha.
    destruct (companyAssociationEntries res) as [e|entries].
    + exists []. split; [apply prefix_nil|by apply emitsFor_nil].
    + apply (emitsFor_before _ _ _ w w1); [done|].
      apply fold_emitsFor. intros; apply contactStep_emitsFor.
  - unfold meetingsPage, bind.
    pose proof (meetingAssociations_accepted data w) as Ha.
    pose proof (meetingAssociations_returns data w) as Hr.
    destruct (meetingAssociations data w) as [l w0|e w0|]; [| |done].
    + destruct (meetingToContacts l) as [e|m2c].
      * exists []. split; [apply prefix_nil|by apply emitsFor_nil].
      * pose proof (contactEmails_accepted m2c w0) as He.
        destruct (contactEmails m2c w0) as [c2e w1]. cbn in He.
        pose proof (meetings_forEach_emitsFor lp m2c c2e data w1) as Hf.
        destruct (forEachM (meetingStep lp m2c c2e) data w1) as [[] w2|e w2|]; [| |done].
        -- apply (emitsFor_before _ _ _ w w1); [by rewrite He|done].
        -- destruct Hf as (done' & Hp & Hf). exists done'. split; [done|].
           apply (emitsFor_before _ _ _ w w1); [by rewrite He|done].
    + exists []. split; [apply prefix_nil|by apply emitsFor_nil].
Qed.

(** *** The pages of a pass *)

Lemma Fetched_none k w w' : searchApi k w' = searchApi k w -> Fetched k w w' [].
Proof. intros E. exists [], []. by rewrite E. Qed.

Lemma Fetched_from k w1 w2 w' pages :
  searchApi k w2 = searchApi k w1 -> Fetched k w1 w' pages -> Fetched k w2 w' pages.
Proof. intros E (c & sos & H1 & H2). exists c, sos. by rewrite E. Qed.

Lemma Fetched_to k w w1 w2 pages :
  searchApi k w2 = searchApi k w1 -> Fetched k w w1 pages -> Fetched k w w2 pages.
Proof. intros E (c & sos & H1 & H2). exists c, sos. by rewrite E. Qed.

Lemma Fetched_app k w1 w2 w3 p1 p2 :
  Fetched k w1 w2 p1 -> Fetched k w2 w3 p2 -> Fetched k w1 w3 (p1 ++ p2).
Proof.
  intros (c1 & s1 & E1 & L1 & ->) (c2 & s2 & E2 & L2 & ->).
  exists (c1 ++ c2), (s1 ++ s2). unfold answers in *.
  rewrite E1, E2, app_assoc, omap_app, !length_app, L1, L2.
  split; [done|]. split; [done|]. by rewrite zip_with_app.
Qed.

Lemma Fetched_fail k w w' pages rest :
  searchApi k w = SearchFails :: rest ->
  (forall u, searchApi k u = rest -> Fetched k u w' pages) ->
  forall u, searchApi k u = rest -> Fetched k w w' pages.
Proof.
  intros E H u Hu. destruct (H u Hu) as (c & sos & E1 & L & ->).
  exists (SearchFails :: c), sos. rewrite E. cbn. by rewrite <- E1, Hu.
Qed.

(** What the retry loop has consumed: failed calls, and the answer it
    returns, if it returns one. *)
Lemma searchWithRetry_fetched n k hub so tryCount w :
  let res := searchWithRetry n k hub so tryCount w in
  Fetched k w res.2 match res.1 with
                    | Some sr => [default [] (results sr)]
                    | None => []
                    end.
Proof.
  revert tryCount w. induction n as [|n IH]; intros tryCount w; cbn [searchWithRetry].
  - by apply Fetched_none.
  - case_match; [|by apply Fetched_none].
    pose proof (doSearch_script k so w) as Hd.
    destruct (doSearch k so w) as [r w1]. cbn in Hd.
    assert (searchApi k (catchFetchError hub (tryCount + 1) w1) = searchApi k w1) as Hc
      by apply remote_searchApi, catchFetchError_remote.
    specialize (IH (tryCount + 1) (catchFetchError hub (tryCount + 1) w1)).
    destruct (searchApi k w) as [|[|respond] rest] eqn:Es; destruct Hd as [-> Hs];
      cbn zeta in *.
    + apply (Fetched_from k (catchFetchError hub (tryCount + 1) w1)); [|exact IH].
      by rewrite Hc, Hs.
    + destruct IH as (c & sos & E1 & L & ->).
      exists (SearchFails :: c), sos. cbn. by rewrite <- E1, Hc, Hs.
    + cbn. exists [SearchOk respond], [so]. by rewrite Hs.
Qed.

Lemma passEmits_trans k lp c w1 w2 w3 :
  passEmits k lp true w1 w2 -> passEmits k lp c w2 w3 -> passEmits k lp c w1 w3.
Proof.
  intros (p1 & r1 & F1 & -> & E1) (p2 & r2 & F2 & H2 & E2).
  exists (p1 ++ p2), (concat p1 ++ r2).
  split; [by eapply Fetched_app|]. split; [|by eapply emitsFor_app].
  rewrite concat_app. destruct c; [by subst|]. by apply prefix_app.
Qed.

Lemma passEmits_weaken k lp w w' : passEmits k lp true w w' -> passEmits k lp false w w'.
Proof. intros (p & r & F & -> & E). by exists p, (concat p). Qed.

Lemma iteration_emitsFor k hub lp now off w :
  match iteration k hub lp now off w with
  | Ok _ w' => passEmits k lp true w w'
  | Throw _ w' => passEmits k lp false w w'
  | OutOfFuel => False
  end.
Proof.
  unfold iteration.
  pose proof (searchWithRetry_fetched 5 k hub (searchObject k off lp now) 0 w) as Hf.
  pose proof (searchWithRetry_accepted 5 k hub (searchObject k off lp now) 0 w) as Ha.
  destruct (searchWithRetry 5 k hub (searchObject k off lp now) 0 w) as [[sr|] w1];
    cbn in Hf, Ha.
  - set (data := default [] (results sr)) in *.
    pose proof (processPage_emitsFor k lp data w1) as Hp.
    pose proof (processPage_searchApi k k lp data w1) as Hs.
    assert (forall w2 done' (c : bool),
              searchApi k w2 = searchApi k w1 -> emitsFor k lp done' w1 w2 ->
              (if c then done' = concat [data] else done' `prefix_of` concat [data]) ->
              passEmits k lp c w w2) as Hlift.
    { intros w2 done' c Es He Hc. exists [data], done'.
      split; [by apply (Fetched_to k w w1)|]. split; [done|].
      by apply (emitsFor_before _ _ _ w w1). }
    destruct (processPage k lp data w1) as [[] w2|e w2|]; [| |done].
    + destruct (advance k off data _).
      * apply (Hlift w2 data false); [done|done|]. cbn. by rewrite app_nil_r.
      * apply (Hlift w2 data true); [done|done|]. cbn. by rewrite app_nil_r.
    + destruct Hp as (done' & Hpre & He).
      apply (Hlift w2 done' false); [done|done|]. cbn. by rewrite app_nil_r.
  - exists [], []. split; [done|]. split; [done|]. by apply emitsFor_nil.
Qed.

Lemma passLoop_emitsFor fuel k hub lp now :
  forall off w,
    match passLoop fuel k hub lp now off w with
    | Ok _ w' => passEmits k lp true w w'
    | Throw _ w' => passEmits k lp false w w'
    | OutOfFuel => True
    end.
Proof.
  induction fuel as [|fuel IH]; intros off w; cbn [passLoop]; [done|].
  unfold bind. pose proof (iteration_emitsFor k hub lp now off w) as Hi.
  destruct (iteration k hub lp now off w) as [[|off'] w1|e w1|]; [done| |done|done].
  specialize (IH off' w1).
  destruct (passLoop fuel k hub lp now off' w1); [| |done]; by eapply passEmits_trans.
Qed.

Lemma commitWatermark_accepted k hub t w : accepted (commitWatermark k hub t w) = accepted w.
Proof. done. Qed.

(** What a pass has fetched and pushed when it returns: with [true] the
    records of every page it fetched, with [false] those up to the exception
    that stopped it. *)
Lemma processEntity_emitsFor fuel k hub w account b w' :
  findAccount hub (accounts (domain w)) = Some account ->
  processEntity fuel k hub w = Ok b w' ->
  passEmits k (getWatermark k (lastPulledDates account)) b w w'.
Proof.
  intros Ea. unfold processEntity, tryCatch. rewrite (passBody_found _ _ _ _ _ Ea).
  pose proof (passLoop_emitsFor fuel k hub (getWatermark k (lastPulledDates account))
                (Some (clock w)) emptyOffset w) as Hl.
  destruct (passLoop fuel k hub _ _ emptyOffset w) as [[] w1|e w1|]; [| |done].
  - intros [= <- <-]. destruct Hl as (p & r & F & Hc & E). exists p, r.
    split; [apply (Fetched_to k w w1); [by destruct k|done]|]. split; [done|].
    by apply (emitsFor_after _ _ _ w w1).
  - by intros [= <- <-].
Qed.

(** The actions of a record are classified and dated by the instants of that
    record. *)
Lemma ownActions_classified k lp r g :
  ownActions k lp r g -> Forall (classified k lp r) g.
Proof.
  destruct k; cbn.
  - intros ->. destruct (RemoteRecord.properties r) as [p|] eqn:Ep; [|done].
    constructor; [|done]. exists p. split; [done|]. apply companyAction_for.
  - intros [m ->]. unfold contactActionOf.
    destruct (RemoteRecord.properties r) as [p|] eqn:Ep; [|done].
    destruct (truthyStr (Props.email p)); [|done].
    constructor; [|done]. exists p. split; [done|]. apply contactAction_for.
  - intros (m2c & c2e & ->). unfold meetingActionsOf.
    destruct (RemoteRecord.properties r) as [p|] eqn:Ep; [|done].
    destruct (attendeesOf m2c r) as [cids|]; [|done].
    induction cids as [|cid cids IH]; cbn; [done|].
    unfold attendeeActionOf at 1.
    destruct (objGet c2e cid) as [[email|]|name|];
      [destruct (truthyStr (Some email))| | |]; try done;
      (constructor; [|done]); exists p; (split; [done|]); apply meetingAction_for.
Qed.

End Transform.

(** C2, as amended. What a pass of any of the three kinds adds to the queue
    is, for each record of the pages it fetched, in order, the actions of
    that record (all the records when the pass returns [true], those up to
    the exception otherwise); a record without [properties] has none. Each
    action of a record is a "created" action exactly when the creation
    instant of that record is after the watermark the account held when the
    pass started, and an "updated" action otherwise, equal instants included;
    its [actionDate] is the creation instant of the record when created and
    its modification instant when updated, for contacts and meetings, and
    2000 ms before that instant for companies. For meetings the two instants
    are the [hs_createdate] and [hs_lastmodifieddate] properties. *)
Theorem pass_actions_classified
    (fuel : nat) (k : EntityKind) (hub : string) (w w' : World) (account : Account)
    (b : bool) :
  findAccount hub (accounts (domain w)) = Some account ->
  processEntity fuel k hub w = Ok b w' ->
  (exists pages records groups,
      Fetched k w w' pages
      /\ (if b then records = concat pages else records `prefix_of` concat pages)
      /\ accepted w' = accepted w ++ concat groups
      /\ Forall2 (fun r g =>
                    ownActions k (getWatermark k (lastPulledDates account)) r g
                    /\ Forall (classified k (getWatermark k (lastPulledDates account)) r) g)
           records groups)
  /\ (forall t r p a, creationTime k r p = t -> actionFor k t r p a ->
                      actionName a = updatedName k)
  /\ createdName k <> updatedName k.
Proof.
  intros Ea Hrun. split; [|split].
  - destruct (processEntity_emitsFor fuel k hub w account b w' Ea Hrun)
      as (pages & records & Hf & Hc & groups & Hacc & Hown).
    exists pages, records, groups. repeat (split; [done|]).
    eapply Forall2_impl; [exact Hown|]. intros r g Hg. split; [done|].
    by apply ownActions_classified.
  - intros t r p a <-. unfold actionFor. rewrite gtTime_irrefl. by intros [? _].
  - by destruct k.
Qed.

(** The run [companiesRun], whose account holds the watermark 1000: one
    failed call, the page of two companies, an empty page. *)
Lemma pass_actions_classified_witness :
  exists groups,
    accepted companiesRunEnd = accepted companiesRun ++ concat groups
    /\ Forall2 (fun r g =>
                  ownActions Companies (Some 1000) r g
                  /\ Forall (classified Companies (Some 1000) r) g)
         twoCompanies groups.
Proof.
  destruct (pass_actions_classified 5 Companies "hub1" companiesRun companiesRunEnd
              (sampleAccount "hub1") true) as [(pages & records & groups & Hf & Hr & H) _].
  - reflexivity.
  - vm_compute. reflexivity.
  - exists groups. replace twoCompanies with records; [exact H|].
    subst records. destruct Hf as (consumed & sos & Hs & Hl & ->).
    assert (consumed = searchApi Companies companiesRun) as ->.
    { assert (searchApi Companies companiesRunEnd = []) as E
        by (vm_compute; reflexivity).
      rewrite E, app_nil_r in Hs. done. }
    destruct sos as [|so1 [|so2 [|so3 sos]]]; try discriminate Hl. reflexivity.
Defined.

(** C2 as it was stated fails for companies: in the run [companiesRun] the
    company created at 5000, after the watermark 1000, gets a "created"
    action dated 3000, not 5000. *)
Lemma company_created_date_is_shifted :
  processCompanies 5 "hub1" companiesRun = Ok true companiesRunEnd
  /\ map (fun a => (actionName a, actionDate a)) (accepted companiesRunEnd)
     = [("Company Created", Some 3000); ("Company Updated", Some 4000)]
  /\ map RemoteRecord.createdAt twoCompanies = [Some 5000; Some 500]
  /\ map RemoteRecord.updatedAt twoCompanies = [Some 6000; Some 6000].
Proof. vm_compute. repeat split; reflexivity. Qed.

(** C7, as amended. What a pass adds to the queue is, for each record of
    the pages it fetched, in order, the actions of that record, and each of
    them is dated by an instant of that very record, its creation instant
    for a "created" action and its modification instant for an "updated"
    one: 2000 ms before that instant for every company action, created or
    updated, and that instant itself for every contact and meeting action. *)
Theorem offset_on_every_company_action
    (fuel : nat) (k : EntityKind) (hub : string) (w w' : World) (account : Account)
    (b : bool) :
  findAccount hub (accounts (domain w)) = Some account ->
  processEntity fuel k hub w = Ok b w' ->
  exists pages records groups,
    Fetched k w w' pages
    /\ (if b then records = concat pages else records `prefix_of` concat pages)
    /\ accepted w' = accepted w ++ concat groups
    /\ Forall2 (fun r g =>
                  ownActions k (getWatermark k (lastPulledDates account)) r g
                  /\ Forall (fun a =>
                       exists p,
                         RemoteRecord.properties r = Some p
                         /\ let instant := if decide (actionName a = createdName k)
                                           then creationTime k r p
                                           else modificationTime k r p in
                            (actionName a = createdName k \/ actionName a = updatedName k)
                            /\ actionDate a = match k with
                                              | Companies => minusMs instant 2000
                                              | Contacts | Meetings => instant
                                              end) g)
         records groups.
Proof.
  intros Ea Hrun.
  destruct (processEntity_emitsFor fuel k hub w account b w' Ea Hrun)
    as (pages & records & Hf & Hc & groups & Hacc & Hown).
  exists pages, records, groups. repeat (split; [done|]).
  eapply Forall2_impl; [exact Hown|]. intros r g Hg. split; [done|].
  eapply Forall_impl; [by apply ownActions_classified|].
  intros a (p & Hp & Ha). exists p. split; [done|].
  cbn zeta. unfold actionFor in Ha.
  destruct (gtTime (creationTime k r p) _); destruct Ha as [Hn Hd]; rewrite Hn, Hd.
  - rewrite decide_True by done. split; [by left|].
    destruct k; cbn; by rewrite ?minusMs_0.
  - rewrite decide_False by (by destruct k). split; [by right|].
    destruct k; cbn; by rewrite ?minusMs_0.
Qed.

Lemma offset_on_every_company_action_witness :
  exists groups,
    accepted companiesRunEnd = accepted companiesRun ++ concat groups
    /\ Forall2 (fun r g =>
                  ownActions Companies (Some 1000) r g
                  /\ Forall (fun a =>
                       exists p,
                         RemoteRecord.properties r = Some p
                         /\ let instant := if decide (actionName a = createdName Companies)
                                           then creationTime Companies r p
                                           else modificationTime Companies r p in
                            (actionName a = createdName Companies
                             \/ actionName a = updatedName Companies)
                            /\ actionDate a = minusMs instant 2000) g)
         twoCompanies groups.
Proof.
  destruct (offset_on_every_company_action 5 Companies "hub1" companiesRun companiesRunEnd
              (sampleAccount "hub1") true) as (pages & records & groups & Hf & Hr & H).
  - reflexivity.
  - vm_compute. reflexivity.
  - exists groups. replace twoCompanies with records; [exact H|].
    subst records. destruct Hf as (consumed & sos & Hs & Hl & ->).
    assert (consumed = searchApi Companies companiesRun) as ->.
    { assert (searchApi Companies companiesRunEnd = []) as E
        by (vm_compute; reflexivity).
      rewrite E, app_nil_r in Hs. done. }
    destruct sos as [|so1 [|so2 [|so3 sos]]]; try discriminate Hl. reflexivity.
Defined.

(** C7 as it was stated fails for updated companies: the company created at
    500, before the watermark 1000, and modified at 6000 gets an "updated"
    action dated 4000. *)
Lemma company_updated_date_is_shifted :
  let a := companyAction (Some 1000) (sampleRecord "c2" 500 6000) Props.empty in
  actionName a = "Company Updated"
  /\ actionDate a = Some 4000
  /\ RemoteRecord.updatedAt (sampleRecord "c2" 500 6000) = Some 6000.
Proof. cbn. repeat split; reflexivity. Qed.

Lemma retries_are_transparent_witness :
  match processEntity 5 Companies "hub1" firstAttemptRun,
        processEntity 5 Companies "hub1"
          (set_searchApi Companies
             (replicate 3 SearchFails ++ page twoCompanies (Some "2") :: [page [] None])
             firstAttemptRun)
  with
  | Ok b1 w1, Ok b2 w2 =>
      b1 = b2
      /\ delivered w1 = delivered w2 /\ actions w1 = actions w2 /\ waiting w1 = waiting w2
      /\ accepted w1 = accepted w2
      /\ watermarks w1 = watermarks w2
  | OutOfFuel, OutOfFuel => True
  | _, _ => False
  end.
Proof.
  apply (retries_are_transparent 5 Companies "hub1" firstAttemptRun).
  apply (retried_ok _ 3); [lia | constructor].
Defined.

(** ** Association reads that fail *)

(** C5 at its failing input. The association read of a meetings page
    answers with a body that cannot be parsed: the meetings pass stops with
    [false], transforms none of the page and commits nothing. The contacts
    pass, given the same answer, goes on, emits its contact and commits. *)
Lemma unreadable_association_body_aborts_meetings :
  let rm := processMeetings 5 "hub1" meetingsUnreadableAssociations in
  let rc := processContacts 5 "hub1" contactsUnreadableAssociations in
  passBody 5 Meetings "hub1" meetingsUnreadableAssociations
  = Throw JsonError (worldOf rm sampleWorld)
  /\ returned rm = Some false
  /\ accepted (worldOf rm sampleWorld) = []
  /\ watermarks (worldOf rm sampleWorld) = watermarks meetingsUnreadableAssociations
  /\ returned rc = Some true
  /\ map (fun a => (actionName a, identity a)) (accepted (worldOf rc sampleWorld))
     = [("Contact Updated", Some (Email "ann@example.com"))]
  /\ (contacts ∘ snd) <$> head (watermarks (worldOf rc sampleWorld)) = Some (Some 50000).
Proof. by vm_compute. Qed.

(** ** Records without an identity *)

(** C9 at its failing input. A meeting whose only attendee has no email is
    skipped when it has a properties object: the pass returns [true] and
    emits nothing. The same meeting without a properties object makes the
    pass throw and return [false], and nothing is committed. *)
Lemma unresolved_meeting_without_properties_throws :
  let skipped := processMeetings 5 "hub1" unresolvedMeeting in
  let thrown := processMeetings 5 "hub1" unresolvedMeetingWithoutProperties in
  returned skipped = Some true
  /\ accepted (worldOf skipped sampleWorld) = []
  /\ passBody 5 Meetings "hub1" unresolvedMeetingWithoutProperties
     = Throw (TypeError "meeting.properties.hs_createdate") (worldOf thrown sampleWorld)
  /\ returned thrown = Some false
  /\ accepted (worldOf thrown sampleWorld) = []
  /\ watermarks (worldOf thrown sampleWorld) = watermarks unresolvedMeetingWithoutProperties.
Proof. by vm_compute. Qed.
(** ** Where the lookups do degrade, and what is skipped *)

Section Degrade.

Implicit Types (w : World) (lp : Time).

Lemma contacts_fold_accepted lp m data w :
  accepted (fold_left (fun w' c => contactStep lp m c w') data w)
  = accepted w ++ omap (contactActionOf lp m) data.
Proof.
  revert w. induction data as [|c data IH]; intros w; cbn; [by rewrite app_nil_r|].
  rewrite IH. unfold contactStep, contactActionOf.
  destruct (RemoteRecord.properties c) as [p|]; [|done].
  destruct (truthyStr (Props.email p)); cbn -[accepted]; [|done].
  by rewrite qPush_accepted, <- app_assoc.
Qed.

Lemma meetingAssocApi_awaitIO w : meetingAssocApi (awaitIO w) = meetingAssocApi w.
Proof. by apply (awaitIO_frame meetingAssocApi). Qed.

Lemma contactBatchApi_awaitIO w : contactBatchApi (awaitIO w) = contactBatchApi w.
Proof. by apply (awaitIO_frame contactBatchApi). Qed.

Lemma contactAssocApi_awaitIO w : contactAssocApi (awaitIO w) = contactAssocApi w.
Proof. by apply (awaitIO_frame contactAssocApi). Qed.

Lemma contactEmails_fails m w :
  match contactBatchApi w with
  | [] | BatchThrows :: _ => True
  | BatchBody _ :: _ => False
  end ->
  (contactEmails m w).1 = ∅.
Proof.
  intros Hf. unfold contactEmails. destruct (0 <? _); [|done].
  rewrite contactBatchApi_awaitIO. by destruct (contactBatchApi w) as [|[|] rest].
Qed.

Lemma objGet_empty {V} (key : string) :
  objGet (∅ : gmap string V) key = if inherited key then Member key else Absent.
Proof. unfold objGet. by rewrite lookup_empty. Qed.

Lemma attendeesOf_plain m2c meeting :
  inherited (RemoteRecord.id meeting) = false -> is_Some (attendeesOf m2c meeting).
Proof.
  intros Hp. unfold attendeesOf, objGet. rewrite Hp.
  by destruct (m2c !! RemoteRecord.id meeting).
Qed.

(** A meeting whose attendees are an array is transformed without an
    exception. *)
Lemma meetingStep_returns lp m2c c2e meeting w :
  is_Some (RemoteRecord.properties meeting) -> is_Some (attendeesOf m2c meeting) ->
  exists w', meetingStep lp m2c c2e meeting w = Ok tt w'.
Proof.
  intros [p Hp] [cids Hc]. unfold meetingStep, attendeesOf in *. rewrite Hp.
  destruct (objGet m2c (RemoteRecord.id meeting)); [by eexists|done|by eexists].
Qed.

Lemma meetingStep_remote lp m2c c2e meeting w :
  match meetingStep lp m2c c2e meeting w with
  | Ok _ w' | Throw _ w' => remote w' = remote w
  | OutOfFuel => True
  end.
Proof. by apply (meetingStep_frame remote). Qed.

(** A page of meetings that all have properties and an array of attendees:
    it is transformed to its end and pushes, meeting by meeting, the actions
    of the attendees that resolve. *)
Lemma meetings_forEach_exact lp m2c c2e data :
  Forall (fun m => is_Some (RemoteRecord.properties m) /\ is_Some (attendeesOf m2c m)) data ->
  forall w, exists w',
    forEachM (meetingStep lp m2c c2e) data w = Ok tt w'
    /\ accepted w' = accepted w ++ flat_map (meetingActionsOf lp m2c c2e) data
    /\ remote w' = remote w.
Proof.
  induction 1 as [|m data [Hp Ha] _ IH]; intros w; cbn -[accepted].
  - exists w. by rewrite app_nil_r.
  - unfold bind. destruct (meetingStep_returns lp m2c c2e m w Hp Ha) as [w1 Hs].
    pose proof (meetingStep_accepted lp m2c c2e m w) as Hacc.
    pose proof (meetingStep_remote lp m2c c2e m w) as Hr.
    rewrite Hs in *. destruct (IH w1) as (w' & Hrun & Hacc' & Hr').
    exists w'. split; [done|]. split; [|congruence].
    by rewrite Hacc', Hacc, <- app_assoc.
Qed.

(** With no email read, only an attendee whose id names a member of
    [Object.prototype] resolves. *)
Lemma attendeeActionOf_empty lp p cid :
  attendeeActionOf lp ∅ p cid
  = if inherited cid then Some (meetingAction lp p (Inherited cid)) else None.
Proof. unfold attendeeActionOf. rewrite objGet_empty. by destruct (inherited cid). Qed.

Lemma meetingActionsOf_plain lp m2c data :
  (forall m contactIds,
      m ∈ data -> attendeesOf m2c m = Some contactIds ->
      Forall (fun cid => inherited cid = false) contactIds) ->
  flat_map (meetingActionsOf lp m2c ∅) data = [].
Proof.
  induction data as [|m data IH]; intros Hpl; cbn; [done|].
  rewrite IH by (intros; eapply Hpl; [by right|done]). rewrite app_nil_r.
  unfold meetingActionsOf. destruct (RemoteRecord.properties m) as [p|]; [|done].
  destruct (attendeesOf m2c m) as [cids|] eqn:Ea; [|done].
  specialize (Hpl m cids ltac:(by left) Ea). clear Ea.
  induction Hpl as [|cid cids Hc _ IHc]; [done|].
  cbn. by rewrite attendeeActionOf_empty, Hc.
Qed.

(** The map of attendees holds ids that came in the [to] of an
    association. *)
Lemma meetingToContacts_values l m2c :
  plainAssociations l ->
  meetingToContacts l = inr m2c ->
  forall mid contactIds,
    m2c !! mid = Some contactIds -> Forall (fun cid => inherited cid = false) contactIds.
Proof.
  unfold meetingToContacts.
  assert (forall (m0 : gmap string (list string)),
            (forall mid cids, m0 !! mid = Some cids ->
                              Forall (fun cid => inherited cid = false) cids) ->
            plainAssociations l ->
            foldl (fun acc assoc =>
                     match acc with
                     | inl e => inl e
                     | inr m =>
                         match assocFrom assoc, assocTo assoc with
                         | Some mid, Some contactIds =>
                             match objGet m mid with
                             | Own ids => inr (<[mid := ids ++ contactIds]> m)
                             | Absent => inr (<[mid := contactIds]> m)
                             | Member _ => inl (TypeError "meetingToContactsMap[mid].push")
                             end
                         | _, _ => inr m
                         end
                     end) (inr m0) l = inr m2c ->
            forall mid cids, m2c !! mid = Some cids ->
                             Forall (fun cid => inherited cid = false) cids) as Hgen.
  { induction l as [|a l IH]; intros m0 H0 Hpl; cbn.
    - intros [= <-]. exact H0.
    - inversion Hpl as [|? ? [Hfrom Hto] Hpl']; subst.
      destruct (assocFrom a) as [mid|]; [|by apply IH].
      destruct (assocTo a) as [cids|]; [|by apply IH].
      specialize (Hto cids eq_refl). unfold objGet.
      destruct (m0 !! mid) as [ids|] eqn:El.
      + apply IH; [|done]. intros mid' cids'.
        destruct (decide (mid' = mid)) as [->|Hne].
        * rewrite lookup_insert_eq. intros [= <-]. apply Forall_app. split; [|done].
          by apply (H0 mid).
        * rewrite lookup_insert_ne by done. apply H0.
      + destruct (inherited mid).
        * clear. induction l as [|b l IHl]; cbn; [done|exact IHl].
        * apply IH; [|done]. intros mid' cids'.
          destruct (decide (mid' = mid)) as [->|Hne].
          -- rewrite lookup_insert_eq. by intros [= <-].
          -- rewrite lookup_insert_ne by done. apply H0. }
  intros Hpl Hm. by apply (Hgen ∅).
Qed.

Lemma contactEmails_none w : contactEmails ∅ w = (∅, w).
Proof. unfold contactEmails. by rewrite map_to_list_empty. Qed.

End Degrade.

(** Where C5 holds, for contacts. When the association read of a contacts
    page fails, by the request or by the parsing of its body, the page is
    transformed to its end: every contact with an email gets its action, in
    page order, and each of these actions is built with the empty map of
    companies. Its [company_id] is undefined, unless the id of the contact
    names a member of [Object.prototype]: then it is that member. *)
Theorem failed_contact_lookup_degrades
    (lp : Time) (data : list RemoteRecord.record) (w : World) :
  contactLookupFails w ->
  (exists w', contactsPage lp data w = Ok tt w'
              /\ accepted w' = accepted w ++ omap (contactActionOf lp ∅) data)
  /\ (forall c p,
        let companyId := if inherited (RemoteRecord.id c)
                         then JMember (RemoteRecord.id c) else JUndefined in
        userProperties (contactAction lp ∅ c p)
        = Some (filterNullValuesFromObject (contactUserProperties companyId p))
        /\ head (contactUserProperties companyId p) = Some ("company_id", companyId)).
Proof.
  intros Hf. split.
  - unfold contactsPage, contactAssociations, contactLookupFails in *.
    rewrite contactAssocApi_awaitIO.
    destruct (contactAssocApi w) as [|[| |res] rest]; [| | |done]; cbn;
      eexists; (split; [done|]); rewrite contacts_fold_accepted; f_equal;
      unfold accepted; cbn; repeat (etrans; [apply awaitIO_accepted|]); done.
  - intros c p. cbn zeta. split; [|done].
    unfold contactAction. cbn [userProperties]. rewrite objGet_empty.
    by destruct (inherited (RemoteRecord.id c)).
Qed.

Lemma failed_contact_lookup_degrades_witness :
  (exists w', contactsPage (Some 1000) [contactWithEmail]
                (set_contactAssocApi [JsonThrows] sampleWorld) = Ok tt w'
              /\ accepted w'
                 = accepted (set_contactAssocApi [JsonThrows] sampleWorld)
                   ++ omap (contactActionOf (Some 1000) ∅) [contactWithEmail])
  /\ (forall c p,
        let companyId := if inherited (RemoteRecord.id c)
                         then JMember (RemoteRecord.id c) else JUndefined in
        userProperties (contactAction (Some 1000) ∅ c p)
        = Some (filterNullValuesFromObject (contactUserProperties companyId p))
        /\ head (contactUserProperties companyId p) = Some ("company_id", companyId)).
Proof.
  apply (failed_contact_lookup_degrades (Some 1000) [contactWithEmail]
           (set_contactAssocApi [JsonThrows] sampleWorld)).
  exact I.
Defined.

(** Where C5 holds, for meetings. The association request of a meetings
    page rejects, or the association read answers only ids that name no
    member of [Object.prototype] and the batch read of the attendees' emails
    fails. Then a page whose meetings all have a properties object and an id
    that names no member of [Object.prototype] is transformed to its end
    without an exception, and no action is emitted. When the association
    request rejects and a meeting of such a page does have an id that names
    a member of [Object.prototype], the page throws and emits nothing. *)
Theorem failed_meeting_lookup_emits_nothing
    (lp : Time) (data : list RemoteRecord.record) (w : World) :
  Forall (fun m => is_Some (RemoteRecord.properties m)) data ->
  (Forall (fun m => inherited (RemoteRecord.id m) = false) data ->
   meetingRequestFails w \/ (emailReadFails w /\ plainAssociations (associationsRead w)) ->
   exists w', meetingsPage lp data w = Ok tt w' /\ accepted w' = accepted w)
  /\ (meetingRequestFails w ->
      Exists (fun m => inherited (RemoteRecord.id m) = true) data ->
      exists w', meetingsPage lp data w = Throw (TypeError "contactIds.forEach") w'
                 /\ accepted w' = accepted w).
Proof.
  intros Hp. split.
  - intros Hid Hf.
    assert (Hsome : forall m2c,
              Forall (fun m => is_Some (RemoteRecord.properties m)
                               /\ is_Some (attendeesOf m2c m)) data).
    { intros m2c. apply Forall_forall. intros m Hm. split.
      - by apply (proj1 (Forall_forall _ _) Hp).
      - apply attendeesOf_plain. by apply (proj1 (Forall_forall _ _) Hid). }
    assert (Hnone : forall w0, accepted w0 = accepted w ->
              exists w', (let (c2e, w1) := contactEmails ∅ w0 in
                          forEachM (meetingStep lp ∅ c2e) data w1) = Ok tt w'
                         /\ accepted w' = accepted w).
    { intros w0 E. rewrite contactEmails_none.
      destruct (meetings_forEach_exact lp ∅ ∅ data (Hsome ∅) w0) as (w' & Hrun & Hacc & _).
      exists w'. split; [done|]. rewrite Hacc, E, meetingActionsOf_plain, app_nil_r; [done|].
      intros m cids _. unfold attendeesOf. rewrite objGet_empty.
      destruct (inherited (RemoteRecord.id m)); [done|]. by intros [= <-]. }
    unfold meetingsPage, bind, meetingAssociations.
    destruct (0 <? Z.of_nat (length (map RemoteRecord.id data))); [|by apply Hnone].
    rewrite meetingAssocApi_awaitIO.
    destruct Hf as [Hf|[Hf Hpl]]; unfold meetingRequestFails, emailReadFails in Hf;
      unfold associationsRead in *;
      destruct (meetingAssocApi w) as [|[| |res] rest] eqn:Em; try done.
    + apply Hnone. apply awaitIO_accepted.
    + apply Hnone. by rewrite accepted_set_meetingAssocApi, awaitIO_accepted.
    + set (w1 := awaitIO (set_meetingAssocApi rest (awaitIO w))) in *.
      assert (accepted w1 = accepted w) as A1
        by (unfold w1; by rewrite awaitIO_accepted, accepted_set_meetingAssocApi,
              awaitIO_accepted).
      assert (contactBatchApi w1 = contactBatchApi w) as Eb.
      { subst w1. by rewrite contactBatchApi_awaitIO; cbn; rewrite contactBatchApi_awaitIO. }
      destruct (meetingToContacts_plain (default [] res)) as [m2c Hm2c].
      { eapply Forall_impl; [exact Hpl|]. by intros a [Ha _]. }
      rewrite Hm2c.
      pose proof (contactEmails_accepted m2c w1) as Hc.
      pose proof (contactEmails_fails m2c w1) as He.
      rewrite Eb in He. specialize (He Hf).
      destruct (contactEmails m2c w1) as [c2e w2]. cbn in He, Hc. subst c2e.
      destruct (meetings_forEach_exact lp m2c ∅ data (Hsome m2c) w2)
        as (w' & Hrun & Hacc & _).
      exists w'. split; [done|].
      rewrite Hacc, Hc, A1, meetingActionsOf_plain, app_nil_r; [done|].
      intros m cids _. unfold attendeesOf, objGet.
      destruct (m2c !! RemoteRecord.id m) as [ids|] eqn:El.
      * intros [= <-]. by apply (meetingToContacts_values _ _ Hpl Hm2c (RemoteRecord.id m)).
      * destruct (inherited (RemoteRecord.id m)); [done|]. by intros [= <-].
  - intros Hf Hex.
    assert (Hthrow : forall w0, accepted w0 = accepted w ->
              exists w', (let (c2e, w1) := contactEmails ∅ w0 in
                          forEachM (meetingStep lp ∅ c2e) data w1)
                         = Throw (TypeError "contactIds.forEach") w'
                         /\ accepted w' = accepted w).
    { intros w0 E. rewrite contactEmails_none. exists w0. split; [|done].
      clear E. induction Hex as [m data Hm|m data Hex IH].
      - cbn. unfold bind, meetingStep. inversion Hp as [|? ? [p Hpm] _]; subst.
        by rewrite Hpm, objGet_empty, Hm.
      - cbn. unfold bind, meetingStep at 1.
        inversion Hp as [|? ? [p Hpm] Hp']; subst. rewrite Hpm, objGet_empty.
        destruct (inherited (RemoteRecord.id m)); [done|]. cbn. by apply IH. }
    unfold meetingsPage, bind, meetingAssociations.
    destruct (0 <? Z.of_nat (length (map RemoteRecord.id data))); [|by apply Hthrow].
    rewrite meetingAssocApi_awaitIO. unfold meetingRequestFails in Hf.
    destruct (meetingAssocApi w) as [|[| |res] rest] eqn:Em; try done.
    + apply Hthrow. apply awaitIO_accepted.
    + apply Hthrow. by rewrite accepted_set_meetingAssocApi, awaitIO_accepted.
Qed.

Lemma failed_meeting_lookup_emits_nothing_witness :
  (exists w', meetingsPage (Some 1000) [meetingWithProperties]
                (set_meetingAssocApi [RequestThrows] sampleWorld) = Ok tt w'
              /\ accepted w' = accepted (set_meetingAssocApi [RequestThrows] sampleWorld))
  /\ (exists w', meetingsPage (Some 1000) [meetingWithProperties; meetingNamedConstructor]
                   (set_meetingAssocApi [RequestThrows] sampleWorld)
                 = Throw (TypeError "contactIds.forEach") w'
                 /\ accepted w' = accepted (set_meetingAssocApi [RequestThrows] sampleWorld)).
Proof.
  split.
  - apply (failed_meeting_lookup_emits_nothing (Some 1000) [meetingWithProperties]
             (set_meetingAssocApi [RequestThrows] sampleWorld)).
    + repeat constructor. by eexists.
    + repeat constructor.
    + left. exact I.
  - apply (failed_meeting_lookup_emits_nothing (Some 1000)
             [meetingWithProperties; meetingNamedConstructor]
             (set_meetingAssocApi [RequestThrows] sampleWorld)).
    + repeat constructor; by eexists.
    + exact I.
    + apply Exists_cons_tl, Exists_cons_hd. reflexivity.
Defined.

(** Where C9 holds. A contact without an email, or without a properties
    object, is skipped: the callback leaves the world as it is. A meeting
    with a properties object whose attendees are an array, none of them
    resolving to an identity, is skipped too: its callback returns without an
    exception and leaves the world as it is; a page of such meetings is
    transformed to its end. With no association and no email read, the
    meetings so skipped are exactly those whose id names no member of
    [Object.prototype]. *)
Theorem records_without_identity_are_skipped
    (lp : Time) (companyAssociations : gmap string (option string))
    (meetingToContactsMap : gmap string (list string))
    (contactIdToEmail : gmap string (option string)) (w : World) :
  (forall contact,
      match RemoteRecord.properties contact with
      | Some p => truthyStr (Props.email p) = false
      | None => True
      end ->
      contactStep lp companyAssociations contact w = w)
  /\ (forall meeting p,
        RemoteRecord.properties meeting = Some p ->
        noAttendeeEmail meetingToContactsMap contactIdToEmail meeting ->
        meetingStep lp meetingToContactsMap contactIdToEmail meeting w = Ok tt w)
  /\ (forall data,
        Forall (fun m => is_Some (RemoteRecord.properties m)
                         /\ noAttendeeEmail meetingToContactsMap contactIdToEmail m) data ->
        forEachM (meetingStep lp meetingToContactsMap contactIdToEmail) data w = Ok tt w)
  /\ (forall meeting,
        noAttendeeEmail ∅ ∅ meeting <-> inherited (RemoteRecord.id meeting) = false).
Proof.
  assert (Hskip : forall meeting p u,
            RemoteRecord.properties meeting = Some p ->
            noAttendeeEmail meetingToContactsMap contactIdToEmail meeting ->
            meetingStep lp meetingToContactsMap contactIdToEmail meeting u = Ok tt u).
  { intros meeting p u Hp (cids & Ha & Hn). unfold meetingStep, attendeesOf in *.
    rewrite Hp.
    destruct (objGet meetingToContactsMap (RemoteRecord.id meeting)) as [ids|name|];
      [|done|done].
    injection Ha as ->. unfold modify. f_equal.
    clear Hp. revert u. induction Hn as [|cid cids Hc _ IH]; intros u; cbn; [done|].
    assert (attendeeStep lp contactIdToEmail p cid u = u) as ->; [|apply IH].
    unfold attendeeStep, resolves in *.
    destruct (objGet contactIdToEmail cid) as [[email|]|name|]; try done.
    by rewrite Hc. }
  split; [|split; [|split]].
  - intros contact Hc. unfold contactStep.
    destruct (RemoteRecord.properties contact) as [p|]; [|done]. by rewrite Hc.
  - intros meeting p. apply Hskip.
  - intros data Hd. revert w. induction Hd as [|m data [[p Hp] Hn] _ IH]; intros w; cbn;
      [done|].
    unfold bind. by rewrite (Hskip m p w Hp Hn).
  - intros meeting. unfold noAttendeeEmail, attendeesOf. rewrite objGet_empty.
    destruct (inherited (RemoteRecord.id meeting)).
    + split; [by intros (cids & Ha & _)|done].
    + split; [done|]. intros _. by exists [].
Qed.

Lemma records_without_identity_are_skipped_witness :
  contactStep (Some 1000) ∅ (sampleRecord "p2" 500 6000) sampleWorld = sampleWorld
  /\ meetingStep (Some 1000) {["m1" := ["p1"]]} {["p1" := None]} meetingWithProperties
       sampleWorld
     = Ok tt sampleWorld.
Proof.
  pose proof (records_without_identity_are_skipped (Some 1000) ∅ {["m1" := ["p1"]]}
                {["p1" := None]} sampleWorld) as (Hc & Hm & _).
  split.
  - apply Hc. reflexivity.
  - apply (Hm meetingWithProperties Props.empty); [reflexivity|].
    exists ["p1"]. split; [by vm_compute|]. by repeat constructor.
Defined.

(** ** Credentials *)

Section Credentials.

Implicit Types (w : World) (k : EntityKind) (hub : string).

Lemma awaitIO_tokenApi w : tokenApi (awaitIO w) = tokenApi w.
Proof. by apply (awaitIO_frame tokenApi). Qed.

Lemma awaitIO_clock w : clock (awaitIO w) = clock w + latency w.
Proof. unfold awaitIO. by rewrite (processQueue_frame clock). Qed.

Lemma awaitIO_latency w : latency (awaitIO w) = latency w.
Proof. by apply (awaitIO_frame latency). Qed.

Lemma sleep_clock ms w : clock (sleep ms w) = clock w + ms.
Proof. unfold sleep. by rewrite (processQueue_frame clock). Qed.

Lemma sleep_latency ms w : latency (sleep ms w) = latency w.
Proof. by apply (sleep_frame latency). Qed.

Lemma updateAccount_accessToken hub f l :
  (forall a, accessToken (f a) = accessToken a) ->
  map accessToken (updateAccount hub f l) = map accessToken l.
Proof.
  intros Hf. induction l as [|a l IH]; cbn; [done|].
  case_match; cbn; [by rewrite Hf | by rewrite IH].
Qed.

Lemma awaitIO_credentials w : credentials (awaitIO w) = credentials w.
Proof. by apply (awaitIO_frame credentials). Qed.

Lemma sleep_credentials ms w : credentials (sleep ms w) = credentials w.
Proof. by apply (sleep_frame credentials). Qed.

Lemma credentials_expirationDate w w' :
  credentials w' = credentials w -> expirationDate w' = expirationDate w.
Proof. unfold credentials. by intros [= _ _ ? _]. Qed.

Lemma catchFetchError_credentials hub tryCount w :
  expirationDate w = None ->
  credentials (catchFetchError hub tryCount w) = credentials w.
Proof.
  intros E. unfold catchFetchError. rewrite E. cbn. apply sleep_credentials.
Qed.

Lemma doSearch_credentials k so w : credentials (doSearch k so w).2 = credentials w.
Proof.
  unfold doSearch. destruct (searchApi k (awaitIO w)) as [|[|respond] rest]; cbn [snd];
    try apply awaitIO_credentials;
    (etrans; [|apply awaitIO_credentials]); by destruct k.
Qed.

Lemma searchWithRetry_credentials n k hub so tryCount w :
  expirationDate w = None ->
  credentials (searchWithRetry n k hub so tryCount w).2 = credentials w.
Proof.
  revert tryCount w. induction n as [|n IH]; intros tryCount w E; cbn; [done|].
  case_match; [|done].
  pose proof (doSearch_credentials k so w) as Hd.
  destruct (doSearch k so w) as [[sr|] w1]; cbn in *; [done|].
  assert (expirationDate w1 = None) as E1
    by (by rewrite (credentials_expirationDate _ _ Hd)).
  rewrite IH.
  - by rewrite catchFetchError_credentials.
  - by rewrite (credentials_expirationDate _ _ (catchFetchError_credentials hub _ w1 E1)).
Qed.

Lemma passLoop_credentials fuel k hub lp now :
  forall off w,
    expirationDate w = None ->
    match passLoop fuel k hub lp now off w with
    | Ok _ w' | Throw _ w' => credentials w' = credentials w
    | OutOfFuel => True
    end.
Proof.
  induction fuel as [|fuel IH]; intros off w E; cbn; [done|].
  unfold bind, iteration.
  pose proof (searchWithRetry_credentials 5 k hub (searchObject k off lp now) 0 w E) as Hs.
  destruct (searchWithRetry 5 k hub _ 0 w) as [[sr|] w1]; cbn in Hs; [|done].
  pose proof (processPage_frame credentials ltac:(done) ltac:(done) ltac:(done)
                ltac:(done) ltac:(done) ltac:(done) ltac:(done)
                k lp (default [] (results sr)) w1) as Hp.
  destruct (processPage k lp _ w1) as [[] w2|e w2|]; [| |done].
  - destruct (advance k off _ _) as [e|[|off']]; cbn; try by rewrite Hp.
    specialize (IH off' w2).
    rewrite (credentials_expirationDate _ _ Hp),
            (credentials_expirationDate _ _ Hs) in IH.
    specialize (IH E). destruct (passLoop fuel k hub lp now off' w2);
      by rewrite ?IH, ?Hp.
  - cbn. by rewrite Hp.
Qed.

End Credentials.

(** A successful exchange installs the new token everywhere. When the
    account exists and [createToken] answers, [refreshAccessToken] returns
    [true]; the client holds the new token; the expiry is [expiresIn]
    seconds after the instant the answer arrived; the account found by
    [hubId] holds the new token and keeps its refresh token and its
    watermarks; no watermark of any account changes. *)
Theorem refresh_installs_new_token
    (hub : string) (w : World) (account : Account) (body : TokenBody)
    (rest : list (option TokenBody)) :
  findAccount hub (accounts (domain w)) = Some account ->
  tokenApi w = Some body :: rest ->
  let r := refreshAccessToken hub w in
  r.1 = true
  /\ clientToken r.2 = newAccessToken body
  /\ expirationDate r.2 = Some (expiresIn body * 1000 + (clock w + latency w))
  /\ tokenApi r.2 = rest
  /\ (exists a', findAccount hub (accounts (domain r.2)) = Some a'
                 /\ accessToken a' = newAccessToken body
                 /\ refreshToken a' = refreshToken account
                 /\ lastPulledDates a' = lastPulledDates account)
  /\ watermarks r.2 = watermarks w.
Proof.
  intros Ea Et. cbn zeta.
  pose proof (refreshAccessToken_watermarks hub w) as Hw.
  unfold refreshAccessToken in *. rewrite Ea in *.
  rewrite awaitIO_tokenApi, Et in *.
  destruct (negb (newAccessToken body =? accessToken account)%string) eqn:En;
    cbn [fst snd] in *; (split; [done|]); cbn.
  - rewrite awaitIO_clock. repeat (split; [done|]). split; [|done].
    rewrite awaitIO_domain, findAccount_update, Ea by done. by eexists.
  - rewrite awaitIO_clock. repeat (split; [done|]). split; [|done].
    rewrite awaitIO_domain, Ea. exists account.
    apply negb_false_iff, String.eqb_eq in En. by rewrite En.
Qed.

Lemma refresh_installs_new_token_witness :
  let w := set_tokenApi [Some {| newAccessToken := "fresh"; expiresIn := 1800 |}]
             sampleWorld in
  let r := refreshAccessToken "hub2" w in
  r.1 = true
  /\ clientToken r.2 = "fresh"
  /\ expirationDate r.2 = Some (1800 * 1000 + (50000 + 7))
  /\ tokenApi r.2 = []
  /\ (exists a', findAccount "hub2" (accounts (domain r.2)) = Some a'
                 /\ accessToken a' = "fresh"
                 /\ refreshToken a' = refreshToken (sampleAccount "hub2")
                 /\ lastPulledDates a' = lastPulledDates (sampleAccount "hub2"))
  /\ watermarks r.2 = watermarks w.
Proof.
  apply (refresh_installs_new_token "hub2"
           (set_tokenApi [Some {| newAccessToken := "fresh"; expiresIn := 1800 |}]
              sampleWorld)
           (sampleAccount "hub2") {| newAccessToken := "fresh"; expiresIn := 1800 |} []);
    reflexivity.
Defined.

(** A failed exchange leaves the credentials untouched. When no account has
    the [hubId], or [createToken] rejects, [refreshAccessToken] returns
    [false] and the account document, the token of the client and the expiry
    are as before. *)
Theorem failed_refresh_keeps_credentials (hub : string) (w : World) :
  refreshFails hub w ->
  let r := refreshAccessToken hub w in
  r.1 = false
  /\ domain r.2 = domain w
  /\ clientToken r.2 = clientToken w
  /\ expirationDate r.2 = expirationDate w.
Proof.
  intros Hf. cbn zeta. unfold refreshAccessToken.
  destruct (findAccount hub (accounts (domain w))) as [account|] eqn:Ea; [|done].
  destruct Hf as [Hf|Hf]; [congruence|].
  rewrite awaitIO_tokenApi.
  destruct (tokenApi w) as [|[body|] rest]; [|done|]; cbn;
    rewrite awaitIO_domain; repeat split;
    first [by apply (awaitIO_frame clientToken) | by apply (awaitIO_frame expirationDate)].
Qed.

Lemma failed_refresh_keeps_credentials_witness :
  let w := set_tokenApi [None] sampleWorld in
  let r := refreshAccessToken "hub1" w in
  r.1 = false
  /\ domain r.2 = domain w
  /\ clientToken r.2 = clientToken w
  /\ expirationDate r.2 = expirationDate w.
Proof.
  apply (failed_refresh_keeps_credentials "hub1" (set_tokenApi [None] sampleWorld)).
  right. exact I.
Defined.

(** While the expiry is undefined, a pass never refreshes the token. The
    retry loop compares the clock with [expirationDate]; an undefined
    [expirationDate] makes the comparison false, so whatever fails, however
    often, the pass leaves the token endpoint uncalled, and the token of the
    client, the expiry and every account's token as they were. *)
Theorem no_refresh_while_expiry_undefined
    (fuel : nat) (k : EntityKind) (hub : string) (w w' : World) (b : bool) :
  expirationDate w = None ->
  processEntity fuel k hub w = Ok b w' ->
  tokenApi w' = tokenApi w
  /\ clientToken w' = clientToken w
  /\ expirationDate w' = None
  /\ map accessToken (accounts (domain w')) = map accessToken (accounts (domain w)).
Proof.
  intros E Hrun.
  assert (credentials w' = credentials w) as Hc.
  { revert Hrun. unfold processEntity, tryCatch.
    destruct (findAccount hub (accounts (domain w))) as [account|] eqn:Ea.
    - rewrite (passBody_found _ _ _ _ _ Ea).
      pose proof (passLoop_credentials fuel k hub
                    (getWatermark k (lastPulledDates account)) (Some (clock w))
                    emptyOffset w E) as Hl.
      destruct (passLoop fuel k hub _ _ emptyOffset w) as [[] w1|e w1|]; [| |done].
      + intros [= <- <-]. rewrite <- Hl. unfold credentials, commitWatermark. cbn.
        by rewrite updateAccount_accessToken.
      + by intros [= <- <-].
    - unfold passBody. rewrite Ea. by intros [= <- <-]. }
  unfold credentials in Hc. injection Hc as ? ? ? ?. rewrite <- E. done.
Qed.

Lemma no_refresh_while_expiry_undefined_witness :
  tokenApi (worldOf (processEntity 1 Contacts "hub1" contactsDown) sampleWorld)
  = tokenApi contactsDown
  /\ clientToken (worldOf (processEntity 1 Contacts "hub1" contactsDown) sampleWorld)
     = clientToken contactsDown
  /\ expirationDate (worldOf (processEntity 1 Contacts "hub1" contactsDown) sampleWorld)
     = None
  /\ map accessToken
       (accounts (domain (worldOf (processEntity 1 Contacts "hub1" contactsDown)
                            sampleWorld)))
     = map accessToken (accounts (domain contactsDown)).
Proof.
  apply (no_refresh_while_expiry_undefined 1 Contacts "hub1" contactsDown _ false).
  - reflexivity.
  - by vm_compute.
Defined.

(** ** The retry schedule *)

Section Backoff.

Implicit Types (w u : World) (k : EntityKind) (hub : string).

Lemma refreshAccessToken_clock hub w :
  0 <= latency w ->
  clock w <= clock (refreshAccessToken hub w).2
  /\ latency (refreshAccessToken hub w).2 = latency w.
Proof.
  intros Hl. unfold refreshAccessToken.
  destruct (findAccount hub (accounts (domain w))) as [account|]; [|by cbn; split; [lia|]].
  destruct (tokenApi (awaitIO w)) as [|[body|] rest]; [|case_match|]; cbn;
    rewrite ?awaitIO_clock, ?awaitIO_latency; (split; [lia|done]).
Qed.

Lemma catchFetchError_clock hub tryCount w :
  0 <= latency w ->
  clock w + 5000 * 2 ^ tryCount <= clock (catchFetchError hub tryCount w)
  /\ latency (catchFetchError hub tryCount w) = latency w
  /\ (expirationDate w = None ->
      clock (catchFetchError hub tryCount w) = clock w + 5000 * 2 ^ tryCount
      /\ expirationDate (catchFetchError hub tryCount w) = None).
Proof.
  intros Hl. unfold catchFetchError. rewrite sleep_clock, sleep_latency.
  destruct (refreshAccessToken_clock hub w Hl) as [Hc Hla].
  split; [case_match; lia|]. split; [by case_match|].
  intros E. rewrite E. cbn. split; [done|]. by rewrite (sleep_frame expirationDate).
Qed.

Lemma awaitIO_expirationDate w : expirationDate (awaitIO w) = expirationDate w.
Proof. by apply (awaitIO_frame expirationDate). Qed.

Lemma doSearch_clock k so w :
  clock (doSearch k so w).2 = clock w + latency w
  /\ latency (doSearch k so w).2 = latency w
  /\ expirationDate (doSearch k so w).2 = expirationDate w.
Proof.
  unfold doSearch.
  destruct (searchApi k (awaitIO w)) as [|[|respond] rest]; cbn [snd];
    rewrite <- (awaitIO_clock w), <- (awaitIO_latency w),
            <- (awaitIO_expirationDate w);
    by destruct k.
Qed.

(** The clock after [j] failed attempts followed by a success. *)
Lemma retry_clock k hub so respond s' j :
  forall attempts tryCount u,
    searchApi k u = replicate j SearchFails ++ SearchOk respond :: s' ->
    0 <= tryCount -> tryCount + Z.of_nat j <= 4 -> Z.of_nat attempts + tryCount = 5 ->
    0 <= latency u ->
    let res := searchWithRetry attempts k hub so tryCount u in
    let waited := (Z.of_nat j + 1) * latency u
                  + 5000 * (2 ^ (tryCount + Z.of_nat j + 1) - 2 ^ (tryCount + 1)) in
    clock u + waited <= clock res.2
    /\ (expirationDate u = None -> clock res.2 = clock u + waited).
Proof.
  induction j as [|j IH]; intros attempts tryCount u Hs H0 Hj Ha Hl;
    (destruct attempts as [|attempts]; [lia|]); cbn [searchWithRetry];
    (rewrite (proj2 (Z.leb_le tryCount 4)) by lia);
    pose proof (doSearch_script k so u) as Hd; pose proof (doSearch_clock k so u) as Hc;
    rewrite Hs in Hd; cbn in Hd;
    destruct (doSearch k so u) as [r u1]; cbn in Hd, Hc;
    destruct Hd as [-> Hs1]; destruct Hc as (Hc & Hla & He); cbn zeta; cbn [fst snd].
  - replace (tryCount + Z.of_nat 0 + 1) with (tryCount + 1) by lia.
    change (Z.of_nat 0) with 0. set (p := 2 ^ (tryCount + 1)). split; [lia|intros; lia].
  - destruct (catchFetchError_clock hub (tryCount + 1) u1 ltac:(lia)) as (C1 & C2 & C3).
    destruct (IH attempts (tryCount + 1) (catchFetchError hub (tryCount + 1) u1))
      as [R1 R2]; [|lia|lia|lia|lia|].
    { erewrite remote_searchApi; [|apply catchFetchError_remote]. done. }
    cbn zeta in R1, R2. rewrite C2, Hla in R1, R2.
    replace (tryCount + 1 + Z.of_nat j + 1) with (tryCount + Z.of_nat (S j) + 1) in * by lia.
    assert (2 ^ (tryCount + 1 + 1) = 2 * 2 ^ (tryCount + 1)) as Ep
      by (replace (tryCount + 1 + 1) with (Z.succ (tryCount + 1)) by lia;
          by rewrite Z.pow_succ_r by lia).
    rewrite Ep in *.
    split.
    + nia.
    + intros E. rewrite <- He in E. destruct (C3 E) as [C3a C3b].
      rewrite (R2 C3b). nia.
Qed.

(** The clock after the loop has run out of attempts. *)
Lemma exhausted_clock k hub so n :
  forall tryCount u,
    allFail n (searchApi k u) -> 0 <= tryCount -> Z.of_nat n + tryCount = 5 ->
    0 <= latency u ->
    let res := searchWithRetry n k hub so tryCount u in
    let waited := Z.of_nat n * latency u
                  + 5000 * (2 ^ (tryCount + Z.of_nat n + 1) - 2 ^ (tryCount + 1)) in
    clock u + waited <= clock res.2
    /\ (expirationDate u = None -> clock res.2 = clock u + waited)
    /\ searchApi k res.2 = drop n (searchApi k u).
Proof.
  induction n as [|n IH]; intros tryCount u Hf H0 Ha Hl; cbn [searchWithRetry].
  - replace (tryCount + Z.of_nat 0 + 1) with (tryCount + 1) by lia.
    rewrite drop_0. cbn [snd]. change (Z.of_nat 0) with 0. set (p := 2 ^ (tryCount + 1)).
    split; [lia|]. split; [intros; lia|done].
  - rewrite (proj2 (Z.leb_le tryCount 4)) by lia.
    pose proof (doSearch_script k so u) as Hd. pose proof (doSearch_clock k so u) as Hc.
    destruct (doSearch k so u) as [r u1]. cbn in Hd, Hc.
    destruct Hc as (Hc & Hla & He).
    assert (r = None /\ searchApi k u1 = drop 1 (searchApi k u)
            /\ allFail n (searchApi k u1)) as (-> & Hs1 & Hf1).
    { destruct (searchApi k u) as [|o s] eqn:Es.
      - destruct Hd as [-> ->]. repeat split; try done. unfold allFail. by rewrite take_nil.
      - apply allFail_tail in Hf as [-> Hf]. by destruct Hd as [-> ->]. }
    destruct (catchFetchError_clock hub (tryCount + 1) u1 ltac:(lia)) as (C1 & C2 & C3).
    destruct (IH (tryCount + 1) (catchFetchError hub (tryCount + 1) u1))
      as (R1 & R2 & R3); [|lia|lia|lia|].
    { erewrite remote_searchApi; [|apply catchFetchError_remote]. done. }
    cbn zeta in *. rewrite C2, Hla in R1, R2.
    replace (tryCount + 1 + Z.of_nat n + 1) with (tryCount + Z.of_nat (S n) + 1) in * by lia.
    assert (2 ^ (tryCount + 1 + 1) = 2 * 2 ^ (tryCount + 1)) as Ep
      by (replace (tryCount + 1 + 1) with (Z.succ (tryCount + 1)) by lia;
          by rewrite Z.pow_succ_r by lia).
    rewrite Ep in *.
    split; [nia|]. split.
    + intros E. rewrite <- He in E. destruct (C3 E) as [C3a C3b].
      rewrite (R2 C3b). nia.
    + rewrite R3. erewrite remote_searchApi; [|apply catchFetchError_remote].
      rewrite Hs1. by rewrite drop_drop.
Qed.

End Backoff.

(** The retry schedule of one fetch. A search that fails [j] times, at
    most four, and then answers is returned after [j + 1] calls; the fetch
    has then waited [j + 1] call latencies and backoffs of 10, 20, 40 and 80
    seconds, 10000 * (2^j - 1) ms in all, and longer only by the token
    refreshes made on the way. After five failures the fetch gives up,
    having made five calls and backed off five times, 310 seconds in all:
    the loop sleeps 160 seconds more after the last failure, before the pass
    throws. *)
Theorem retry_schedule
    (k : EntityKind) (hub : string) (so : SearchObject) (w : World) :
  0 <= latency w ->
  (forall (j : nat) respond s',
      (j <= 4)%nat ->
      searchApi k w = replicate j SearchFails ++ SearchOk respond :: s' ->
      let res := searchWithRetry 5 k hub so 0 w in
      let waited := (Z.of_nat j + 1) * latency w + 10000 * (2 ^ Z.of_nat j - 1) in
      res.1 = Some (respond so)
      /\ searchApi k res.2 = s'
      /\ clock w + waited <= clock res.2
      /\ (expirationDate w = None -> clock res.2 = clock w + waited))
  /\ (allFail 5 (searchApi k w) ->
      let res := searchWithRetry 5 k hub so 0 w in
      let waited := 5 * latency w + 310000 in
      res.1 = None
      /\ searchApi k res.2 = drop 5 (searchApi k w)
      /\ clock w + waited <= clock res.2
      /\ (expirationDate w = None -> clock res.2 = clock w + waited)).
Proof.
  intros Hl. split.
  - intros j respond s' Hj Hs. cbn zeta.
    destruct (retry_fails k hub so respond s' j 5 0 w Hs) as (A1 & _ & A3 & _);
      [lia|lia|lia|].
    destruct (retry_clock k hub so respond s' j 5 0 w Hs) as [B1 B2]; [lia|lia|lia|lia|].
    cbn zeta in B1, B2.
    replace (5000 * (2 ^ (0 + Z.of_nat j + 1) - 2 ^ (0 + 1)))
      with (10000 * (2 ^ Z.of_nat j - 1)) in *.
    + done.
    + replace (0 + Z.of_nat j + 1) with (Z.succ (Z.of_nat j)) by lia.
      rewrite Z.pow_succ_r by lia. change (2 ^ (0 + 1)) with 2. lia.
  - intros Hf. cbn zeta.
    pose proof (searchWithRetry_exhausted 5 k hub so 0 w Hf) as A1.
    destruct (exhausted_clock k hub so 5 0 w Hf) as (B1 & B2 & B3); [lia|lia|lia|].
    cbn zeta in B1, B2.
    change (5000 * (2 ^ (0 + Z.of_nat 5 + 1) - 2 ^ (0 + 1))) with 310000 in *.
    change (Z.of_nat 5) with 5 in *. done.
Qed.

Lemma retry_schedule_witness :
  let w := set_companySearch (replicate 3 SearchFails ++ [page twoCompanies None])
             sampleWorld in
  let res := searchWithRetry 5 Companies "hub1"
               (searchObject Companies emptyOffset (Some 1000) (Some 50000)) 0 w in
  res.1 = Some {| results := Some twoCompanies; nextAfter := None |}
  /\ searchApi Companies res.2 = []
  /\ clock w + (4 * 7 + 70000) <= clock res.2
  /\ (expirationDate w = None -> clock res.2 = clock w + (4 * 7 + 70000)).
Proof.
  cbn zeta.
  pose proof (retry_schedule Companies "hub1"
                (searchObject Companies emptyOffset (Some 1000) (Some 50000))
                (set_companySearch (replicate 3 SearchFails ++ [page twoCompanies None])
                   sampleWorld) ltac:(cbn; lia)) as [H _].
  exact (H 3%nat _ [] ltac:(lia) eq_refl).
Defined.

(** ** Termination *)

Section Termination.

Implicit Types (w u : World) (k : EntityKind) (hub : string) (lp now : Time).

Lemma forEachM_returns {A} (f : A -> M unit) l w :
  (forall x u, f x u <> OutOfFuel) -> forEachM f l w <> OutOfFuel.
Proof.
  intros Hf. revert w. induction l as [|x l IH]; intros w; cbn; [done|].
  unfold bind. specialize (Hf x w). destruct (f x w) as [[] u|e u|]; [apply IH|done|done].
Qed.

(** The transformation of a page always comes back. *)
Lemma processPage_returns k lp data w : processPage k lp data w <> OutOfFuel.
Proof.
  pose proof (processPage_emitsFor k lp data w) as H.
  by destruct (processPage k lp data w).
Qed.

(** A fetch never lengthens the script, and shortens it when it succeeds. *)
Lemma searchWithRetry_length n k hub so tryCount w :
  let res := searchWithRetry n k hub so tryCount w in
  (length (searchApi k res.2) <= length (searchApi k w))%nat
  /\ (is_Some res.1 -> (length (searchApi k res.2) < length (searchApi k w))%nat)
  /\ (forall k', k' <> k -> searchApi k' res.2 = searchApi k' w).
Proof.
  revert tryCount w. induction n as [|n IH]; intros tryCount w; cbn [searchWithRetry].
  - cbn. split; [lia|]. split; [by intros []|done].
  - case_match; [|cbn; split; [lia|]; split; [by intros []|done]].
    pose proof (doSearch_script k so w) as Hd. pose proof (doSearch_world k so w) as Hw.
    destruct (doSearch k so w) as [r u1]. cbn in Hd, Hw. destruct Hw as (_ & _ & Ho).
    assert (forall k', searchApi k' (catchFetchError hub (tryCount + 1) u1)
                       = searchApi k' u1) as Hc
      by (intros; apply remote_searchApi, catchFetchError_remote).
    destruct (searchApi k w) as [|[|respond] rest] eqn:Es; destruct Hd as [-> Hs]; cbn zeta.
    + destruct (IH (tryCount + 1) (catchFetchError hub (tryCount + 1) u1)) as (I1 & I2 & I3).
      cbn zeta in *. rewrite Hc, Hs in I1, I2. cbn in I1, I2.
      split; [lia|]. split; [intros Hs'; specialize (I2 Hs'); lia|].
      intros k' Hk. rewrite I3, Hc by done. by apply Ho.
    + destruct (IH (tryCount + 1) (catchFetchError hub (tryCount + 1) u1)) as (I1 & I2 & I3).
      cbn zeta in *. rewrite Hc, Hs in I1, I2. cbn.
      split; [lia|]. split; [intros Hs'; specialize (I2 Hs'); lia|].
      intros k' Hk. rewrite I3, Hc by done. by apply Ho.
    + cbn. rewrite Hs. split; [lia|]. split; [intros; lia|done].
Qed.

Lemma iteration_length k hub lp now off w :
  match iteration k hub lp now off w with
  | Ok step w' =>
      (length (searchApi k w') < length (searchApi k w))%nat
      /\ (forall k', k' <> k -> searchApi k' w' = searchApi k' w)
  | Throw _ w' =>
      (length (searchApi k w') <= length (searchApi k w))%nat
      /\ (forall k', k' <> k -> searchApi k' w' = searchApi k' w)
  | OutOfFuel => False
  end.
Proof.
  unfold iteration.
  destruct (searchWithRetry_length 5 k hub (searchObject k off lp now) 0 w) as (H1 & H2 & H3).
  destruct (searchWithRetry 5 k hub _ 0 w) as [[sr|] w1]; cbn in *; [|done].
  specialize (H2 ltac:(done)).
  pose proof (fun k' => processPage_searchApi k' k lp (default [] (results sr)) w1) as Hp.
  pose proof (processPage_returns k lp (default [] (results sr)) w1) as Hr.
  destruct (processPage k lp _ w1) as [[] w2|e w2|]; [| |done].
  - destruct (advance k off _ _); rewrite Hp;
      (split; [lia|]); intros k' Hk; by rewrite Hp, H3.
  - rewrite Hp. split; [lia|]. intros k' Hk. by rewrite Hp, H3.
Qed.

Lemma passLoop_length fuel k hub lp now :
  forall off w,
    (length (searchApi k w) < fuel)%nat ->
    match passLoop fuel k hub lp now off w with
    | Ok _ w' | Throw _ w' =>
        (length (searchApi k w') <= length (searchApi k w))%nat
        /\ (forall k', k' <> k -> searchApi k' w' = searchApi k' w)
    | OutOfFuel => False
    end.
Proof.
  induction fuel as [|fuel IH]; intros off w Hlen; [lia|]. cbn. unfold bind.
  pose proof (iteration_length k hub lp now off w) as Hi.
  destruct (iteration k hub lp now off w) as [[|off'] w1|e w1|]; [| |done|done].
  - destruct Hi. split; [lia|done].
  - destruct Hi as [H1 H2]. specialize (IH off' w1 ltac:(lia)).
    destruct (passLoop fuel k hub lp now off' w1); [| |done];
      destruct IH as [I1 I2]; (split; [lia|]); intros k' Hk; by rewrite I2, H2.
Qed.

(** More fuel does not change a result. *)
Lemma passLoop_more_fuel fuel k hub lp now :
  forall off w,
    passLoop fuel k hub lp now off w <> OutOfFuel ->
    passLoop (S fuel) k hub lp now off w = passLoop fuel k hub lp now off w.
Proof.
  induction fuel as [|fuel IH]; intros off w Hr; [done|].
  change (passLoop (S (S fuel)) k hub lp now off w)
    with (bind (iteration k hub lp now off)
            (fun step => match step with
                         | Done => ret tt
                         | Again off' => passLoop (S fuel) k hub lp now off'
                         end) w).
  cbn [passLoop] in *. unfold bind in *.
  destruct (iteration k hub lp now off w) as [[|off'] w1|e w1|]; try done.
  by apply IH.
Qed.

Lemma passLoop_fuel_le fuel fuel' k hub lp now off w :
  (fuel <= fuel')%nat ->
  passLoop fuel k hub lp now off w <> OutOfFuel ->
  passLoop fuel' k hub lp now off w = passLoop fuel k hub lp now off w.
Proof.
  induction 1 as [|fuel' Hle IH]; intros Hr; [done|].
  rewrite passLoop_more_fuel; rewrite IH; done.
Qed.

Lemma commitWatermark_searchApi k' k hub t w :
  searchApi k' (commitWatermark k hub t w) = searchApi k' w.
Proof. by destruct k'. Qed.

Lemma processEntity_length fuel k hub w :
  (length (searchApi k w) < fuel)%nat ->
  exists b w',
    processEntity fuel k hub w = Ok b w'
    /\ (length (searchApi k w') <= length (searchApi k w))%nat
    /\ (forall k', k' <> k -> searchApi k' w' = searchApi k' w).
Proof.
  intros Hlen. unfold processEntity, tryCatch.
  destruct (findAccount hub (accounts (domain w))) as [account|] eqn:Ea.
  - rewrite (passBody_found _ _ _ _ _ Ea).
    pose proof (passLoop_length fuel k hub (getWatermark k (lastPulledDates account))
                  (Some (clock w)) emptyOffset w Hlen) as Hl.
    destruct (passLoop fuel k hub _ _ emptyOffset w) as [[] w1|e w1|]; [| |done];
      destruct Hl as [H1 H2]; eexists _, _; (split; [done|]);
      (split; [by rewrite ?commitWatermark_searchApi|]); intros k' Hk;
      rewrite ?commitWatermark_searchApi; by apply H2.
  - unfold passBody. rewrite Ea. by eexists _, _.
Qed.

End Termination.

(** A pass need not end. After a reset the loop asks for the records
    modified since the stored instant, from the cursor 0. However many times
    the remote answers that request with a page whose next cursor is at the
    depth limit and whose last company was modified at the stored instant,
    the loop takes every one of these answers, pushes the actions of every
    one of these pages again, and stands where it stood: at the same offset,
    about to issue the same request. That many runs of the loop body do not
    end the pass. *)
Theorem reset_without_progress_repeats_the_request
    (fuel : nat) (hub : string) (lp now t : Time)
    (responds : list (SearchObject -> SearchResult)) (rest : list SearchOutcome) (w : World) :
  let off := {| offAfter := Some 0; offLastModifiedDate := t |} in
  let request := searchObject Companies off lp now in
  searchApi Companies w = map SearchOk responds ++ rest ->
  Forall (fun respond =>
            (exists c, parseInt (nextAfter (respond request)) = Some c /\ 9900 <= c)
            /\ lastModifiedOf Companies (default [] (results (respond request))) = inr t)
         responds ->
  exists w',
    passLoop (length responds + fuel) Companies hub lp now off w
    = passLoop fuel Companies hub lp now off w'
    /\ searchApi Companies w' = rest
    /\ emitsFor Companies lp
         (flat_map (fun respond => default [] (results (respond request))) responds) w w'
    /\ passLoop (length responds) Companies hub lp now off w = OutOfFuel.
Proof.
  intros off request Hs Hr.
  assert (exists w',
    (forall fuel', passLoop (length responds + fuel') Companies hub lp now off w
                   = passLoop fuel' Companies hub lp now off w')
    /\ searchApi Companies w' = rest
    /\ emitsFor Companies lp
         (flat_map (fun respond => default [] (results (respond request))) responds) w w')
    as (w' & Hrun & Hrest & Hem).
  { clear fuel. revert w Hs. induction Hr as [|respond responds [(c & Hc & Hge) Ht] _ IH];
      intros w Hs.
    - exists w. split; [done|]. split; [done|]. by apply emitsFor_nil.
    - cbn [map app] in Hs.
      pose proof (doSearch_script Companies request w) as Hd.
      pose proof (doSearch_accepted Companies request w) as Ha.
      rewrite Hs in Hd. destruct Hd as [Hd1 Hd2].
      destruct (doSearch Companies request w) as [r w1] eqn:Ed. cbn in Hd1, Hd2, Ha.
      subst r. set (data := default [] (results (respond request))) in *.
      pose proof (processPage_emitsFor Companies lp data w1) as Hp.
      pose proof (processPage_searchApi Companies Companies lp data w1) as Hq.
      destruct (processPage Companies lp data w1) as [[] w2|e w2|] eqn:Ep; [|done|done].
      destruct (IH w2) as (w' & Hrun & Hrest & Hem); [by rewrite Hq|].
      exists w'. split; [|split; [done|]].
      + intros fuel'. cbn [length Nat.add passLoop]. unfold bind, iteration.
        fold request. cbn [searchWithRetry]. rewrite Ed.
        change (0 <=? 4) with true. cbv iota. fold data. rewrite Ep, Hc.
        unfold advance. cbn [truthyNum]. change (default 0 (Some c)) with c.
        fold data. rewrite Ht.
        assert (negb (c =? 0) = true) as -> by (apply negb_true_iff, Z.eqb_neq; lia).
        assert ((9900 <=? c) = true) as -> by (by apply Z.leb_le).
        cbn. apply Hrun.
      + cbn [flat_map]. eapply emitsFor_app; [|exact Hem].
        by eapply emitsFor_before. }
  exists w'. split; [apply Hrun|]. split; [done|]. split; [done|].
  specialize (Hrun 0%nat). rewrite Nat.add_0_r in Hrun. by rewrite Hrun.
Qed.

Lemma reset_without_progress_repeats_the_request_witness :
  exists w',
    passLoop (3 + 1) Companies "hub1" (Some 1000) (Some 9000)
      {| offAfter := Some 0; offLastModifiedDate := Some 1000 |} repeatingRun
    = passLoop 1 Companies "hub1" (Some 1000) (Some 9000)
        {| offAfter := Some 0; offLastModifiedDate := Some 1000 |} w'
    /\ searchApi Companies w' = []
    /\ emitsFor Companies (Some 1000)
         (replicate 3 (sampleRecord "c" 500 1000)) repeatingRun w'
    /\ passLoop 3 Companies "hub1" (Some 1000) (Some 9000)
         {| offAfter := Some 0; offLastModifiedDate := Some 1000 |} repeatingRun
       = OutOfFuel.
Proof.
  apply (reset_without_progress_repeats_the_request 1 "hub1" (Some 1000) (Some 9000)
           (Some 1000) (replicate 3 respondAtLimit) [] repeatingRun).
  - reflexivity.
  - cbn [replicate].
    repeat (apply List.Forall_cons;
            [split; [exists 9900; split; [by vm_compute|lia]|reflexivity]|]).
    apply List.Forall_nil.
Defined.

(** ** The run over the accounts *)

Section Run.

Implicit Types (w u : World) (k : EntityKind) (hub : string).

Lemma createQueue_searchApi k w : searchApi k (createQueue w) = searchApi k w.
Proof. by destruct k. Qed.

Lemma drainQueue_remote w : remote (drainQueue w) = remote w.
Proof.
  unfold drainQueue.
  set (w1 := if 0 <? Z.of_nat (length (waiting w)) then processQueue w else w).
  assert (remote w1 = remote w) as H1
    by (unfold w1; destruct (0 <? Z.of_nat (length (waiting w)));
        [apply processQueue_remote|done]).
  by destruct (0 <? Z.of_nat (length (actions w1))).
Qed.

Lemma drainQueue_domain w : domain (drainQueue w) = domain w.
Proof.
  unfold drainQueue.
  set (w1 := if 0 <? Z.of_nat (length (waiting w)) then processQueue w else w).
  assert (domain w1 = domain w) as H1
    by (unfold w1; destruct (0 <? Z.of_nat (length (waiting w)));
        [apply (processQueue_frame domain); by intros|done]).
  by destruct (0 <? Z.of_nat (length (actions w1))).
Qed.

Lemma drainQueue_waiting w : waiting (drainQueue w) = [].
Proof.
  unfold drainQueue.
  set (w1 := if 0 <? Z.of_nat (length (waiting w)) then processQueue w else w).
  assert (waiting w1 = []) as H1.
  { unfold w1. destruct (0 <? Z.of_nat (length (waiting w))) eqn:E.
    - apply processQueue_waiting.
    - apply Z.ltb_ge in E. destruct (waiting w); [done|cbn in E; lia]. }
  by destruct (0 <? Z.of_nat (length (actions w1))).
Qed.

Lemma awaitIO_idle_delivered w : waiting w = [] -> delivered (awaitIO w) = delivered w.
Proof. intros E. unfold awaitIO. by rewrite processQueue_idle. Qed.

Lemma refreshAccessToken_delivered hub w :
  waiting w = [] -> delivered (refreshAccessToken hub w).2 = delivered w.
Proof.
  intros E. unfold refreshAccessToken.
  destruct (findAccount hub (accounts (domain w))) as [account|]; [|done].
  destruct (tokenApi (awaitIO w)) as [|[body|] rest]; [|case_match|];
    cbn [snd]; change (delivered (awaitIO w) = delivered w); by apply awaitIO_idle_delivered.
Qed.

Lemma hubIds_watermarks w : map hubId (accounts (domain w)) = map fst (watermarks w).
Proof. unfold watermarks. by rewrite map_map. Qed.

Lemma commitIn_fst k hub t l : map fst (commitIn k hub t l) = map fst l.
Proof.
  induction l as [|[h d] l IH]; cbn; [done|]. case_match; cbn; [done|]. by rewrite IH.
Qed.

(** What a pass does to the watermarks, by its result. *)
Lemma processEntity_watermarks fuel k hub w b w' :
  processEntity fuel k hub w = Ok b w' ->
  watermarks w' = if b then commitIn k hub (Some (clock w)) (watermarks w) else watermarks w.
Proof.
  destruct b; [|apply processEntity_false_watermarks].
  unfold processEntity, tryCatch.
  destruct (findAccount hub (accounts (domain w))) as [account|] eqn:Ea;
    [|by unfold passBody; rewrite Ea].
  rewrite (passBody_found _ _ _ _ _ Ea).
  pose proof (passLoop_watermarks fuel k hub
    (getWatermark k (lastPulledDates account)) (Some (clock w)) emptyOffset w) as Hl.
  destruct (passLoop fuel k hub _ _ emptyOffset w) as [[] w1|e w1|]; cbn; [|done|done].
  intros [= <-]. by rewrite commitWatermark_watermarks, Hl.
Qed.

Lemma processEntity_hubIds fuel k hub w b w' :
  processEntity fuel k hub w = Ok b w' ->
  map hubId (accounts (domain w')) = map hubId (accounts (domain w)).
Proof.
  intros H. rewrite !hubIds_watermarks, (processEntity_watermarks _ _ _ _ _ _ H).
  destruct b; [apply commitIn_fst|done].
Qed.

Lemma findAccount_commitIn k k' hub t l l' :
  k' <> k ->
  map (fun a => (hubId a, lastPulledDates a)) l'
  = commitIn k hub t (map (fun a => (hubId a, lastPulledDates a)) l) ->
  (fun a => getWatermark k' (lastPulledDates a)) <$> findAccount hub l'
  = (fun a => getWatermark k' (lastPulledDates a)) <$> findAccount hub l.
Proof.
  intros Hk. revert l'. induction l as [|a l IH]; intros [|a' l'] E; cbn in *; try done.
  - by destruct (String.eqb (hubId a) hub).
  - destruct (String.eqb (hubId a) hub) eqn:Eh; injection E as E1 E2 E3.
    + rewrite E1, Eh. cbn. rewrite E2. by destruct k, k'.
    + rewrite E1, Eh. by apply IH.
Qed.

(** A pass leaves the watermarks of the other kinds of its account alone. *)
Lemma processEntity_other_watermark fuel k k' hub w b w' :
  k' <> k ->
  processEntity fuel k hub w = Ok b w' ->
  (fun a => getWatermark k' (lastPulledDates a)) <$> findAccount hub (accounts (domain w'))
  = (fun a => getWatermark k' (lastPulledDates a)) <$> findAccount hub (accounts (domain w)).
Proof.
  intros Hk H. pose proof (processEntity_watermarks _ _ _ _ _ _ H) as Hw. destruct b.
  - by apply (findAccount_commitIn k k' hub (Some (clock w))).
  - pose proof (findAccount_watermarks hub _ _ Hw) as Hf.
    destruct (findAccount hub (accounts (domain w'))), (findAccount hub (accounts (domain w)));
      cbn in *; congruence.
Qed.

Lemma pullAccount_unfold fuel hub w b1 w1 b2 w2 b3 w3 :
  processEntity fuel Contacts hub (createQueue (refreshAccessToken hub w).2) = Ok b1 w1 ->
  processEntity fuel Companies hub w1 = Ok b2 w2 ->
  processEntity fuel Meetings hub w2 = Ok b3 w3 ->
  pullAccount fuel hub w = Ok tt (drainQueue w3).
Proof.
  intros H1 H2 H3.
  unfold pullAccount, processContacts, processCompanies, processMeetings,
    logged, tryCatch, bind, modify, ret, saveDomain.
  by rewrite H1, H2, H3.
Qed.

Lemma refreshQueue_searchApi k hub w :
  searchApi k (createQueue (refreshAccessToken hub w).2) = searchApi k w.
Proof.
  rewrite createQueue_searchApi. apply remote_searchApi, refreshAccessToken_remote.
Qed.

(** A pass of one kind leaves the search endpoints of the other kinds
    alone. *)
Lemma passLoop_other_script fuel k hub lp now k' :
  k' <> k ->
  forall off w,
    match passLoop fuel k hub lp now off w with
    | Ok _ w' | Throw _ w' => searchApi k' w' = searchApi k' w
    | OutOfFuel => True
    end.
Proof.
  intros Hk. induction fuel as [|fuel IH]; intros off w; cbn [passLoop]; [done|].
  unfold bind. pose proof (iteration_length k hub lp now off w) as Hi.
  destruct (iteration k hub lp now off w) as [[|off'] w1|e w1|]; [| |by apply Hi|done].
  - by apply Hi.
  - specialize (IH off' w1). destruct Hi as [_ Hi].
    destruct (passLoop fuel k hub lp now off' w1); [| |done]; by rewrite IH, Hi.
Qed.

Lemma processEntity_other_script fuel k k' hub w b w' :
  k' <> k -> processEntity fuel k hub w = Ok b w' -> searchApi k' w' = searchApi k' w.
Proof.
  intros Hk. unfold processEntity, tryCatch.
  destruct (findAccount hub (accounts (domain w))) as [account|] eqn:Ea.
  - rewrite (passBody_found _ _ _ _ _ Ea).
    pose proof (passLoop_other_script fuel k hub (getWatermark k (lastPulledDates account))
                  (Some (clock w)) k' Hk emptyOffset w) as Hl.
    destruct (passLoop fuel k hub _ _ emptyOffset w) as [[] w1|e w1|]; [| |done].
    + intros [= _ <-]. by rewrite commitWatermark_searchApi.
    + by intros [= _ <-].
  - unfold passBody. rewrite Ea. by intros [= _ <-].
Qed.

(** No exception leaves a pass. *)
Lemma processEntity_catches fuel k hub w e w' : processEntity fuel k hub w <> Throw e w'.
Proof. unfold processEntity, tryCatch. by destruct (passBody fuel k hub w). Qed.

(** The processing of an account, when it returns: its three passes have
    returned one after the other, and the queue was drained. No exception
    leaves it. *)
Lemma pullAccount_inv fuel hub w :
  match pullAccount fuel hub w with
  | Ok _ w' =>
      exists b1 w1 b2 w2 b3 w3,
        processEntity fuel Contacts hub (createQueue (refreshAccessToken hub w).2) = Ok b1 w1
        /\ processEntity fuel Companies hub w1 = Ok b2 w2
        /\ processEntity fuel Meetings hub w2 = Ok b3 w3
        /\ w' = drainQueue w3
  | Throw _ _ => False
  | OutOfFuel => True
  end.
Proof.
  unfold pullAccount, processContacts, processCompanies, processMeetings,
    logged, tryCatch, bind, modify, ret, saveDomain.
  set (w0 := createQueue (refreshAccessToken hub w).2).
  destruct (processEntity fuel Contacts hub w0) as [b1 w1|e w1|] eqn:R1;
    [|by destruct (processEntity_catches _ _ _ _ _ _ R1)|done].
  destruct (processEntity fuel Companies hub w1) as [b2 w2|e w2|] eqn:R2;
    [|by destruct (processEntity_catches _ _ _ _ _ _ R2)|done].
  destruct (processEntity fuel Meetings hub w2) as [b3 w3|e w3|] eqn:R3;
    [|by destruct (processEntity_catches _ _ _ _ _ _ R3)|done].
  by exists b1, w1, b2, w2, b3, w3.
Qed.

(** The three passes of an account return when the remote answers fewer
    search calls than there is fuel. *)
Lemma pullAccount_three fuel hub w :
  (forall k, (length (searchApi k w) < fuel)%nat) ->
  exists b1 w1 b2 w2 b3 w3,
    processEntity fuel Contacts hub (createQueue (refreshAccessToken hub w).2) = Ok b1 w1
    /\ processEntity fuel Companies hub w1 = Ok b2 w2
    /\ processEntity fuel Meetings hub w2 = Ok b3 w3
    /\ (forall k, (length (searchApi k w3) <= length (searchApi k w))%nat).
Proof.
  intros Hf. set (w0 := createQueue (refreshAccessToken hub w).2).
  assert (forall k, searchApi k w0 = searchApi k w) as H0
    by (intros; apply refreshQueue_searchApi).
  destruct (processEntity_length fuel Contacts hub w0) as (b1 & w1 & R1 & L1 & O1);
    [rewrite H0; apply Hf|].
  destruct (processEntity_length fuel Companies hub w1) as (b2 & w2 & R2 & L2 & O2);
    [rewrite O1, H0 by done; apply Hf|].
  destruct (processEntity_length fuel Meetings hub w2) as (b3 & w3 & R3 & L3 & O3);
    [rewrite O2, O1, H0 by done; apply Hf|].
  exists b1, w1, b2, w2, b3, w3. repeat (split; [done|]).
  intros [].
  - rewrite O3, <- H0, <- O1 by done. exact L2.
  - rewrite O3, O2, <- H0 by done. exact L1.
  - rewrite <- (H0 Meetings), <- (O1 Meetings), <- (O2 Meetings) by done. exact L3.
Qed.

Lemma pullAccount_returns fuel hub w :
  (forall k, (length (searchApi k w) < fuel)%nat) ->
  exists w', pullAccount fuel hub w = Ok tt w'
             /\ (forall k, (length (searchApi k w') <= length (searchApi k w))%nat).
Proof.
  intros Hf.
  destruct (pullAccount_three fuel hub w Hf) as (b1 & w1 & b2 & w2 & b3 & w3 & R1 & R2 & R3 & L).
  exists (drainQueue w3). split; [by apply (pullAccount_unfold fuel hub w b1 w1 b2 w2 b3 w3)|].
  intros k. rewrite (remote_searchApi k _ _ (drainQueue_remote w3)). apply L.
Qed.

(** What a pass that returned has pushed, against the scripts [u] and [u']
    of its kind. *)
Lemma processEntity_passActions fuel k hub w account b w' :
  findAccount hub (accounts (domain w)) = Some account ->
  processEntity fuel k hub w = Ok b w' ->
  exists new,
    accepted w' = accepted w ++ new
    /\ forall u u', searchApi k u = searchApi k w -> searchApi k u' = searchApi k w' ->
                    passActions k (getWatermark k (lastPulledDates account)) u u' new.
Proof.
  intros Ea R.
  destruct (processEntity_emitsFor fuel k hub w account b w' Ea R)
    as (pages & records & F & Hc & groups & Hacc & F2).
  exists (concat groups). split; [done|]. intros u u' Eu Eu'.
  exists pages, records, groups.
  split; [by apply (Fetched_from k w u), (Fetched_to k w w' u')|].
  split; [|done]. destruct b; [by subst|done].
Qed.

Lemma processEntity_missing fuel k hub w b w' :
  findAccount hub (accounts (domain w)) = None ->
  processEntity fuel k hub w = Ok b w' -> w' = w.
Proof.
  intros En. unfold processEntity, tryCatch, passBody. rewrite En. by intros [= _ <-].
Qed.

(** What an account that returned has handed over. *)
Lemma pullAccount_delivers fuel hub w w' :
  waiting w = [] ->
  pullAccount fuel hub w = Ok tt w' ->
  waiting w' = []
  /\ map hubId (accounts (domain w')) = map hubId (accounts (domain w))
  /\ (exists new, concat (delivered w') = concat (delivered w) ++ new)
  /\ (forall account,
        findAccount hub (accounts (domain w)) = Some account ->
        exists contacts companies meetings,
          concat (delivered w') = concat (delivered w) ++ contacts ++ companies ++ meetings
          /\ passActions Contacts (getWatermark Contacts (lastPulledDates account)) w w' contacts
          /\ passActions Companies (getWatermark Companies (lastPulledDates account)) w w'
               companies
          /\ passActions Meetings (getWatermark Meetings (lastPulledDates account)) w w'
               meetings).
Proof.
  intros Hw R. pose proof (pullAccount_inv fuel hub w) as Hi. rewrite R in Hi.
  destruct Hi as (b1 & w1 & b2 & w2 & b3 & w3 & R1 & R2 & R3 & ->).
  set (w0 := createQueue (refreshAccessToken hub w).2) in *.
  assert (accepted w0 = concat (delivered w)) as A0.
  { unfold accepted, w0. cbn. by rewrite app_nil_r, refreshAccessToken_delivered. }
  assert (lastPulledDates <$> findAccount hub (accounts (domain w0))
          = lastPulledDates <$> findAccount hub (accounts (domain w))) as F0.
  { apply findAccount_watermarks.
    change (watermarks w0 = watermarks w). apply refreshAccessToken_watermarks. }
  assert (forall k, searchApi k w0 = searchApi k w) as S0
    by (intros; apply refreshQueue_searchApi).
  assert (forall k, searchApi k (drainQueue w3) = searchApi k w3) as S4
    by (intros; apply remote_searchApi, drainQueue_remote).
  pose proof (fun k' H => processEntity_other_script fuel Contacts k' hub w0 b1 w1 H R1) as O1.
  pose proof (fun k' H => processEntity_other_script fuel Companies k' hub w1 b2 w2 H R2) as O2.
  pose proof (fun k' H => processEntity_other_script fuel Meetings k' hub w2 b3 w3 H R3) as O3.
  split; [apply drainQueue_waiting|].
  split.
  { rewrite drainQueue_domain, (processEntity_hubIds _ _ _ _ _ _ R3),
      (processEntity_hubIds _ _ _ _ _ _ R2), (processEntity_hubIds _ _ _ _ _ _ R1).
    unfold w0. rewrite !hubIds_watermarks.
    change (watermarks (createQueue ?u)) with (watermarks u).
    by rewrite refreshAccessToken_watermarks. }
  assert (forall account,
        findAccount hub (accounts (domain w)) = Some account ->
        exists contacts companies meetings,
          accepted w3 = concat (delivered w) ++ contacts ++ companies ++ meetings
          /\ passActions Contacts (getWatermark Contacts (lastPulledDates account)) w
               (drainQueue w3) contacts
          /\ passActions Companies (getWatermark Companies (lastPulledDates account)) w
               (drainQueue w3) companies
          /\ passActions Meetings (getWatermark Meetings (lastPulledDates account)) w
               (drainQueue w3) meetings) as Hfound.
  { intros account Ea. rewrite Ea in F0.
    destruct (findAccount hub (accounts (domain w0))) as [a0|] eqn:E0; [|done].
    injection F0 as F0.
    pose proof (processEntity_other_watermark fuel Contacts Companies hub w0 b1 w1
                  ltac:(done) R1) as W1.
    pose proof (processEntity_other_watermark fuel Contacts Meetings hub w0 b1 w1
                  ltac:(done) R1) as W1'.
    pose proof (processEntity_other_watermark fuel Companies Meetings hub w1 b2 w2
                  ltac:(done) R2) as W2.
    rewrite E0 in W1, W1'. cbn in W1, W1'.
    destruct (findAccount hub (accounts (domain w1))) as [a1|] eqn:E1; [|done].
    cbn in W1, W1', W2. injection W1 as W1. injection W1' as W1'.
    destruct (findAccount hub (accounts (domain w2))) as [a2|] eqn:E2; [|done].
    cbn in W2. injection W2 as W2.
    destruct (processEntity_passActions fuel Contacts hub w0 a0 b1 w1 E0 R1) as (n1 & A1 & P1).
    destruct (processEntity_passActions fuel Companies hub w1 a1 b2 w2 E1 R2) as (n2 & A2 & P2).
    destruct (processEntity_passActions fuel Meetings hub w2 a2 b3 w3 E2 R3) as (n3 & A3 & P3).
    cbn [getWatermark] in P1, P2, P3 |- *.
    exists n1, n2, n3. split; [by rewrite A3, A2, A1, A0, <- !app_assoc|].
    split; [|split].
    - rewrite <- F0. apply P1; [by rewrite S0|]. by rewrite S4, O3, O2.
    - rewrite <- F0, <- W1. apply P2; [by rewrite O1, S0|]. by rewrite S4, O3.
    - rewrite <- F0, <- W1', <- W2. apply P3; [by rewrite O2, O1, S0|]. by rewrite S4. }
  split; [|intros account Ea; rewrite drainQueue_delivers; by apply Hfound].
  rewrite drainQueue_delivers.
  destruct (findAccount hub (accounts (domain w))) as [account|] eqn:Ea.
  - destruct (Hfound account eq_refl) as (n1 & n2 & n3 & E & _). by exists (n1 ++ n2 ++ n3).
  - destruct (findAccount hub (accounts (domain w0))) eqn:E0; [done|].
    pose proof (processEntity_missing _ _ _ _ _ _ E0 R1) as ->.
    pose proof (processEntity_missing _ _ _ _ _ _ E0 R2) as ->.
    pose proof (processEntity_missing _ _ _ _ _ _ E0 R3) as ->.
    exists []. by rewrite app_nil_r.
Qed.

Lemma pullAccount_catches fuel hub w e w' : pullAccount fuel hub w <> Throw e w'.
Proof. intros E. pose proof (pullAccount_inv fuel hub w) as Hi. by rewrite E in Hi. Qed.

Lemma accounts_catch fuel hubs : forall w e w', forEachM (pullAccount fuel) hubs w <> Throw e w'.
Proof.
  induction hubs as [|hub hubs IH]; intros w e w'; cbn; [done|]. unfold bind.
  pose proof (pullAccount_catches fuel hub w) as Hc.
  destruct (pullAccount fuel hub w) as [[] w1|e1 w1|]; [apply IH|by destruct (Hc e1 w1)|done].
Qed.

Lemma accounts_visits fuel hubs :
  forall w w',
    waiting w = [] ->
    forEachM (pullAccount fuel) hubs w = Ok tt w' ->
    visits fuel hubs w w'
    /\ map hubId (accounts (domain w')) = map hubId (accounts (domain w))
    /\ waiting w' = []
    /\ exists new, concat (delivered w') = concat (delivered w) ++ new.
Proof.
  induction hubs as [|hub hubs IH]; intros w w' Hw; cbn.
  - intros [= <-]. repeat (split; [done|]). exists []. by rewrite app_nil_r.
  - unfold bind. destruct (pullAccount fuel hub w) as [[] w1|e1 w1|] eqn:R1; [|done|done].
    intros R. destruct (pullAccount_delivers fuel hub w w1 Hw R1) as (W1 & I1 & [n1 D1] & _).
    destruct (IH w1 w' W1 R) as (V & I2 & W2 & [n2 D2]).
    split; [by exists w1|]. split; [by rewrite I2|]. split; [done|].
    exists (n1 ++ n2). by rewrite D2, D1, app_assoc.
Qed.

Lemma accounts_return fuel hubs :
  forall w,
    (forall k, (length (searchApi k w) < fuel)%nat) ->
    exists w', forEachM (pullAccount fuel) hubs w = Ok tt w'.
Proof.
  induction hubs as [|hub hubs IH]; intros w Hf; cbn; [by exists w|].
  destruct (pullAccount_returns fuel hub w Hf) as (w1 & R1 & L1).
  destruct (IH w1) as [w2 R2].
  { intros k. specialize (L1 k). specialize (Hf k). lia. }
  exists w2. unfold bind. by rewrite R1.
Qed.

End Run.

(** One account, from the token refresh to the drain, with no task waiting
    from before. No exception leaves the processing of an account, whatever
    the remote does. When it returns, nothing waits in the queue, what was
    handed to [goal] before is still there, in place, and what was handed
    over since is, in this order, what the contacts pass, the companies pass
    and the meetings pass pushed: each of them the actions, record by
    record, of a prefix of the records its search endpoint returned in this
    processing, built against the watermark of that kind the account held
    when its processing started. It does return when every search endpoint
    answers or rejects fewer calls than there is fuel, and rejects every
    call after these. *)
Theorem account_run_delivers (fuel : nat) (hub : string) (w : World) (account : Account) :
  waiting w = [] ->
  findAccount hub (accounts (domain w)) = Some account ->
  (forall e w', pullAccount fuel hub w <> Throw e w')
  /\ (forall w',
        pullAccount fuel hub w = Ok tt w' ->
        exists contacts companies meetings,
          concat (delivered w') = concat (delivered w) ++ contacts ++ companies ++ meetings
          /\ passActions Contacts (getWatermark Contacts (lastPulledDates account)) w w' contacts
          /\ passActions Companies (getWatermark Companies (lastPulledDates account)) w w'
               companies
          /\ passActions Meetings (getWatermark Meetings (lastPulledDates account)) w w'
               meetings
          /\ waiting w' = [])
  /\ ((forall k, (length (searchApi k w) < fuel)%nat) ->
      exists w', pullAccount fuel hub w = Ok tt w').
Proof.
  intros Hw Ea. split; [apply pullAccount_catches|]. split.
  - intros w' R. destruct (pullAccount_delivers fuel hub w w' Hw R) as (W & _ & _ & P).
    destruct (P account Ea) as (n1 & n2 & n3 & D & P1 & P2 & P3).
    by exists n1, n2, n3.
  - intros Hf. destruct (pullAccount_returns fuel hub w Hf) as (w' & R & _). by exists w'.
Qed.

Lemma account_run_delivers_witness :
  exists w',
    pullAccount 6 "hub1" accountRun = Ok tt w'
    /\ exists contacts companies meetings,
         concat (delivered w') = concat (delivered accountRun) ++ contacts ++ companies ++ meetings
         /\ passActions Contacts (Some 1000) accountRun w' contacts
         /\ passActions Companies (Some 1000) accountRun w' companies
         /\ passActions Meetings (Some 1000) accountRun w' meetings
         /\ waiting w' = [].
Proof.
  destruct (account_run_delivers 6 "hub1" accountRun (sampleAccount "hub1")
              eq_refl eq_refl) as (_ & Hd & Hr).
  destruct Hr as [w' R]; [intros []; cbn; lia|].
  exists w'. split; [exact R|]. exact (Hd w' R).
Defined.

(** The whole run, with no task waiting from before. No exception leaves the
    run, whatever fails on the way: a failed refresh, a pass that aborts or
    a whole endpoint that is down. When it returns, it has processed every
    account of the domain, in the order of the domain, each from the world
    the one before left; the accounts keep their [hubId]s and their order,
    nothing waits in the queue, and what was handed to [goal] is only added
    to. It does return when every search endpoint answers or rejects fewer
    calls than there is fuel, and rejects every call after these. *)
Theorem run_visits_every_account (fuel : nat) (w : World) :
  waiting w = [] ->
  (forall e w', pullDataFromHubspot fuel w <> Throw e w')
  /\ (forall w',
        pullDataFromHubspot fuel w = Ok tt w' ->
        visits fuel (map hubId (accounts (domain w))) w w'
        /\ map hubId (accounts (domain w')) = map hubId (accounts (domain w))
        /\ waiting w' = []
        /\ exists new, concat (delivered w') = concat (delivered w) ++ new)
  /\ ((forall k, (length (searchApi k w) < fuel)%nat) ->
      exists w', pullDataFromHubspot fuel w = Ok tt w').
Proof.
  intros Hw. unfold pullDataFromHubspot. split; [apply accounts_catch|]. split.
  - intros w'. by apply accounts_visits.
  - apply accounts_return.
Qed.

Lemma run_visits_every_account_witness :
  exists w',
    pullDataFromHubspot 6 accountRun = Ok tt w'
    /\ visits 6 ["hub1"; "hub2"] accountRun w'
    /\ map hubId (accounts (domain w')) = ["hub1"; "hub2"]
    /\ waiting w' = []
    /\ exists new, concat (delivered w') = concat (delivered accountRun) ++ new.
Proof.
  destruct (run_visits_every_account 6 accountRun eq_refl) as (_ & Hd & Hr).
  destruct Hr as [w' R]; [intros []; cbn; lia|].
  exists w'. split; [exact R|]. exact (Hd w' R).
Defined.

(** ** The batches handed to [goal] *)

Section Batches.

Implicit Types (w : World) (a : Action).

Lemma worker_batched d0 a w : Batched d0 w -> Batched d0 (worker a w).
Proof.
  intros (full & Hd & Hf & Hb). unfold worker, flushIfOver.
  destruct (2000 <? Z.of_nat (length (actions (pushAction a w)))) eqn:E.
  - apply Z.ltb_lt in E. cbn in E. rewrite length_app in E. cbn in E.
    exists (full ++ [actions w ++ [a]]). cbn. split; [by rewrite Hd, app_assoc|].
    split; [|lia]. apply Forall_app. split; [done|]. constructor; [|done].
    rewrite length_app. cbn. lia.
  - apply Z.ltb_ge in E. cbn in E. exists full. cbn. repeat split; first [done|lia].
Qed.

Lemma workers_batched d0 l w :
  Batched d0 w -> Batched d0 (fold_left (fun w' a => worker a w') l w).
Proof.
  revert w. induction l as [|a l IH]; intros w Hw; cbn; [done|]. by apply IH, worker_batched.
Qed.

Lemma processQueue_batched d0 w : Batched d0 w -> Batched d0 (processQueue w).
Proof. intros Hw. unfold processQueue. by apply workers_batched. Qed.

Lemma runQueue_batched d0 evs w : Batched d0 w -> Batched d0 (runQueue evs w).
Proof.
  revert w. induction evs as [|[a|] evs IH]; intros w Hw; cbn; [done| |].
  - by apply IH.
  - by apply IH, processQueue_batched.
Qed.

Lemma createQueue_batched w : Batched (delivered w) (createQueue w).
Proof. exists []. cbn. rewrite app_nil_r. repeat split; [done|lia]. Qed.

Lemma drainQueue_batches d0 w :
  Batched d0 w ->
  exists full last,
    delivered (drainQueue w) = d0 ++ full ++ last
    /\ Forall (fun b => length b = 2001%nat) full
    /\ Forall (fun b => (1 <= length b <= 2000)%nat) last
    /\ (length last <= 1)%nat.
Proof.
  intros Hw. unfold drainQueue.
  set (w1 := if 0 <? Z.of_nat (length (waiting w)) then processQueue w else w).
  assert (Batched d0 w1) as (full & Hd & Hf & Hb)
    by (unfold w1; destruct (0 <? _); [by apply processQueue_batched|done]).
  exists full. destruct (0 <? Z.of_nat (length (actions w1))) eqn:E.
  - apply Z.ltb_lt in E. exists [actions w1]. cbn.
    split; [by rewrite Hd, app_assoc|]. split; [done|]. split; [|lia].
    constructor; [lia|done].
  - exists []. rewrite app_nil_r. repeat split; cbn; first [done|lia].
Qed.

End Batches.

(** The shape of what [goal] receives for one account, whatever the passes
    push and whenever the queue runs: a series of batches of exactly 2001
    actions, flushed by the worker, then at most one last batch of 1 to 2000
    actions, flushed by [drainQueue]. [goal] is never handed an empty batch,
    and the batches together are the pushed actions in order, so the pushes
    alone determine every batch. *)
Theorem batches_are_full_or_last (w0 : World) (evs : list QueueEvent) :
  exists full last,
    delivered (drainQueue (runQueue evs (createQueue w0))) = delivered w0 ++ full ++ last
    /\ Forall (fun b => length b = 2001%nat) full
    /\ Forall (fun b => (1 <= length b <= 2000)%nat) last
    /\ (length last <= 1)%nat
    /\ concat (full ++ last) = pushed evs.
Proof.
  destruct (drainQueue_batches (delivered w0) (runQueue evs (createQueue w0)))
    as (full & last & Hd & Hf & Hl & Hn);
    [apply runQueue_batched, createQueue_batched|].
  exists full, last. repeat (split; [done|]).
  pose proof (drainQueue_delivers (runQueue evs (createQueue w0))) as Hc.
  rewrite runQueue_accepted, Hd, concat_app in Hc. unfold accepted in Hc. cbn in Hc.
  rewrite !app_nil_r in Hc. by apply app_inv_head in Hc.
Qed.

(** ** Which account is written *)

Section Writes.

Implicit Types (w u : World) (k : EntityKind) (hub : string) (l : list Account).

Lemma updateAccount_id hub l : updateAccount hub id l = l.
Proof. induction l as [|a l IH]; cbn; [done|]. case_match; [done|]. by rewrite IH. Qed.

Lemma updateAccount_compose hub f g l :
  (forall a, hubId (f a) = hubId a) ->
  updateAccount hub g (updateAccount hub f l) = updateAccount hub (g ∘ f) l.
Proof.
  intros Hf. induction l as [|a l IH]; cbn; [done|].
  destruct (String.eqb (hubId a) hub) eqn:E; cbn.
  - by rewrite Hf, E.
  - by rewrite E, IH.
Qed.

Lemma Writes_same hub w w' : domain w' = domain w -> Writes hub w w'.
Proof. intros E. exists id. split; [done|]. by rewrite E, updateAccount_id. Qed.

Lemma Writes_trans hub w1 w2 w3 : Writes hub w1 w2 -> Writes hub w2 w3 -> Writes hub w1 w3.
Proof.
  intros (f & Hf & E1) (g & Hg & E2). exists (g ∘ f). split.
  - intros a. cbn. destruct (Hf a) as [<- <-]. apply Hg.
  - rewrite E2, E1. apply updateAccount_compose. intros a. apply Hf.
Qed.

Lemma Writes_update hub f w :
  (forall a, hubId (f a) = hubId a /\ refreshToken (f a) = refreshToken a) ->
  Writes hub w (set_accounts (updateAccount hub f (accounts (domain w))) w).
Proof. intros Hf. by exists f. Qed.

Lemma refreshAccessToken_writes hub w : Writes hub w (refreshAccessToken hub w).2.
Proof.
  unfold refreshAccessToken.
  destruct (findAccount hub (accounts (domain w))) as [account|]; [|by apply Writes_same].
  destruct (tokenApi (awaitIO w)) as [|[body|] rest] eqn:E; cbn [snd].
  - apply Writes_same, awaitIO_domain.
  - case_match.
    + eapply Writes_trans; [apply Writes_same, awaitIO_domain|].
      exists (withAccessToken (newAccessToken body)). by split.
    + apply Writes_same. cbn. apply awaitIO_domain.
  - apply Writes_same. cbn. apply awaitIO_domain.
Qed.

Lemma catchFetchError_writes hub tryCount w : Writes hub w (catchFetchError hub tryCount w).
Proof.
  unfold catchFetchError. eapply Writes_trans; [|apply Writes_same, sleep_domain].
  case_match; [apply refreshAccessToken_writes|by apply Writes_same].
Qed.

Lemma searchWithRetry_writes n k hub so tryCount w :
  Writes hub w (searchWithRetry n k hub so tryCount w).2.
Proof.
  revert tryCount w. induction n as [|n IH]; intros tryCount w; cbn [searchWithRetry];
    [by apply Writes_same|].
  case_match; [|by apply Writes_same].
  pose proof (doSearch_domain k so w) as Hd.
  destruct (doSearch k so w) as [[sr|] w1]; cbn in *.
  - by apply Writes_same.
  - eapply Writes_trans; [by apply Writes_same|].
    eapply Writes_trans; [apply catchFetchError_writes|apply IH].
Qed.

Lemma iteration_writes k hub lp now off w :
  WritesRes hub w (iteration k hub lp now off w).
Proof.
  unfold iteration.
  pose proof (searchWithRetry_writes 5 k hub (searchObject k off lp now) 0 w) as Hs.
  destruct (searchWithRetry 5 k hub (searchObject k off lp now) 0 w) as [[sr|] w1];
    cbn in Hs; [|done].
  pose proof (processPage_domain k lp (default [] (results sr)) w1) as Hp.
  destruct (processPage k lp (default [] (results sr)) w1) as [[] w2|e w2|]; [| |done].
  - destruct (advance k off _ _); cbn;
      (eapply Writes_trans; [exact Hs|by apply Writes_same]).
  - cbn. eapply Writes_trans; [exact Hs|by apply Writes_same].
Qed.

Lemma passLoop_writes fuel k hub lp now :
  forall off w, WritesRes hub w (passLoop fuel k hub lp now off w).
Proof.
  induction fuel as [|fuel IH]; intros off w; cbn [passLoop]; [done|]. unfold bind.
  pose proof (iteration_writes k hub lp now off w) as Hi.
  destruct (iteration k hub lp now off w) as [[|off'] w1|e w1|]; cbn in *; try done.
  specialize (IH off' w1).
  destruct (passLoop fuel k hub lp now off' w1); cbn in *; try done;
    by eapply Writes_trans.
Qed.

Lemma processEntity_writes fuel k hub w : WritesRes hub w (processEntity fuel k hub w).
Proof.
  unfold processEntity, tryCatch.
  destruct (findAccount hub (accounts (domain w))) as [account|] eqn:Ea.
  - rewrite (passBody_found _ _ _ _ _ Ea).
    pose proof (passLoop_writes fuel k hub (getWatermark k (lastPulledDates account))
                  (Some (clock w)) emptyOffset w) as Hl.
    destruct (passLoop fuel k hub _ _ emptyOffset w) as [[] w1|e w1|]; cbn in *; try done.
    eapply Writes_trans; [exact Hl|]. unfold commitWatermark. by apply Writes_update.
  - unfold passBody. rewrite Ea. cbn. by apply Writes_same.
Qed.

Lemma logged_writes {A} hub (m : M A) :
  (forall w, WritesRes hub w (m w)) -> forall w, WritesRes hub w (logged m w).
Proof.
  intros Hm w. unfold logged, tryCatch, bind, ret. specialize (Hm w).
  by destruct (m w).
Qed.

Lemma bind_writes {A B} hub (m : M A) (f : A -> M B) :
  (forall w, WritesRes hub w (m w)) -> (forall x w, WritesRes hub w (f x w)) ->
  forall w, WritesRes hub w (bind m f w).
Proof.
  intros Hm Hf w. unfold bind. specialize (Hm w).
  destruct (m w) as [x w1|e w1|]; cbn in *; try done.
  specialize (Hf x w1). destruct (f x w1); cbn in *; try done; by eapply Writes_trans.
Qed.

Lemma modify_writes hub (f : World -> World) :
  (forall w, Writes hub w (f w)) -> forall w, WritesRes hub w (modify f w).
Proof. intros Hf w. apply Hf. Qed.

Lemma pullAccount_writes fuel hub w : WritesRes hub w (pullAccount fuel hub w).
Proof.
  revert w. unfold pullAccount.
  apply bind_writes; [apply logged_writes, modify_writes, refreshAccessToken_writes|intros _].
  apply bind_writes; [apply modify_writes; intros w; by apply Writes_same|intros _].
  apply bind_writes; [apply logged_writes, processEntity_writes|intros _].
  apply bind_writes; [apply logged_writes, processEntity_writes|intros _].
  apply bind_writes; [apply logged_writes, processEntity_writes|intros _].
  apply bind_writes;
    [apply logged_writes, modify_writes; intros w; apply Writes_same, drainQueue_domain
    |intros _].
  apply logged_writes, modify_writes. intros w. by apply Writes_same.
Qed.

(** What [Writes] means, account by account. *)
Lemma updateAccount_hubIds hub f l :
  (forall a, hubId (f a) = hubId a) -> map hubId (updateAccount hub f l) = map hubId l.
Proof.
  intros Hf. induction l as [|a l IH]; cbn; [done|].
  case_match; cbn; [by rewrite Hf|by rewrite IH].
Qed.

Lemma findAccount_other hub hub' f l :
  (forall a, hubId (f a) = hubId a) -> hub' <> hub ->
  findAccount hub' (updateAccount hub f l) = findAccount hub' l.
Proof.
  intros Hf Hne. induction l as [|a l IH]; cbn; [done|].
  destruct (String.eqb (hubId a) hub) eqn:E; cbn.
  - rewrite Hf. apply String.eqb_eq in E.
    destruct (String.eqb (hubId a) hub') eqn:E'; [|done].
    apply String.eqb_eq in E'. congruence.
  - by rewrite IH.
Qed.

Lemma updateAccount_lookup hub f l i a :
  l !! i = Some a ->
  hubId a <> hub \/ (exists j a0, (j < i)%nat /\ l !! j = Some a0 /\ hubId a0 = hub) ->
  updateAccount hub f l !! i = Some a.
Proof.
  revert i. induction l as [|b l IH]; intros i Hi Hc; [done|]. cbn.
  destruct (String.eqb (hubId b) hub) eqn:E.
  - apply String.eqb_eq in E. destruct i as [|i]; [|done].
    cbn in Hi. injection Hi as ->. destruct Hc as [Hc|(j & ? & Hj & _)]; [done|lia].
  - apply String.eqb_neq in E. destruct i as [|i]; [done|]. cbn in *.
    apply IH; [done|]. destruct Hc as [Hc|(j & a0 & Hj & Hl & Hh)]; [by left|right].
    destruct j as [|j]; cbn in Hl; [congruence|]. exists j, a0. split; [lia|done].
Qed.

Lemma Writes_shadowed hub w w' i a :
  Writes hub w w' ->
  shadowed (accounts (domain w)) i -> accounts (domain w) !! i = Some a ->
  accounts (domain w') !! i = Some a.
Proof.
  intros (f & Hf & ->) (j & a0 & a' & Hj & Hl & Hi & Hh) Ha.
  apply updateAccount_lookup; [done|].
  destruct (decide (hubId a = hub)) as [E|]; [right|by left].
  exists j, a0. rewrite Ha in Hi. injection Hi as <-. split; [done|]. split; [done|congruence].
Qed.

Lemma Writes_hubIds hub w w' :
  Writes hub w w' -> map hubId (accounts (domain w')) = map hubId (accounts (domain w)).
Proof. intros (f & Hf & ->). apply updateAccount_hubIds. intros a. apply Hf. Qed.

Lemma shadowed_hubIds l l' i : map hubId l' = map hubId l -> shadowed l i -> shadowed l' i.
Proof.
  intros E (j & a0 & a & Hj & Hl & Hi & Hh).
  assert (forall n b, l !! n = Some b -> exists b', l' !! n = Some b' /\ hubId b' = hubId b)
    as Hlk.
  { intros n b Hn.
    assert (map hubId l' !! n = Some (hubId b)) as Hm
      by (rewrite E, list_lookup_fmap, Hn; done).
    rewrite list_lookup_fmap in Hm. destruct (l' !! n) as [b'|]; [|done].
    exists b'. split; [done|]. cbn in Hm. congruence. }
  destruct (Hlk _ _ Hl) as (b0 & H0 & E0). destruct (Hlk _ _ Hi) as (b & H1 & E1).
  exists j, b0, b. repeat (split; [done|]). congruence.
Qed.

Lemma accounts_shadowed fuel hubs :
  forall w i a,
    shadowed (accounts (domain w)) i -> accounts (domain w) !! i = Some a ->
    match forEachM (pullAccount fuel) hubs w with
    | Ok _ w' | Throw _ w' => accounts (domain w') !! i = Some a
    | OutOfFuel => True
    end.
Proof.
  induction hubs as [|hub hubs IH]; intros w i a Hs Ha; cbn; [done|]. unfold bind.
  pose proof (pullAccount_writes fuel hub w) as Hw.
  destruct (pullAccount fuel hub w) as [[] w1|e w1|]; cbn in Hw; [| |done].
  - apply IH.
    + eapply shadowed_hubIds; [|exact Hs]. by eapply Writes_hubIds.
    + by eapply Writes_shadowed.
  - by eapply Writes_shadowed.
Qed.

End Writes.

(** What the processing of one account may write in the domain: the first
    account with that [hubId], the one [find] returns, and nothing else. The
    list keeps its [hubId]s and their order; what [find] returns for any
    other [hubId] is unchanged; every account with another [hubId], and
    every later account with the same [hubId], is left exactly as it was;
    and the [refreshToken] of the account itself is never rewritten. *)
Theorem account_writes_first_match_only (fuel : nat) (hub : string) (w w' : World) :
  pullAccount fuel hub w = Ok tt w' ->
  map hubId (accounts (domain w')) = map hubId (accounts (domain w))
  /\ (forall hub', hub' <> hub ->
        findAccount hub' (accounts (domain w')) = findAccount hub' (accounts (domain w)))
  /\ (forall i a,
        accounts (domain w) !! i = Some a ->
        hubId a <> hub
        \/ (exists j a0, (j < i)%nat /\ accounts (domain w) !! j = Some a0 /\ hubId a0 = hub) ->
        accounts (domain w') !! i = Some a)
  /\ refreshToken <$> findAccount hub (accounts (domain w'))
     = refreshToken <$> findAccount hub (accounts (domain w)).
Proof.
  intros Hrun. pose proof (pullAccount_writes fuel hub w) as Hw. rewrite Hrun in Hw.
  cbn in Hw. split; [by eapply Writes_hubIds|].
  destruct Hw as (f & Hf & ->).
  assert (forall a, hubId (f a) = hubId a) as Hh by (intros a; apply Hf).
  split; [intros hub' Hne; by apply findAccount_other|].
  split; [intros i a Hi Hc; by apply updateAccount_lookup|].
  rewrite findAccount_update by done.
  destruct (findAccount hub (accounts (domain w))) as [a|]; [|done]. cbn. f_equal. apply Hf.
Qed.

Lemma account_writes_first_match_only_witness :
  map hubId (accounts (domain (endOf (pullAccount 4 "hub1" shadowedRun) shadowedRun)))
  = ["hub1"; "hub1"]
  /\ accounts (domain (endOf (pullAccount 4 "hub1" shadowedRun) shadowedRun)) !! 1%nat
     = Some (sampleAccount "hub1")
  /\ accessToken <$> findAccount "hub1"
       (accounts (domain (endOf (pullAccount 4 "hub1" shadowedRun) shadowedRun)))
     = Some "fresh".
Proof.
  pose proof (account_writes_first_match_only 4 "hub1" shadowedRun
                (endOf (pullAccount 4 "hub1" shadowedRun) shadowedRun)
                ltac:(by vm_compute)) as (H1 & _ & H3 & _).
  split; [exact H1|]. split; [|by vm_compute].
  apply H3; [reflexivity|]. right. exists 0%nat, (sampleAccount "hub1").
  split; [lia|]. split; reflexivity.
Defined.

(** An account that comes after another one with the same [hubId] is never
    written by the run: the run visits its [hubId] a second time, and both
    visits read and write the first account. Its tokens and its watermarks
    are at the end what they were at the start. *)
Theorem shadowed_accounts_are_never_written (fuel : nat) (w w' : World) (i : nat) (a : Account) :
  pullDataFromHubspot fuel w = Ok tt w' ->
  shadowed (accounts (domain w)) i ->
  accounts (domain w) !! i = Some a ->
  accounts (domain w') !! i = Some a.
Proof.
  intros Hrun Hs Ha. unfold pullDataFromHubspot in Hrun.
  pose proof (accounts_shadowed fuel (map hubId (accounts (domain w))) w i a Hs Ha) as H.
  by rewrite Hrun in H.
Qed.

Lemma shadowed_accounts_are_never_written_witness :
  accounts (domain shadowedRunEnd) !! 1%nat = Some (sampleAccount "hub1")
  /\ (lastPulledDates <$> accounts (domain shadowedRunEnd) !! 0%nat)
     <> Some (lastPulledDates (sampleAccount "hub1")).
Proof.
  split; [|by vm_compute].
  apply (shadowed_accounts_are_never_written 4 shadowedRun shadowedRunEnd 1
           (sampleAccount "hub1")).
  - by vm_compute.
  - exists 0%nat, (sampleAccount "hub1"), (sampleAccount "hub1").
    split; [lia|]. repeat split; reflexivity.
  - reflexivity.
Defined.

(** ** What a page gives when the lookups answer *)

Section Lookups.

Implicit Types (w : World) (lp : Time).

(** Without any contact id in the associations, no meeting has an
    attendee. *)
Lemma no_contact_ids (m2c : gmap string (list string)) (id : string) contactIds :
  (0 <? Z.of_nat (length (remove_dups (concat (map snd (map_to_list m2c)))))) = false ->
  m2c !! id = Some contactIds -> contactIds = [].
Proof.
  intros E El. apply Z.ltb_ge in E.
  assert (remove_dups (concat (map snd (map_to_list m2c))) = []) as Hr
    by (destruct (remove_dups _); [done|cbn in E; lia]).
  destruct contactIds as [|c v]; [done|]. exfalso.
  assert (c ∈ remove_dups (concat (map snd (map_to_list m2c)))) as Hin.
  { apply elem_of_remove_dups, list_elem_of_In, in_concat. exists (c :: v). split.
    - apply in_map_iff. exists (id, c :: v). split; [done|].
      by apply list_elem_of_In, elem_of_map_to_list.
    - by left. }
  rewrite Hr in Hin. by apply elem_of_nil in Hin.
Qed.

Lemma meetingActionsOf_no_ids lp (m2c : gmap string (list string)) c2e c2e' m :
  (0 <? Z.of_nat (length (remove_dups (concat (map snd (map_to_list m2c)))))) = false ->
  meetingActionsOf lp m2c c2e m = meetingActionsOf lp m2c c2e' m.
Proof.
  intros E. unfold meetingActionsOf, attendeesOf, objGet.
  destruct (RemoteRecord.properties m); [|done].
  destruct (m2c !! RemoteRecord.id m) as [cids|] eqn:El.
  - by rewrite (no_contact_ids m2c _ cids E El).
  - by destruct (inherited (RemoteRecord.id m)).
Qed.

Lemma meetingToContacts_skip l1 l2 a :
  assocFrom a = None \/ assocTo a = None ->
  meetingToContacts (l1 ++ a :: l2) = meetingToContacts (l1 ++ l2).
Proof.
  intros Ha. unfold meetingToContacts. rewrite !foldl_app. cbn. f_equal.
  destruct (foldl _ _ l1) as [e|m]; [done|].
  destruct Ha as [-> | ->]; [done|]. by destruct (assocFrom a).
Qed.

Lemma companyAssociationEntries_throws res a fromId :
  a ∈ res -> assocFrom a = Some fromId -> assocTo a = None ->
  companyAssociationEntries res = inl (TypeError "association.to[0]").
Proof.
  intros Hin Hf Ht. induction res as [|b res IH]; [by apply elem_of_nil in Hin|].
  cbn. apply elem_of_cons in Hin as [<-|Hin].
  - by rewrite Hf, Ht.
  - specialize (IH Hin). rewrite IH.
    destruct (assocFrom b); [|done]. by destruct (assocTo b).
Qed.

End Lookups.

(** The meetings page when both lookups answer. The page is not empty, its
    meetings all have a properties object, the association read answers a
    body from which the map of attendees is built without an exception, no
    meeting without an association has an id that names a member of
    [Object.prototype], and the batch read answers the contacts with
    readable emails: then the page is transformed to its end, and what it
    pushes is, meeting by meeting in page order, one action per attendee that
    resolves to an identity, in the order of the association. An attendee
    listed twice gets two actions; an attendee without an email gets none,
    unless its id names a member of [Object.prototype]; one association read
    and at most one batch read are consumed. *)
Theorem meeting_actions_per_attendee
    (lp : Time) (data : list RemoteRecord.record) (w : World)
    (res : option (list Association)) (rest : list AssocOutcome)
    (m2c : gmap string (list string))
    (batch : list BatchContact) (rest' : list BatchOutcome)
    (entries : list (string * option string)) :
  data <> [] ->
  meetingAssocApi w = AssocBody res :: rest ->
  meetingToContacts (default [] res) = inr m2c ->
  Forall (fun m => is_Some (RemoteRecord.properties m) /\ is_Some (attendeesOf m2c m)) data ->
  contactBatchApi w = BatchBody (Some batch) :: rest' ->
  emailEntries batch = Some entries ->
  exists w',
    meetingsPage lp data w = Ok tt w'
    /\ accepted w' = accepted w
         ++ flat_map (meetingActionsOf lp m2c (fromEntries entries)) data
    /\ meetingAssocApi w' = rest
    /\ (contactBatchApi w' = rest' \/ contactBatchApi w' = contactBatchApi w).
Proof.
  intros Hne Ha Hm Hp Hb He. unfold meetingsPage, bind, meetingAssociations.
  assert ((0 <? Z.of_nat (length (map RemoteRecord.id data))) = true) as ->
    by (destruct data; [done|apply Z.ltb_lt; cbn; lia]).
  rewrite meetingAssocApi_awaitIO, Ha, Hm.
  set (w1 := awaitIO (set_meetingAssocApi rest (awaitIO w))).
  assert (accepted w1 = accepted w) as A1
    by (unfold w1; by rewrite awaitIO_accepted, accepted_set_meetingAssocApi,
          awaitIO_accepted).
  assert (contactBatchApi w1 = contactBatchApi w) as B1
    by (unfold w1; rewrite contactBatchApi_awaitIO; cbn; apply contactBatchApi_awaitIO).
  assert (meetingAssocApi w1 = rest) as M1
    by (unfold w1; by rewrite meetingAssocApi_awaitIO).
  unfold contactEmails.
  destruct (0 <? Z.of_nat (length (remove_dups (concat (map snd (map_to_list m2c))))))
    eqn:Eu.
  - rewrite contactBatchApi_awaitIO, B1, Hb, He.
    destruct (meetings_forEach_exact lp m2c (fromEntries entries) data Hp
                (set_contactBatchApi rest' (awaitIO w1)))
      as (w' & Hrun & Hacc & Hr).
    exists w'. split; [done|]. split.
    { by rewrite Hacc, accepted_set_contactBatchApi, awaitIO_accepted, A1. }
    unfold remote in Hr. injection Hr as _ _ _ _ Hm' Hc. cbn in Hm', Hc.
    rewrite meetingAssocApi_awaitIO in Hm'. split; [congruence|by left].
  - destruct (meetings_forEach_exact lp m2c ∅ data Hp w1) as (w' & Hrun & Hacc & Hr).
    exists w'. split; [done|]. split.
    { rewrite Hacc, A1. f_equal. apply flat_map_ext. intros m.
      by apply meetingActionsOf_no_ids. }
    unfold remote in Hr. injection Hr as _ _ _ _ Hm' Hc.
    split; [congruence|right; congruence].
Qed.

Lemma meeting_actions_per_attendee_witness :
  exists w',
    meetingsPage (Some 1000) [meetingWithProperties] attendeesWorld = Ok tt w'
    /\ accepted w'
       = accepted attendeesWorld
         ++ flat_map
              (meetingActionsOf (Some 1000) {["m1" := ["p1"; "p1"; "p2"]]}
                 (fromEntries [("p1", Some "ann@example.com"); ("p2", None)]))
              [meetingWithProperties]
    /\ meetingAssocApi w' = []
    /\ (contactBatchApi w' = [] \/ contactBatchApi w' = contactBatchApi attendeesWorld).
Proof.
  apply (meeting_actions_per_attendee (Some 1000) [meetingWithProperties] attendeesWorld
           (Some [{| assocFrom := Some "m1"; assocTo := Some ["p1"; "p1"; "p2"] |}]) []
           {["m1" := ["p1"; "p1"; "p2"]]}
           [{| batchId := "p1"; batchProperties := Some (Some "ann@example.com") |};
            {| batchId := "p2"; batchProperties := Some None |}] []
           [("p1", Some "ann@example.com"); ("p2", None)]).
  - discriminate.
  - reflexivity.
  - by vm_compute.
  - apply List.Forall_cons; [|apply List.Forall_nil].
    split; [by eexists|]. exists ["p1"; "p1"; "p2"]. by vm_compute.
  - reflexivity.
  - reflexivity.
Defined.

(** The contacts page when the association read answers and every
    association that has a [from] has a [to]: the page is transformed to its
    end, every contact with an email gets its action, in page order, built
    with the map from the answer, and one association read is consumed. *)
Theorem contact_actions_carry_the_lookup
    (lp : Time) (data : list RemoteRecord.record) (w : World)
    (res : option (list Association)) (rest : list AssocOutcome)
    (entries : list (string * option string)) :
  contactAssocApi w = AssocBody res :: rest ->
  companyAssociationEntries (default [] res) = inr entries ->
  exists w', contactsPage lp data w = Ok tt w'
             /\ accepted w' = accepted w
                  ++ omap (contactActionOf lp (fromEntries entries)) data
             /\ contactAssocApi w' = rest.
Proof.
  intros Ha He. unfold contactsPage, contactAssociations.
  rewrite contactAssocApi_awaitIO, Ha, He.
  eexists. split; [done|]. split.
  - by rewrite contacts_fold_accepted, awaitIO_accepted, accepted_set_contactAssocApi,
      awaitIO_accepted.
  - etrans; [apply (fold_frame contactAssocApi); intros c u;
             by apply (contactStep_frame contactAssocApi)|].
    by rewrite contactAssocApi_awaitIO.
Qed.

Lemma contact_actions_carry_the_lookup_witness :
  exists w', contactsPage (Some 1000) [contactWithEmail] companiesOfContact = Ok tt w'
             /\ accepted w' = accepted companiesOfContact
                  ++ omap (contactActionOf (Some 1000) (fromEntries [("p1", Some "c9")]))
                       [contactWithEmail]
             /\ contactAssocApi w' = [].
Proof.
  apply (contact_actions_carry_the_lookup (Some 1000) [contactWithEmail] companiesOfContact
           (Some [{| assocFrom := Some "p1"; assocTo := Some ["c9"; "c8"] |}]) []
           [("p1", Some "c9")]).
  - reflexivity.
  - reflexivity.
Defined.

(** An association that has a [from] and no [to]. In the answer of the
    contacts pass it makes the building of the map throw: the page pushes
    nothing at all, whatever contacts it holds and wherever the association
    stands in the answer. The meetings pass, reading the same shape of
    answer, ignores such an association. *)
Theorem association_without_target_aborts_contacts
    (lp : Time) (data : list RemoteRecord.record) (w : World)
    (res : list Association) (rest : list AssocOutcome) (a : Association) (fromId : string) :
  contactAssocApi w = AssocBody (Some res) :: rest ->
  a ∈ res -> assocFrom a = Some fromId -> assocTo a = None ->
  (exists w', contactsPage lp data w = Throw (TypeError "association.to[0]") w'
              /\ accepted w' = accepted w)
  /\ forall l1 l2, meetingToContacts (l1 ++ a :: l2) = meetingToContacts (l1 ++ l2).
Proof.
  intros Ha Hin Hf Ht. split.
  - unfold contactsPage, contactAssociations.
    rewrite contactAssocApi_awaitIO, Ha. change (default [] (Some res)) with res.
    rewrite (companyAssociationEntries_throws _ a fromId Hin Hf Ht).
    eexists. split; [done|].
    by rewrite awaitIO_accepted, accepted_set_contactAssocApi, awaitIO_accepted.
  - intros l1 l2. apply meetingToContacts_skip. by right.
Qed.

Lemma association_without_target_aborts_contacts_witness :
  (exists w',
      contactsPage (Some 1000) [contactWithEmail]
        (set_contactAssocApi
           [AssocBody (Some [{| assocFrom := Some "p0"; assocTo := Some ["c9"] |};
                             associationWithoutTo])] sampleWorld)
      = Throw (TypeError "association.to[0]") w'
      /\ accepted w'
         = accepted
             (set_contactAssocApi
                [AssocBody (Some [{| assocFrom := Some "p0"; assocTo := Some ["c9"] |};
                                  associationWithoutTo])] sampleWorld))
  /\ forall l1 l2, meetingToContacts (l1 ++ associationWithoutTo :: l2)
                   = meetingToContacts (l1 ++ l2).
Proof.
  apply (association_without_target_aborts_contacts (Some 1000) [contactWithEmail]
           (set_contactAssocApi
              [AssocBody (Some [{| assocFrom := Some "p0"; assocTo := Some ["c9"] |};
                                associationWithoutTo])] sampleWorld)
           [{| assocFrom := Some "p0"; assocTo := Some ["c9"] |}; associationWithoutTo] []
           associationWithoutTo "p1").
  - reflexivity.
  - apply elem_of_cons. right. apply elem_of_cons. by left.
  - reflexivity.
  - reflexivity.
Defined.

(** ** Edges of a pass *)

(** An account that has never been pulled, its watermark of the kind
    undefined: the pass compares every creation instant with an invalid
    date, so every action it emits is an "updated" action, whatever the
    records; and its first request asks for the window from NaN to the start
    of the pass. *)
Theorem no_watermark_means_updated
    (fuel : nat) (k : EntityKind) (hub : string) (w w' : World) (account : Account)
    (b : bool) :
  findAccount hub (accounts (domain w)) = Some account ->
  getWatermark k (lastPulledDates account) = None ->
  processEntity fuel k hub w = Ok b w' ->
  (exists new, accepted w' = accepted w ++ new
               /\ Forall (fun a => actionName a = updatedName k) new)
  /\ filterGroups (searchObject k emptyOffset (getWatermark k (lastPulledDates account))
                     (Some (clock w)))
     = [[ {| propertyName := modifiedProperty k; operator := "GTQ"; value := None |};
          {| propertyName := modifiedProperty k; operator := "LTQ";
             value := Some (clock w) |} ]].
Proof.
  intros Ea Hn Hrun. split.
  - destruct (processEntity_emitsFor fuel k hub w account b w' Ea Hrun)
      as (pages & records & _ & _ & groups & Hacc & Hall).
    exists (concat groups). split; [done|]. apply Forall_concat. clear Hacc.
    induction Hall as [|r g records groups Hown _ IH]; [done|].
    apply List.Forall_cons; [|exact IH].
    eapply Forall_impl; [exact (ownActions_classified _ _ _ _ Hown)|].
    intros a (p & _ & Hfor). rewrite Hn in Hfor. unfold actionFor in Hfor.
    replace (gtTime (creationTime k r p) None) with false in Hfor
      by (by destruct (creationTime k r p)).
    apply Hfor.
  - by rewrite Hn.
Qed.

Lemma no_watermark_means_updated_witness :
  (exists new,
      accepted (endOf (processCompanies 3 "hub1" neverPulled) neverPulled)
      = accepted neverPulled ++ new
      /\ Forall (fun a => actionName a = updatedName Companies) new)
  /\ filterGroups (searchObject Companies emptyOffset None (Some (clock neverPulled)))
     = [[ {| propertyName := modifiedProperty Companies; operator := "GTQ"; value := None |};
          {| propertyName := modifiedProperty Companies; operator := "LTQ";
             value := Some (clock neverPulled) |} ]].
Proof.
  apply (no_watermark_means_updated 3 Companies "hub1" neverPulled
           (endOf (processCompanies 3 "hub1" neverPulled) neverPulled)
           {| hubId := "hub1"; accessToken := "token"; refreshToken := "refresh";
              lastPulledDates :=
                {| companies := None; contacts := None; meetings := None |} |} true).
  - reflexivity.
  - reflexivity.
  - by vm_compute.
Defined.

(** The filter of a request. [generateLastModifiedDateFilter] returns no
    filter exactly when its date is the number 0, and the passes never call
    it so: every request of every pass carries the two bounds, on the
    modification property of its kind, from the window start (the watermark,
    or the number a cursor reset stored when that number is not 0) to the
    start of the pass, with at most 100 records a page. *)
Theorem every_request_is_windowed
    (k : EntityKind) (off : OffsetObject) (lp now : Time) :
  (forall date nowDate propertyName,
      generateLastModifiedDateFilter date nowDate propertyName = [] <-> date = ANumber 0)
  /\ windowArg off lp <> ANumber 0
  /\ filterGroups (searchObject k off lp now)
     = [[ {| propertyName := modifiedProperty k; operator := "GTQ";
             value := windowStart off lp |};
          {| propertyName := modifiedProperty k; operator := "LTQ"; value := now |} ]]
  /\ limit (searchObject k off lp now) = 100
  /\ (windowStart off lp = lp
      \/ exists n, n <> 0 /\ offLastModifiedDate off = Some n /\ windowStart off lp = Some n).
Proof.
  assert (windowArg off lp <> ANumber 0) as Hw.
  { unfold windowArg. destruct (offLastModifiedDate off) as [n|]; [|done]. cbn.
    destruct (n =? 0) eqn:E; cbn; [done|]. apply Z.eqb_neq in E. congruence. }
  split; [|split; [done|split; [|split; [done|]]]].
  - intros date nowDate propertyName. unfold generateLastModifiedDateFilter.
    destruct date as [n|d]; cbn; [|done].
    destruct (n =? 0) eqn:E; cbn.
    + apply Z.eqb_eq in E. by subst.
    + apply Z.eqb_neq in E. split; [done|congruence].
  - cbn. unfold generateLastModifiedDateFilter, windowStart.
    destruct (windowArg off lp) as [n|d] eqn:Ew; cbn; [|done].
    destruct (n =? 0) eqn:E; cbn; [|done]. apply Z.eqb_eq in E. by subst.
  - unfold windowStart, windowArg. destruct (offLastModifiedDate off) as [n|]; [|by left].
    cbn. destruct (n =? 0) eqn:E; cbn; [by left|]. apply Z.eqb_neq in E. right. by exists n.
Qed.

(** A cursor reset needs a last record. When a search answers an empty page
    together with a next cursor at or past 9900, reading the last record of
    the page throws: the pass returns [false], having consumed that one
    answer, and no watermark moves. *)
Theorem reset_on_empty_page_aborts
    (fuel : nat) (k : EntityKind) (hub : string) (w : World) (account : Account)
    (respond : SearchObject -> SearchResult) (rest : list SearchOutcome) :
  findAccount hub (accounts (domain w)) = Some account ->
  searchApi k w = SearchOk respond :: rest ->
  (forall so, default [] (results (respond so)) = []
              /\ exists n, parseInt (nextAfter (respond so)) = Some n /\ 9900 <= n) ->
  exists w',
    processEntity (S fuel) k hub w = Ok false w'
    /\ watermarks w' = watermarks w
    /\ searchApi k w' = rest.
Proof.
  intros Ea Hs Hpage.
  assert (exists w', processEntity (S fuel) k hub w = Ok false w' /\ searchApi k w' = rest)
    as (w' & Hrun & Hscript).
  { unfold processEntity, tryCatch. rewrite (passBody_found _ _ _ _ _ Ea).
    cbn [passLoop]. unfold bind, iteration. cbn [searchWithRetry]. cbn [Z.leb Z.compare].
    set (so := searchObject k emptyOffset (getWatermark k (lastPulledDates account))
                 (Some (clock w))).
    pose proof (doSearch_script k so w) as Hd. rewrite Hs in Hd.
    destruct (doSearch k so w) as [r w1]. cbn in Hd. destruct Hd as [-> Hrest].
    destruct (Hpage so) as (-> & n & -> & Hn).
    pose proof (processPage_searchApi k k (getWatermark k (lastPulledDates account)) [] w1)
      as Hp.
    pose proof (processPage_returns k (getWatermark k (lastPulledDates account)) [] w1) as Hr.
    destruct (processPage k _ [] w1) as [[] w2|e w2|]; [| |done].
    - unfold advance. cbn.
      assert ((n =? 0) = false) as -> by (apply Z.eqb_neq; lia).
      assert ((9900 <=? n) = true) as -> by (apply Z.leb_le; lia).
      cbn. exists w2. split; [done|congruence].
    - exists w2. split; [done|congruence]. }
  exists w'. split; [done|]. split; [|done].
  by apply (processEntity_false_watermarks (S fuel) k hub).
Qed.

Lemma reset_on_empty_page_aborts_witness :
  exists w',
    processEntity 1 Companies "hub1" (set_companySearch [emptyPageAtLimit] sampleWorld)
    = Ok false w'
    /\ watermarks w' = watermarks (set_companySearch [emptyPageAtLimit] sampleWorld)
    /\ searchApi Companies w' = [].
Proof.
  apply (reset_on_empty_page_aborts 0 Companies "hub1"
           (set_companySearch [emptyPageAtLimit] sampleWorld) (sampleAccount "hub1")
           (fun _ => {| results := Some []; nextAfter := Some "9900" |}) []).
  - reflexivity.
  - reflexivity.
  - intros so. split; [reflexivity|]. exists 9900. split; [by vm_compute|lia].
Defined.
Section Emails.

Implicit Types (w : World) (lp : Time).

Lemma emailEntries_none batch c :
  c ∈ batch -> batchProperties c = None -> emailEntries batch = None.
Proof.
  intros Hin Hc. induction batch as [|b batch IH]; [by apply elem_of_nil in Hin|].
  cbn. apply elem_of_cons in Hin as [<-|Hin]; [by rewrite Hc|].
  rewrite (IH Hin). by destruct (batchProperties b).
Qed.

(** With no email read, an action carries a member of [Object.prototype] as
    its identity. *)
Lemma meetingActionsOf_empty_identity lp (m2c : gmap string (list string)) data :
  Forall (fun a => exists name, inherited name = true /\ identity a = Some (Inherited name))
         (flat_map (meetingActionsOf lp m2c ∅) data).
Proof.
  induction data as [|m data IH]; cbn; [done|]. apply Forall_app. split; [|done].
  unfold meetingActionsOf. destruct (RemoteRecord.properties m) as [p|]; [|done].
  destruct (attendeesOf m2c m) as [cids|]; [|done].
  induction cids as [|cid cids IHc]; cbn; [done|].
  rewrite attendeeActionOf_empty. destruct (inherited cid) eqn:Ei; [|done].
  apply List.Forall_cons; [|done]. by exists cid.
Qed.

End Emails.

(** One unreadable contact in the answer of the batch read, a result without
    a [properties] object, costs the page every email: the map of emails
    stays empty. Where the map of attendees is built without an exception
    and every meeting of the page has a properties object and an array of
    attendees, the page is transformed to its end without an exception, and
    the only actions it pushes are those of the attendees whose id names a
    member of [Object.prototype], with that member as their identity: no
    action carries an email, also for the attendees whose email was in the
    answer. When no attendee has such an id, no action is emitted for any
    meeting of the page. *)
Theorem unreadable_batch_contact_discards_all_emails
    (lp : Time) (data : list RemoteRecord.record) (w : World)
    (res : option (list Association)) (rest : list AssocOutcome)
    (m2c : gmap string (list string))
    (batch : list BatchContact) (rest' : list BatchOutcome) (c : BatchContact) :
  meetingAssocApi w = AssocBody res :: rest ->
  meetingToContacts (default [] res) = inr m2c ->
  Forall (fun m => is_Some (RemoteRecord.properties m) /\ is_Some (attendeesOf m2c m)) data ->
  contactBatchApi w = BatchBody (Some batch) :: rest' ->
  c ∈ batch -> batchProperties c = None ->
  exists w',
    meetingsPage lp data w = Ok tt w'
    /\ accepted w' = accepted w ++ flat_map (meetingActionsOf lp m2c ∅) data
    /\ Forall (fun a => exists name,
                   inherited name = true /\ identity a = Some (Inherited name))
              (flat_map (meetingActionsOf lp m2c ∅) data)
    /\ ((forall m contactIds,
            m ∈ data -> attendeesOf m2c m = Some contactIds ->
            Forall (fun cid => inherited cid = false) contactIds) ->
        accepted w' = accepted w).
Proof.
  intros Ha Hm Hp Hb Hin Hc.
  assert (exists w', meetingsPage lp data w = Ok tt w'
                     /\ accepted w' = accepted w ++ flat_map (meetingActionsOf lp m2c ∅) data)
    as (w' & Hrun & Hacc).
  { destruct data as [|m0 data0]; [exists w; split; [done|cbn; by rewrite app_nil_r]|].
    unfold meetingsPage, bind, meetingAssociations.
    assert ((0 <? Z.of_nat (length (map RemoteRecord.id (m0 :: data0)))) = true) as ->
      by (apply Z.ltb_lt; cbn; lia).
    rewrite meetingAssocApi_awaitIO, Ha, Hm.
    set (u := awaitIO (set_meetingAssocApi rest (awaitIO w))).
    assert (accepted u = accepted w) as Au
      by (unfold u; by rewrite awaitIO_accepted, accepted_set_meetingAssocApi,
            awaitIO_accepted).
    assert (contactBatchApi u = contactBatchApi w) as Bu
      by (unfold u; rewrite contactBatchApi_awaitIO; cbn; apply contactBatchApi_awaitIO).
    unfold contactEmails.
    destruct (0 <? Z.of_nat (length (remove_dups (concat (map snd (map_to_list m2c))))));
      [rewrite contactBatchApi_awaitIO, Bu, Hb, (emailEntries_none batch c Hin Hc)|].
    - destruct (meetings_forEach_exact lp m2c ∅ (m0 :: data0) Hp
                  (set_contactBatchApi rest' (awaitIO u))) as (w' & Hrun & Hacc & _).
      exists w'. split; [done|].
      by rewrite Hacc, accepted_set_contactBatchApi, awaitIO_accepted, Au.
    - destruct (meetings_forEach_exact lp m2c ∅ (m0 :: data0) Hp u) as (w' & Hrun & Hacc & _).
      exists w'. split; [done|]. by rewrite Hacc, Au. }
  exists w'. split; [done|]. split; [done|].
  split; [apply meetingActionsOf_empty_identity|].
  intros Hpl. by rewrite Hacc, (meetingActionsOf_plain lp m2c data Hpl), app_nil_r.
Qed.

Lemma unreadable_batch_contact_discards_all_emails_witness :
  exists w', meetingsPage (Some 1000) [meetingWithProperties] unreadableBatchContact = Ok tt w'
             /\ accepted w' = accepted unreadableBatchContact.
Proof.
  destruct (unreadable_batch_contact_discards_all_emails (Some 1000) [meetingWithProperties]
              unreadableBatchContact
              (Some [{| assocFrom := Some "m1"; assocTo := Some ["p1"; "p2"] |}]) []
              {["m1" := ["p1"; "p2"]]}
              [{| batchId := "p1"; batchProperties := Some (Some "ann@example.com") |};
               {| batchId := "p2"; batchProperties := None |}] []
              {| batchId := "p2"; batchProperties := None |})
    as (w' & Hrun & _ & _ & Hnone).
  - reflexivity.
  - by vm_compute.
  - apply List.Forall_cons; [|apply List.Forall_nil].
    split; [by eexists|]. exists ["p1"; "p2"]. by vm_compute.
  - reflexivity.
  - apply elem_of_cons. right. apply elem_of_cons. by left.
  - reflexivity.
  - exists w'. split; [exact Hrun|]. apply Hnone.
    intros m cids Hm. apply list_elem_of_singleton in Hm as ->.
    vm_compute. intros [= <-]. by repeat apply List.Forall_cons.
Defined.
